(** * node-swatch: colour-space conversions and the harmony engine

    A shallow embedding of [src/utils/colorUtils.js] and
    [src/services/colorGenerator.js], of the two palette routes of
    [src/api/routes.js] and of [getContrastColor] of the browser script.

    Numbers.  A JavaScript Number is an IEEE 754 binary64 value; it is
    modelled by Rocq's primitive [float], whose operations are the same
    binary64 operations, so [vm_compute] evaluates the embedded functions to
    the very values the JavaScript engine produces.  Quantities that are
    integers by construction (loop counters, array lengths, the integer that
    [parseInt] reads, 32-bit results of [>>] and [&]) are kept in [Z] and
    injected with [Z2F] where they meet a Number.

    Strings.  A JavaScript string is modelled by [string]; its characters
    stand for the code units U+0000 to U+00FF.

    Randomness.  [Math.random] is an oracle [random : nat -> float] read
    through a counter that is threaded as state. *)

From Stdlib Require Import ZArith Lia List Bool String Ascii Floats DecimalString.
Import ListNotations.

Local Open Scope Z_scope.

(* ================================================================== *)
(** * JavaScript built-ins used by the source *)
(* ================================================================== *)

Module JS.

Local Open Scope float_scope.

(** ** Numbers *)

(** [x] is the Number [-0]. *)
Definition is_neg_zero (x : float) : bool := (x =? 0) && (1 / x <? 0).

(** [Math.max(a, b)]: NaN if either is NaN, and [+0] is larger than [-0]. *)
Definition Math_max (a b : float) : float :=
  if a <? b then b else if b <? a then a
  else if a =? b then (if is_neg_zero a then b else a) else nan.

(** [Math.min(a, b)]. *)
Definition Math_min (a b : float) : float :=
  if a <? b then a else if b <? a then b
  else if a =? b then (if is_neg_zero a then a else b) else nan.

(** 2^52: from here on every binary64 value is an integer. *)
Definition two52 : float := 4503599627370496.

(** The integer nearest to [x], ties to even, for [|x| < 2^52]: adding and
    removing 2^52 makes the hardware rounding do the work. *)
Definition nearest_even (x : float) : float :=
  if x <? 0 then (x - two52) + two52 else (x + two52) - two52.

(** [Math.round(x)]: the integer nearest to [x], ties towards +Infinity;
    [-0] for [-0.5 <= x <= -0]; NaN and the infinities are returned as they
    are. *)
Definition Math_round (x : float) : float :=
  if abs x <? two52 then
    let n := nearest_even x in
    let r := if x - n =? 0.5 then n + 1 else n in
    if r =? 0 then (if (x <? 0) || is_neg_zero x then neg_zero else zero) else r
  else x.

(** [Math.floor(x)]. *)
Definition Math_floor (x : float) : float :=
  if abs x <? two52 then
    let n := nearest_even x in
    if n =? x then x else if x <? n then n - 1 else n
  else x.

(** [Math.ceil(x)]. *)
Definition Math_ceil (x : float) : float := - Math_floor (- x).

(** The Number for the integer [z] (round to nearest, ties to even; an
    integer beyond the binary64 range becomes an infinity). *)
Definition Z2F (z : Z) : float := SF2Prim (binary_normalize prec emax z 0 false).

(** The integer part of a finite Number (truncation towards zero); 0 for
    NaN and the infinities. *)
Definition F2Z (x : float) : Z :=
  match Prim2SF x with
  | S754_finite sg m e =>
      let v := if (0 <=? e)%Z then Z.shiftl (Zpos m) e else Z.shiftr (Zpos m) (- e) in
      if sg then (- v)%Z else v
  | _ => 0%Z
  end.

(** [x % y] on Numbers: the remainder of the truncating division, computed
    exactly; it has the sign of the dividend. *)
Definition Number_rem (x y : float) : float :=
  match Prim2SF x, Prim2SF y with
  | S754_nan, _ | _, S754_nan => nan
  | S754_infinity _, _ => nan
  | _, S754_zero _ => nan
  | _, S754_infinity _ => x
  | S754_zero _, _ => x
  | S754_finite sx mx ex, S754_finite _ my ey =>
      let e := Z.min ex ey in
      let r := Z.rem (Z.shiftl (Zpos mx) (ex - e)) (Z.shiftl (Zpos my) (ey - e)) in
      if (r =? 0)%Z then (if sx then neg_zero else zero)
      else SF2Prim (binary_normalize prec emax (if sx then (- r)%Z else r) e false)
  end.

(** ** Integers read from and written to strings *)

Local Open Scope string_scope.
Local Open Scope Z_scope.

(** The Number for the mathematical integer [z] when it is finite, as an
    integer again: [z] itself up to 53 bits, else [z] rounded to 53
    significant bits, ties to even; [None] stands for an infinity. *)
Definition roundToNumber (z : Z) : option Z :=
  let a := Z.abs z in
  let bits := Z.log2 a + 1 in
  if bits <=? 53 then Some z
  else
    let sh := bits - 53 in
    let q := Z.shiftr a sh in
    let rest := Z.land a (Z.ones sh) in
    let half := Z.shiftl 1 (sh - 1) in
    let q' := if (half <? rest) || ((rest =? half) && Z.odd q) then q + 1 else q in
    let v := Z.shiftl q' sh in
    if 2 ^ 1024 <=? v then None else Some (Z.sgn z * v).

(** [ToInt32] of the Number that [parseInt] returned: [None] is NaN. *)
Definition ToInt32 (n : option Z) : Z :=
  match n with
  | None => 0
  | Some z =>
      match roundToNumber z with
      | None => 0
      | Some v => let m := v mod 2 ^ 32 in if 2 ^ 31 <=? m then m - 2 ^ 32 else m
      end
  end.

(** [a >> k] and [a & b] on 32-bit integers. *)
Definition sar (a k : Z) : Z := Z.shiftr a k.
Definition band (a b : Z) : Z := Z.land a b.

Definition code (c : ascii) : Z := Z.of_nat (nat_of_ascii c).

(** White space that [parseInt] skips (TAB, LF, VT, FF, CR, SP, NBSP). *)
Definition isWhiteSpace (c : ascii) : bool :=
  let n := code c in ((9 <=? n) && (n <=? 13)) || (n =? 32) || (n =? 160).

Fixpoint trimStart (s : string) : string :=
  match s with
  | String c s' => if isWhiteSpace c then trimStart s' else s
  | EmptyString => s
  end.

(** The value of a character as a digit: [0-9] are 0..9, [a-z] and [A-Z]
    are 10..35. *)
Definition digitValue (c : ascii) : option Z :=
  let n := code c in
  if (48 <=? n) && (n <=? 57) then Some (n - 48)
  else if (97 <=? n) && (n <=? 122) then Some (n - 87)
  else if (65 <=? n) && (n <=? 90) then Some (n - 55)
  else None.

(** The longest prefix of [s] made of digits of the radix, read as an
    integer; [acc] is what has been read so far ([None]: nothing yet). *)
Fixpoint parseDigits (radix : Z) (s : string) (acc : option Z) : option Z :=
  match s with
  | String c s' =>
      match digitValue c with
      | Some d =>
          if d <? radix
          then parseDigits radix s' (Some (match acc with Some a => a * radix + d | None => d end))
          else acc
      | None => acc
      end
  | EmptyString => acc
  end.

(** A leading [-] or [+] is the sign. *)
Definition stripSign (s : string) : Z * string :=
  match s with
  | String c s' =>
      if (c =? "-")%char then (-1, s')
      else if (c =? "+")%char then (1, s')
      else (1, s)
  | EmptyString => (1, s)
  end.

(** A leading [0x] or [0X] is dropped when the radix is 16 or absent. *)
Definition stripHexPrefix (s : string) : option string :=
  match s with
  | String c1 (String c2 s') =>
      if (c1 =? "0")%char && ((c2 =? "x")%char || (c2 =? "X")%char) then Some s' else None
  | _ => None
  end.

(** The two ways the source calls [parseInt]: [parseInt(s)] and
    [parseInt(s, 16)]. *)
Inductive radix_arg := RadixAbsent | Radix16.

(** [parseInt(s, radix)]: white space and a sign are skipped, then a [0x]
    prefix (both calls allow it; it makes the radix 16), then the longest run
    of digits of the radix (10 when absent) is read.  The result is the
    integer read, [None] for NaN; the Number itself is [roundToNumber] of
    it. *)
Definition parseInt (s : string) (radix : radix_arg) : option Z :=
  let '(sign, s1) := stripSign (trimStart s) in
  let '(R, s2) :=
    match stripHexPrefix s1 with
    | Some s' => (16, s')
    | None => (match radix with RadixAbsent => 10 | Radix16 => 16 end, s1)
    end in
  match parseDigits R s2 None with
  | Some v => Some (sign * v)
  | None => None
  end.

(** One digit of [Number.prototype.toString(16)]. *)
Definition hexDigit (d : Z) : ascii :=
  if d <? 10 then ascii_of_nat (Z.to_nat (48 + d)) else ascii_of_nat (Z.to_nat (87 + d)).

Fixpoint toDigits16 (fuel : nat) (n : Z) (acc : string) : string :=
  match fuel with
  | O => acc
  | S fuel' =>
      let acc' := String (hexDigit (n mod 16)) acc in
      if n / 16 =? 0 then acc' else toDigits16 fuel' (n / 16) acc'
  end.

(** [n.toString(16)] for a non-negative integer [n]. *)
Definition Z_toString16 (n : Z) : string :=
  toDigits16 (S (Z.to_nat (Z.log2 n))) n EmptyString.

(** [x.toString(16)] for a Number that is NaN, an infinity or an integer
    (the source only prints the result of [Math.round]). *)
Definition Number_toString16 (x : float) : string :=
  if is_nan x then "NaN"
  else if is_infinity x then (if (x <? 0)%float then "-Infinity" else "Infinity")
  else let z := F2Z x in
       if z <? 0 then "-" ++ Z_toString16 (- z) else Z_toString16 z.

(** [s.toLowerCase()] on the code units U+0000..U+00FF. *)
Definition lowerChar (c : ascii) : ascii :=
  let n := code c in
  if ((65 <=? n) && (n <=? 90))
     || ((192 <=? n) && (n <=? 222) && negb (n =? 215))
  then ascii_of_nat (Z.to_nat (n + 32)) else c.

Fixpoint toLowerCase (s : string) : string :=
  match s with
  | String c s' => String (lowerChar c) (toLowerCase s')
  | EmptyString => EmptyString
  end.

(** The decimal digits of an array index, as a template literal prints it. *)
Definition index_toString (i : nat) : string :=
  NilZero.string_of_uint (Nat.to_uint i).

(** The decimal digits of a non-negative integer. *)
Definition Z_toString10 (z : Z) : string :=
  NilZero.string_of_uint (N.to_uint (Z.to_N z)).

(** The integer [c] rounds to the Number [x]. *)
Definition roundsTo (x c : Z) : bool :=
  match roundToNumber c with
  | Some v => v =? x
  | None => false
  end.

(** The digits of [Number::toString] for a positive integer Number [x] of
    [n] decimal digits: the integer [s] with the fewest digits [k] such that
    [s * 10^(n-k)] rounds to [x]; of two such [s] the one closer to [x],
    the even one on a tie.  The candidates with [k] digits are the two
    multiples of [10^(n-k)] next to [x]; 17 digits always suffice.  The
    result is [s] and the exponent [n] (one more when [s] is carried to a
    power of ten). *)
Fixpoint shortestDigits (fuel : nat) (k n x : Z) : Z * Z :=
  match fuel with
  | O => (x, n)
  | S fuel' =>
      let p := 10 ^ (n - k) in
      let lo := x / p in
      let hi := lo + 1 in
      let okLo := roundsTo x (lo * p) in
      let okHi := roundsTo x (hi * p) in
      let up := (hi * p - x <? x - lo * p)
                || ((hi * p - x =? x - lo * p) && Z.even hi) in
      if okLo && negb (okHi && up) then (lo, n)
      else if okHi then (if hi =? 10 ^ k then (10 ^ (k - 1), n + 1) else (hi, n))
      else shortestDigits fuel' (k + 1) n x
  end.

(** [String(v)] for an integer Number [v] of magnitude 10^21 or more: the
    first digit, the further digits after a point when there are any, and
    the exponent, as in [1e+21] and [1.2e+21]. *)
Definition exponentText (v : Z) : string :=
  let x := Z.abs v in
  let '(s, n) := shortestDigits 17 1 (Z.of_nat (String.length (Z_toString10 x))) x in
  ((if (v <? 0)%Z then "-" else "")
   ++ match Z_toString10 s with
      | String d EmptyString => String d EmptyString
      | String d rest => String d EmptyString ++ "." ++ rest
      | EmptyString => EmptyString
      end
   ++ "e+" ++ Z_toString10 (n - 1)%Z)%string.

End JS.

Import JS.
Local Open Scope string_scope.
Local Open Scope Z_scope.

(* The decimal literals of the source that binary64 does not hold exactly
   (0.299, 0.587, 0.114) denote the nearest binary64 value, as in JavaScript. *)
Set Warnings "-inexact-float".

(* ================================================================== *)
(** * src/utils/colorUtils.js *)
(* ================================================================== *)

Record Rgb := { r : float; g : float; b : float }.
Record Hsl := { h : float; s : float; l : float }.

(** [hex.replace(/^#/, '')] *)
Definition stripHash (hex : string) : string :=
  match hex with
  | String c rest => if (c =? "#")%char then rest else hex
  | EmptyString => hex
  end.

Definition hexToRgb (hex : string) : Rgb :=
  let cleanHex := stripHash hex in
  let bigint := parseInt cleanHex Radix16 in
  {| r := Z2F (band (sar (ToInt32 bigint) 16) 255);
     g := Z2F (band (sar (ToInt32 bigint) 8) 255);
     b := Z2F (band (ToInt32 bigint) 255) |}.

Definition toHex (n : float) : string :=
  let hex := Number_toString16 (Math_round (Math_max 0 (Math_min 255 n))) in
  if (String.length hex =? 1)%nat then "0" ++ hex else hex.

Definition rgbToHex (r g b : float) : string :=
  "#" ++ toHex r ++ toHex g ++ toHex b.

Section Conversions.
Local Open Scope float_scope.

Definition rgbToHsl (r g b : float) : Hsl :=
  let r := r / 255 in
  let g := g / 255 in
  let b := b / 255 in
  let max := Math_max (Math_max r g) b in
  let min := Math_min (Math_min r g) b in
  let l := (max + min) / 2 in
  let '(h, s) :=
    if max =? min then (0, 0)
    else
      let d := max - min in
      let s := if 0.5 <? l then d / (2 - max - min) else d / (max + min) in
      let h :=
        if max =? r then ((g - b) / d + (if g <? b then 6 else 0)) / 6
        else if max =? g then ((b - r) / d + 2) / 6
        else if max =? b then ((r - g) / d + 4) / 6
        else nan in
      (h, s) in
  {| h := Math_round (h * 360);
     s := Math_round (s * 100);
     l := Math_round (l * 100) |}.

Definition hue2rgb (p q t : float) : float :=
  let t := if t <? 0 then t + 1 else t in
  let t := if 1 <? t then t - 1 else t in
  if t <? 1 / 6 then p + (q - p) * 6 * t
  else if t <? 1 / 2 then q
  else if t <? 2 / 3 then p + (q - p) * (2 / 3 - t) * 6
  else p.

Definition hslToRgb (h s l : float) : Rgb :=
  let h := h / 360 in
  let s := s / 100 in
  let l := l / 100 in
  let '(r, g, b) :=
    if s =? 0 then (l, l, l)
    else
      let q := if l <? 0.5 then l * (1 + s) else l + s - l * s in
      let p := 2 * l - q in
      (hue2rgb p q (h + 1 / 3), hue2rgb p q h, hue2rgb p q (h - 1 / 3)) in
  {| r := Math_round (r * 255);
     g := Math_round (g * 255);
     b := Math_round (b * 255) |}.

Definition hexToHsl (hex : string) : Hsl :=
  let c := hexToRgb hex in
  rgbToHsl (r c) (g c) (b c).

Definition hslToHex (h s l : float) : string :=
  let c := hslToRgb h s l in
  rgbToHex (r c) (g c) (b c).

Definition normalizeHue (hue : float) : float :=
  Number_rem (Number_rem hue 360 + 360) 360.

Definition getContrastColor (hex : string) : string :=
  let c := hexToRgb hex in
  let luminance := (0.299 * r c + 0.587 * g c + 0.114 * b c) / 255 in
  if 0.5 <? luminance then "#000000" else "#ffffff".

End Conversions.

(** ** Randomness: [Math.random] as an oracle read through a counter *)

Definition Rand (A : Type) : Type := nat -> A * nat.

Definition ret {A} (a : A) : Rand A := fun n => (a, n).

Definition bind {A B} (m : Rand A) (k : A -> Rand B) : Rand B :=
  fun n => let '(a, n') := m n in k a n'.

Notation "x <- m ;; k" := (bind m (fun x => k))
  (at level 61, m at next level, right associativity).

Section Random.

(** [random i] is what the [i]-th call of [Math.random()] returns. *)
Variable random : nat -> float.

Definition Math_random : Rand float := fun n => (random n, S n).

Definition randomHsl : Rand Hsl :=
  u1 <- Math_random ;;
  u2 <- Math_random ;;
  u3 <- Math_random ;;
  ret {| h := Math_floor (u1 * 360)%float;
         s := (Math_floor (u2 * 40) + 50)%float;
         l := (Math_floor (u3 * 30) + 35)%float |}.

(* ================================================================== *)
(** * src/services/colorGenerator.js *)
(* ================================================================== *)

Definition HARMONY_TYPES : list string :=
  [ "complementary"; "analogous"; "triadic"; "split-complementary"; "tetradic";
    "monochromatic"; "square"; "double-complementary"; "custom"; "random" ].

(** [colors.length] *)
Definition len (colors : list Hsl) : Z := Z.of_nat (List.length colors).

(** [colors.slice(0, count)]: the first [count] elements; a negative
    [count] counts from the end. *)
Definition slice0 (colors : list Hsl) (count : Z) : list Hsl :=
  if count <? 0 then firstn (Z.to_nat (len colors + count)) colors
  else firstn (Z.to_nat count) colors.

(** [{ ...c, h: hue }] *)
Definition with_h (c : Hsl) (hue : float) : Hsl := {| h := hue; s := s c; l := l c |}.

(** [while (colors.length < count) colors.push(next(colors))].  Every turn
    adds one element, so [count] turns are enough fuel (see
    [push_while_length]). *)
Fixpoint push_while (fuel : nat) (count : Z) (next : list Hsl -> Hsl) (colors : list Hsl)
  : list Hsl :=
  match fuel with
  | O => colors
  | S fuel' =>
      if len colors <? count
      then push_while fuel' count next (colors ++ [next colors])
      else colors
  end.

Definition while_push (count : Z) (next : list Hsl -> Hsl) (colors : list Hsl) : list Hsl :=
  push_while (Z.to_nat count) count next colors.

(** [for (let i = 1; i < count; i++) colors.push(body(i))] *)
Definition for_push (count : Z) (body : Z -> Hsl) (colors : list Hsl) : list Hsl :=
  colors ++ map (fun i => body (Z.of_nat i)) (seq 1 (Z.to_nat count - 1)).

Section Strategies.
Local Open Scope float_scope.

Definition generateComplementary (baseHsl : Hsl) (count : Z) : list Hsl :=
  let complement := with_h baseHsl (normalizeHue (h baseHsl + 180)) in
  let colors := [baseHsl; complement] in
  let colors :=
    while_push count
      (fun colors =>
         let variation := if (len colors mod 2 =? 0)%Z then baseHsl else complement in
         {| h := h variation;
            s := Math_max 20 (s variation - Z2F (len colors * 10));
            l := Math_min 80 (l variation + Z2F (len colors * 8)) |})
      colors in
  slice0 colors count.

Definition generateAnalogous (baseHsl : Hsl) (count : Z) : list Hsl :=
  let angleStep := 30 in
  let colors :=
    for_push count
      (fun i =>
         let direction := if (i mod 2 =? 1)%Z then 1 else -1 in
         let steps := Math_ceil (Z2F i / 2) in
         {| h := normalizeHue (h baseHsl + angleStep * steps * direction);
            s := Math_max 30 (s baseHsl - Z2F (i * 5));
            l := Math_max 25 (Math_min 75 (l baseHsl + (Z2F (i mod 3) - 1) * 10)) |})
      [baseHsl] in
  slice0 colors count.

(** The five strategies with fixed anchor hues share one shape: the base,
    one colour per hue offset, then variations of [colors[length % modulus]]
    with the saturation lowered by [ds] (not below 30) and the lightness
    raised by [dl] (not above [lmax]). *)
Definition anchored (offsets : list float) (modulus : Z) (ds dl lmax : float)
    (baseHsl : Hsl) (count : Z) : list Hsl :=
  let colors :=
    baseHsl :: map (fun off => with_h baseHsl (normalizeHue (h baseHsl + off))) offsets in
  let colors :=
    while_push count
      (fun colors =>
         let baseIndex := (len colors mod modulus)%Z in
         let base := nth (Z.to_nat baseIndex) colors baseHsl in
         {| h := h base;
            s := Math_max 30 (s base - ds);
            l := Math_min lmax (l base + dl) |})
      colors in
  slice0 colors count.

Definition generateTriadic : Hsl -> Z -> list Hsl :=
  anchored [120; 240] 3 15 15 75.

Definition generateSplitComplementary : Hsl -> Z -> list Hsl :=
  anchored [150; 210] 3 20 10 80.

Definition generateTetradic : Hsl -> Z -> list Hsl :=
  anchored [60; 180; 240] 4 15 12 75.

Definition generateMonochromatic (baseHsl : Hsl) (count : Z) : list Hsl :=
  let colors :=
    for_push count
      (fun i =>
         let lightnessStep := 60 / Z2F count in
         let saturationVariation :=
           (if (i mod 2 =? 0)%Z then -10 else 10) * Math_ceil (Z2F i / 2) in
         {| h := h baseHsl;
            s := Math_max 20 (Math_min 90 (s baseHsl + saturationVariation));
            l := Math_max 20 (Math_min 80 (20 + Z2F i * lightnessStep)) |})
      [baseHsl] in
  slice0 colors count.

Definition generateSquare : Hsl -> Z -> list Hsl :=
  anchored [90; 180; 270] 4 20 15 75.

Definition generateDoubleComplementary : Hsl -> Z -> list Hsl :=
  anchored [30; 180; 210] 4 15 10 80.

Definition generateCustom (baseHsl : Hsl) (count : Z) (angle : float) : list Hsl :=
  let colors :=
    for_push count
      (fun i =>
         {| h := normalizeHue (h baseHsl + angle * Z2F i);
            s := Math_max 30 (s baseHsl - Z2F (i * 5));
            l := Math_max 25 (Math_min 75 (l baseHsl + (Z2F (i mod 3) - 1) * 8)) |})
      [baseHsl] in
  slice0 colors count.

End Strategies.

(** [for (let i = 1; i < count; i++) colors.push(randomHsl())], [n] turns *)
Fixpoint push_random (n : nat) (colors : list Hsl) : Rand (list Hsl) :=
  match n with
  | O => ret colors
  | S n' => c <- randomHsl ;; push_random n' (colors ++ [c])
  end.

Definition generateRandom (baseHsl : Hsl) (count : Z) : Rand (list Hsl) :=
  push_random (Z.to_nat count - 1) [baseHsl].

(** The [count] option as a caller can pass it. *)
Inductive count_arg :=
  | CountMissing                (* no [count] property: the default 5 applies *)
  | CountNumber (z : Z)          (* the integer Number nearest to [z] *)
  | CountNaN                     (* the Number NaN *)
  | CountString (s : string).    (* a string; a value of another kind counts
                                    as its text, which is what [parseInt]
                                    reads *)

Record options := {
  o_harmony : option string;     (* [None]: no [harmony] property *)
  o_count : count_arg;
  o_baseColor : option string;   (* [None]: no [baseColor] property *)
  o_angle : option float         (* [None]: no [angle] property *)
}.

Record Color := { hex : string; hsl : Hsl; role : string }.

Record Palette := {
  harmony : string;
  count : Z;
  baseColor : string;
  colors : list Color
}.

(** [parseInt(count)]: the integer read, [None] for NaN.  [parseInt] reads
    the text of its argument: an integer Number below 10^21 in magnitude
    prints in plain digits, a larger one with an exponent (10^21 prints as
    [1e+21], of which [parseInt] reads the 1), an infinity as [Infinity]. *)
Definition parseInt_count (c : count_arg) : option Z :=
  match c with
  | CountMissing => Some 5
  | CountNumber z =>
      match roundToNumber z with
      | Some v => if Z.abs v <? 10 ^ 21 then Some v
                  else parseInt (exponentText v) RadixAbsent
      | None => None
      end
  | CountNaN => None
  | CountString s => parseInt s RadixAbsent
  end.

(** [Math.max(2, Math.min(6, parseInt(count) || 5))]: [||] replaces the
    falsy values NaN and 0. *)
Definition colorCount (c : count_arg) : Z :=
  let n := match parseInt_count c with
           | None => 5
           | Some z => if z =? 0 then 5 else z
           end in
  Z.max 2 (Z.min 6 n).

(** [baseColor ? ... : ...]: [undefined] and the empty string are falsy. *)
Definition truthy (x : option string) : option string :=
  match x with
  | Some EmptyString => None
  | _ => x
  end.

Definition roleOf (index : nat) : string :=
  match index with
  | O => "primary"
  | _ => "accent-" ++ index_toString index
  end.

(** [hslColors.map((hsl, index) => ...)], from [index] on *)
Fixpoint toColors (index : nat) (hslColors : list Hsl) : list Color :=
  match hslColors with
  | [] => []
  | c :: rest =>
      {| hex := hslToHex (h c) (s c) (l c); hsl := c; role := roleOf index |}
      :: toColors (S index) rest
  end.

(** The [switch] on [harmony.toLowerCase()]. *)
Definition dispatch (name : string) (baseHsl : Hsl) (colorCount : Z) (angle : float)
  : Rand (list Hsl) :=
  if (name =? "complementary")%string then ret (generateComplementary baseHsl colorCount)
  else if (name =? "analogous")%string then ret (generateAnalogous baseHsl colorCount)
  else if (name =? "triadic")%string then ret (generateTriadic baseHsl colorCount)
  else if (name =? "split-complementary")%string then ret (generateSplitComplementary baseHsl colorCount)
  else if (name =? "tetradic")%string then ret (generateTetradic baseHsl colorCount)
  else if (name =? "monochromatic")%string then ret (generateMonochromatic baseHsl colorCount)
  else if (name =? "square")%string then ret (generateSquare baseHsl colorCount)
  else if (name =? "double-complementary")%string then ret (generateDoubleComplementary baseHsl colorCount)
  else if (name =? "custom")%string then ret (generateCustom baseHsl colorCount angle)
  else generateRandom baseHsl colorCount.

(** [generatePalette(options)].  [None] stands for the TypeError that
    [colors[0].hex] raises on an empty array. *)
Definition generatePalette (opts : options) : Rand (option Palette) :=
  let harmony := match o_harmony opts with Some x => x | None => "random" end in
  let angle := match o_angle opts with Some a => a | None => 45%float end in
  let colorCount := colorCount (o_count opts) in
  baseHsl <- match truthy (o_baseColor opts) with
             | Some baseColor => ret (hexToHsl baseColor)
             | None => randomHsl
             end ;;
  hslColors <- dispatch (toLowerCase harmony) baseHsl colorCount angle ;;
  let colors := toColors 0 hslColors in
  ret match colors with
      | first :: _ =>
          Some {| harmony := toLowerCase harmony;
                  count := colorCount;
                  baseColor := hex first;
                  colors := colors |}
      | [] => None
      end.

End Random.

(* ================================================================== *)
(** * Definitions used to state the properties *)
(* ================================================================== *)

(** The inputs of the claims about colour strings: exactly six characters,
    each one of [0-9a-fA-F]. *)
Definition isHexDigit (c : ascii) : bool :=
  match digitValue c with
  | Some d => d <? 16
  | None => false
  end.

Fixpoint allHexDigits (s : string) : bool :=
  match s with
  | String c s' => isHexDigit c && allHexDigits s'
  | EmptyString => true
  end.

Definition sixHexDigits (s : string) : bool :=
  (String.length s =? 6)%nat && allHexDigits s.

(** The value of a two-digit hexadecimal channel. *)
Definition hexValue (c : ascii) : Z :=
  match digitValue c with
  | Some d => d
  | None => 0
  end.

Definition hexPair (c1 c2 : ascii) : Z := 16 * hexValue c1 + hexValue c2.

(** The channels a six-digit colour string denotes. *)
Definition channelsOf (s : string) : Z * Z * Z :=
  match s with
  | String c1 (String c2 (String c3 (String c4 (String c5 (String c6 _))))) =>
      (hexPair c1 c2, hexPair c3 c4, hexPair c5 c6)
  | _ => (0, 0, 0)
  end.

(** Order on Numbers, as the JavaScript comparisons [<=] and [<] decide it
    (false as soon as one side is NaN). *)
Definition Number_le (x y : float) : Prop := (x <=? y)%float = true.
Definition Number_lt (x y : float) : Prop := (x <? y)%float = true.

(** [Math.abs(x - y) <= k] *)
Definition within (k x y : float) : bool := (abs (x - y) <=? k)%float.

(** The perceptual luminance of the spec, on Numbers. *)
Definition luminance (r g b : float) : float :=
  ((0.299 * r + 0.587 * g + 0.114 * b) / 255)%float.

(** A palette with another [harmony] field. *)
Definition with_harmony (p : Palette) (name : string) : Palette :=
  {| harmony := name; count := count p; baseColor := baseColor p; colors := colors p |}.

Definition set_harmony (opts : options) (name : option string) : options :=
  {| o_harmony := name; o_count := o_count opts;
     o_baseColor := o_baseColor opts; o_angle := o_angle opts |}.

(** The Numbers 0, 1, ..., 255. *)
Definition byte_values : list float :=
  Eval vm_compute in map (fun n => Z2F (Z.of_nat n)) (seq 0 256).

(** What is checked of one RGB triple: the ranges of its HSL form, and the
    distance of the round trip through HSL, channel by channel. *)
Definition triple_ok (r0 g0 b0 : float) : bool :=
  let c := rgbToHsl r0 g0 b0 in
  let o := hslToRgb (h c) (s c) (l c) in
  ((0 <=? h c) && (h c <=? 360) && (0 <=? s c) && (s c <=? 100)
   && (0 <=? l c) && (l c <=? 100))%float
  && within 5 (r o) r0 && within 5 (g o) g0 && within 5 (b o) b0.

(** Equality on Numbers, as [===] decides it. *)
Definition Number_eq (x y : float) : Prop := (x =? y)%float = true.

(** The base colour of a call: [baseColor ? hexToHsl(baseColor) : randomHsl()]. *)
Definition baseHslOf (random : nat -> float) (opts : options) : Rand Hsl :=
  match truthy (o_baseColor opts) with
  | Some baseColor => ret (hexToHsl baseColor)
  | None => randomHsl random
  end.

(** The name selects one of the ten strategies, in any letter case. *)
Definition recognized (name : string) : bool :=
  existsb (String.eqb (toLowerCase name)) HARMONY_TYPES.

(** The name selects one of the nine strategies other than [random]. *)
Definition anchorStrategy (name : string) : bool :=
  recognized name && negb (toLowerCase name =? "random")%string.

Definition mkOptions (harmony : option string) (count : count_arg)
    (baseColor : option string) (angle : option float) : options :=
  {| o_harmony := harmony; o_count := count; o_baseColor := baseColor; o_angle := angle |}.

(** An oracle for the examples: every call of [Math.random()] gives 0.5. *)
Definition half : nat -> float := fun _ => 0.5%float.

(** The 256 code units, and the 16 hexadecimal digit values. *)
Definition all_ascii : list ascii := map ascii_of_nat (seq 0 256).

Definition nibbles : list Z := map Z.of_nat (seq 0 16).

(** The number that six hexadecimal digits denote. *)
Definition hexNumber (c1 c2 c3 c4 c5 c6 : ascii) : Z :=
  hexPair c1 c2 * 65536 + hexPair c3 c4 * 256 + hexPair c5 c6.

(** ** Integers in binary64

    [shl m n] is [m * 2^n] on positives, for [n >= 0]. *)
Definition shl (m : positive) (n : Z) : positive :=
  match n with
  | Zpos p => Pos.iter xO m p
  | _ => m
  end.

(** The binary64 form of an integer of at most 53 binary digits: the
    mantissa is moved up to 53 digits. *)
Definition canonical (z : Z) : spec_float :=
  match z with
  | Z0 => S754_zero false
  | Zpos v => S754_finite false (shl v (53 - Zpos (digits2_pos v))) (Zpos (digits2_pos v) - 53)
  | Zneg v => S754_finite true (shl v (53 - Zpos (digits2_pos v))) (Zpos (digits2_pos v) - 53)
  end.

(** The integer hues 0..359 and what is checked of each. *)
Definition degrees : list Z := map Z.of_nat (seq 0 360).

Definition degree_ok (w : Z) : bool :=
  ((0 <=? Z2F w) && (Z2F w <? 360) && (Z2F w =? Z2F w))%float.

(* ================================================================== *)
(** * Further definitions used to state properties *)
(* ================================================================== *)

(** The roles of a palette of six colours, in order. *)
Definition ROLES : list string :=
  [ "primary"; "accent-1"; "accent-2"; "accent-3"; "accent-4"; "accent-5" ].

(** The harmony of a call: [harmony = 'random'] when the option is missing. *)
Definition harmonyOf (opts : options) : string :=
  match o_harmony opts with
  | Some x => x
  | None => "random"
  end.

(** How many times a call of [generatePalette] reads [Math.random]: three
    times for a base colour that is not given, and three times per further
    colour when the strategy is the random one. *)
Definition drawsOf (opts : options) : nat :=
  ((match truthy (o_baseColor opts) with Some _ => 0 | None => 3 end)
   + (if anchorStrategy (harmonyOf opts) then 0
      else 3 * (Z.to_nat (colorCount (o_count opts)) - 1)))%nat.

(** The number a run of hexadecimal digits denotes. *)
Fixpoint hexRun (s : string) (acc : Z) : Z :=
  match s with
  | String c s' => hexRun s' (acc * 16 + hexValue c)
  | EmptyString => acc
  end.

(** What [hexToRgb] keeps of the integer it reads: bits 16..23, 8..15 and
    0..7. *)
Definition low24 (v : Z) : Rgb :=
  {| r := Z2F ((v / 65536) mod 256); g := Z2F ((v / 256) mod 256); b := Z2F (v mod 256) |}.

(** The text begins with no digit that [parseInt(_, 16)] could read: it is
    empty, or its first character is no hexadecimal digit, no sign and no
    white space. *)
Definition noLeadingDigit (s : string) : bool :=
  match s with
  | EmptyString => true
  | String c _ =>
      negb (isWhiteSpace c) && negb (c =? "-")%char && negb (c =? "+")%char
      && negb (isHexDigit c)
  end.

(** An integer that is a byte. *)
Definition isByte (z : Z) : Prop := 0 <= z <= 255.

(* ================================================================== *)
(** * The Number that [parseInt] returns *)
(* ================================================================== *)

(** [parseInt(s, radix)] as a Number: NaN when no digit is read, [-0] for
    a zero after a minus sign, an infinity beyond the binary64 range. *)
Definition parseInt_Number (s : string) (radix : radix_arg) : float :=
  match parseInt s radix with
  | None => nan
  | Some z =>
      if z =? 0 then (if fst (stripSign (trimStart s)) <? 0 then neg_zero else zero)
      else match roundToNumber z with
           | Some v => Z2F v
           | None => if z <? 0 then neg_infinity else infinity
           end
  end.

(* ================================================================== *)
(** * public/js/app.js *)
(* ================================================================== *)

Module Frontend.

(** [s.slice(a, b)] for [0 <= a <= b] *)
Definition slice (s : string) (a b : nat) : string := substring a (b - a) s.

Definition getContrastColor (hex : string) : string :=
  let r := parseInt_Number (slice hex 1 3) Radix16 in
  let g := parseInt_Number (slice hex 3 5) Radix16 in
  let b := parseInt_Number (slice hex 5 7) Radix16 in
  let luminance := ((0.299 * r + 0.587 * g + 0.114 * b) / 255)%float in
  if (0.5 <? luminance)%float then "#000000" else "#ffffff".

End Frontend.

(* ================================================================== *)
(** * src/api/routes.js *)
(* ================================================================== *)

(** A parameter of [req.query]: absent, given once (a text), or given
    several times or with brackets, which the query parser delivers as an
    array or an object; of such a value the model keeps the text
    [String(value)], which is all that [parseInt] reads of it. *)
Inductive QueryValue :=
  | Absent
  | Text (s : string)
  | Other (text : string).

Record Query := {
  q_count : QueryValue;
  q_baseColor : QueryValue;
  q_harmony : QueryValue;
  q_angle : QueryValue
}.

(** What a handler answers: [res.json(palette)] (in the body sent, JSON
    writes a NaN of the palette as [null]), the 400 answer, or the 500
    answer of the framework when the handler throws. *)
Inductive Response :=
  | Json (palette : Palette)
  | BadRequest (error : string) (validTypes : list string)
  | ServerError.

(** [s.replace(c, '')]: the first occurrence of [c] is removed. *)
Fixpoint removeFirst (c : ascii) (s : string) : string :=
  match s with
  | String x s' => if (x =? c)%char then s' else String x (removeFirst c s')
  | EmptyString => EmptyString
  end.

(** The text of a truthy query value; a missing parameter and the empty
    text are falsy, arrays and objects are truthy. *)
Definition textOf (v : QueryValue) : option string :=
  match v with
  | Absent => None
  | Text s => truthy (Some s)
  | Other t => Some t
  end.


(** [count ? parseInt(count) : 5], as the [count] option of
    [generatePalette]. *)
Definition countOption (count : QueryValue) : count_arg :=
  match textOf count with
  | None => CountNumber 5
  | Some s =>
      match parseInt s RadixAbsent with
      | None => CountNaN
      | Some z => CountNumber z
      end
  end.

(** [baseColor ? `#${baseColor.replace('#', '')}` : undefined]; the outer
    [None] stands for the TypeError that [baseColor.replace] raises on an
    array or an object. *)
Definition baseColorOption (baseColor : QueryValue) : option (option string) :=
  match baseColor with
  | Other _ => None
  | _ =>
      Some match textOf baseColor with
           | None => None
           | Some s => Some ("#" ++ removeFirst "#" s)
           end
  end.

(** [angle ? parseInt(angle) : 45] *)
Definition angleOption (angle : QueryValue) : float :=
  match textOf angle with
  | None => 45%float
  | Some s => parseInt_Number s RadixAbsent
  end.

Section Routes.

Variable random : nat -> float.

(** [res.json(generatePalette(options))] *)
Definition respond (opts : options) : Rand Response :=
  p <- generatePalette random opts ;;
  ret match p with
      | Some palette => Json palette
      | None => ServerError
      end.

(** [generatePalette] called with a [harmony] that is an array or an
    object: it throws at [harmony.toLowerCase()], after the base colour has
    been read or drawn. *)
Definition respondToOtherHarmony (opts : options) : Rand Response :=
  _ <- baseHslOf random opts ;;
  ret ServerError.

(** [GET /palette] *)
Definition getPalette (query : Query) : Rand Response :=
  match baseColorOption (q_baseColor query) with
  | None => ret ServerError
  | Some baseColor =>
      let opts harmony :=
        {| o_harmony := harmony;
           o_count := countOption (q_count query);
           o_baseColor := baseColor;
           o_angle := Some (angleOption (q_angle query)) |} in
      match q_harmony query with
      | Other _ => respondToOtherHarmony (opts None)
      | harmony =>
          respond (opts (Some match textOf harmony with
                              | Some x => x
                              | None => "random"
                              end))
      end
  end.

(** [GET /palette/:harmony]; the path segment is a text. *)
Definition getPaletteByHarmony (harmony : string) (query : Query) : Rand Response :=
  if negb (existsb (String.eqb (toLowerCase harmony)) HARMONY_TYPES)
  then ret (BadRequest "Invalid harmony type" HARMONY_TYPES)
  else
    match baseColorOption (q_baseColor query) with
    | None => ret ServerError
    | Some baseColor =>
        respond {| o_harmony := Some harmony;
                   o_count := countOption (q_count query);
                   o_baseColor := baseColor;
                   o_angle := Some (angleOption (q_angle query)) |}
    end.

End Routes.

(** A query with no parameter, and one with a base colour only. *)
Definition noQuery : Query :=
  {| q_count := Absent; q_baseColor := Absent; q_harmony := Absent; q_angle := Absent |}.

Definition set_baseColor (q : Query) (c : QueryValue) : Query :=
  {| q_count := q_count q; q_baseColor := c; q_harmony := q_harmony q; q_angle := q_angle q |}.

(** The text holds no [#]. *)
Fixpoint noHash (s : string) : bool :=
  match s with
  | String c s' => negb (c =? "#")%char && noHash s'
  | EmptyString => true
  end.

(** An integer channel brought into 0..255, and the two hexadecimal digits
    of a byte. *)
Definition clampByte (z : Z) : Z := Z.max 0 (Z.min 255 z).

Definition byteText (v : Z) : string :=
  String (hexDigit (v / 16)) (String (hexDigit (v mod 16)) EmptyString).

(** The strategies with fixed anchor hues: the base and one colour per
    offset are the anchors; a variation of an anchor keeps its hue, lowers
    the saturation and raises the lightness. *)
Definition anchorsOf (offsets : list float) (baseHsl : Hsl) : list Hsl :=
  baseHsl :: map (fun off => with_h baseHsl (normalizeHue (h baseHsl + off)%float)) offsets.

Definition variationOf (ds dl lmax : float) (c : Hsl) : Hsl :=
  {| h := h c; s := Math_max 30 (s c - ds)%float; l := Math_min lmax (l c + dl)%float |}.

Record AnchorRow := {
  a_strategy : Hsl -> Z -> list Hsl;
  a_offsets : list Z;
  a_ds : float;
  a_dl : float;
  a_lmax : float
}.

Definition anchorTable : list AnchorRow :=
  [ {| a_strategy := generateTriadic; a_offsets := [120; 240];
       a_ds := 15; a_dl := 15; a_lmax := 75 |};
    {| a_strategy := generateSplitComplementary; a_offsets := [150; 210];
       a_ds := 20; a_dl := 10; a_lmax := 80 |};
    {| a_strategy := generateTetradic; a_offsets := [60; 180; 240];
       a_ds := 15; a_dl := 12; a_lmax := 75 |};
    {| a_strategy := generateSquare; a_offsets := [90; 180; 270];
       a_ds := 20; a_dl := 15; a_lmax := 75 |};
    {| a_strategy := generateDoubleComplementary; a_offsets := [30; 180; 210];
       a_ds := 15; a_dl := 10; a_lmax := 80 |} ].

(** The colour at index [n] of such a palette. *)
Definition anchoredColour (row : AnchorRow) (baseHsl : Hsl) (n : nat) : Hsl :=
  let anchors := anchorsOf (map Z2F (a_offsets row)) baseHsl in
  let m := List.length anchors in
  if (n <? m)%nat then nth n anchors baseHsl
  else variationOf (a_ds row) (a_dl row) (a_lmax row) (nth (n mod m) anchors baseHsl).

(** The hue at index [n], for a base hue that is the integer [hz]. *)
Definition anchoredHue (row : AnchorRow) (hz : Z) (n : nat) : Z :=
  let m := S (List.length (a_offsets row)) in
  match (n mod m)%nat with
  | O => hz
  | S i => (hz + nth i (a_offsets row) 0) mod 360
  end.

(** The colour at index [n] of a complementary palette. *)
Definition complementaryColour (baseHsl : Hsl) (n : nat) : Hsl :=
  let complement := with_h baseHsl (normalizeHue (h baseHsl + 180)%float) in
  match n with
  | O => baseHsl
  | S O => complement
  | _ =>
      let variation := if (Z.of_nat n mod 2 =? 0) then baseHsl else complement in
      {| h := h variation;
         s := Math_max 20 (s variation - Z2F (Z.of_nat n * 10))%float;
         l := Math_min 80 (l variation + Z2F (Z.of_nat n * 8))%float |}
  end.

(** By how many degrees the analogous harmony turns the hue at index [n]:
    30, -30, 60, -60, 90, ... *)
Definition analogousTurn (n : Z) : Z :=
  30 * ((n + 1) / 2) * (if n mod 2 =? 1 then 1 else -1).

(** [Number.isInteger(x)] for a Number below 2^53 in magnitude: [x] is the
    Number of an integer, or [-0]. *)
Definition isInteger (x : float) : Prop :=
  x = neg_zero \/ exists k : Z, Z.abs k < 2 ^ 53 /\ x = Z2F k.

(** An integer Number between [lo] and [hi]; [-0] counts as 0. *)
Definition isIntegerIn (lo hi : Z) (x : float) : Prop :=
  (x = neg_zero /\ lo <= 0 <= hi) \/ exists k : Z, lo <= k <= hi /\ x = Z2F k.

(** An HSL triple of integers in range: hue 0..360, saturation and
    lightness 0..100. *)
Definition wholeHsl (c : Hsl) : Prop :=
  isIntegerIn 0 360 (h c) /\ isIntegerIn 0 100 (s c) /\ isIntegerIn 0 100 (l c).

(** The integer hues and percentages as Numbers, [-0] included, and what
    is checked of [hslToRgb] on each triple of them: the three channels lie
    between 0 and 255. *)
Definition hueValues : list float :=
  Eval vm_compute in neg_zero :: map (fun n => Z2F (Z.of_nat n)) (seq 0 361).

Definition pctValues : list float :=
  Eval vm_compute in neg_zero :: map (fun n => Z2F (Z.of_nat n)) (seq 0 101).

Definition channelsOk (h0 s0 l0 : float) : bool :=
  let c := hslToRgb h0 s0 l0 in
  ((0 <=? r c) && (r c <=? 255) && (0 <=? g c) && (g c <=? 255)
   && (0 <=? b c) && (b c <=? 255))%float.

(** The text is [#] followed by six hexadecimal digits. *)
Definition hexOk (t : string) : bool :=
  match t with
  | String c t' => (c =? "#")%char && sixHexDigits t'
  | EmptyString => false
  end.

(** The angle of the custom harmony is the default or an integer. *)
Definition integerAngle (angle : option float) : Prop :=
  angle = None \/ exists a : Z, Z.abs a < 2 ^ 40 /\ angle = Some (Z2F a).

(** [Math.random()] as the language defines it: every read is a Number from
    0 up to, but not including, 1. *)
Definition unitOracle (random : nat -> float) : Prop :=
  forall i : nat, (0 <=? random i)%float = true /\ (random i <? 1)%float = true.

(** [s.padStart(n, c)] for a pad [c] of one character: [k] copies of [c]
    before [s], where [k] is what [s] lacks of [n] characters. *)
Fixpoint padding (k : nat) (c : ascii) (s : string) : string :=
  match k with
  | O => s
  | S k' => String c (padding k' c s)
  end.

Definition padStart (n : nat) (c : ascii) (s : string) : string :=
  padding (n - String.length s) c s.

(** [randomHex()]:
    ['#' + Math.floor(Math.random() * 16777215).toString(16).padStart(6, '0')] *)
Definition randomHex (random : nat -> float) : Rand string :=
  u <- Math_random random ;;
  ret ("#" ++ padStart 6 "0" (Number_toString16 (Math_floor (u * 16777215)))).




(* ================================================================== *)
(** * Proofs *)
(* ================================================================== *)

(* ================================================================== *)
(** * Lengths: every strategy returns [count] colours *)
(* ================================================================== *)

Lemma len_app_one (cs : list Hsl) (c : Hsl) : len (cs ++ [c]) = len cs + 1.
Proof. unfold len. rewrite length_app. simpl. lia. Qed.

(** The loop stops because the array is long enough, not because the fuel
    ran out. *)
Lemma push_while_length (fuel : nat) (count : Z) (next : list Hsl -> Hsl) :
  forall cs : list Hsl,
    (Z.to_nat count <= fuel + List.length cs)%nat ->
    List.length (push_while fuel count next cs) = Nat.max (List.length cs) (Z.to_nat count).
Proof.
  induction fuel as [|fuel IH]; intros cs Hfuel; simpl.
  - lia.
  - destruct (len cs <? count) eqn:Hlt.
    + apply Z.ltb_lt in Hlt. unfold len in Hlt.
      rewrite IH; rewrite length_app; simpl; lia.
    + apply Z.ltb_ge in Hlt. unfold len in Hlt. lia.
Qed.

Lemma while_push_length (count : Z) (next : list Hsl -> Hsl) (cs : list Hsl) :
  List.length (while_push count next cs) = Nat.max (List.length cs) (Z.to_nat count).
Proof. unfold while_push. apply push_while_length. lia. Qed.

Lemma for_push_length (count : Z) (body : Z -> Hsl) (cs : list Hsl) :
  List.length (for_push count body cs) = (List.length cs + (Z.to_nat count - 1))%nat.
Proof. unfold for_push. now rewrite length_app, length_map, length_seq. Qed.

Lemma slice0_firstn (cs : list Hsl) (count : Z) :
  0 <= count -> slice0 cs count = firstn (Z.to_nat count) cs.
Proof.
  intros Hc. unfold slice0.
  replace (count <? 0) with false by (symmetry; apply Z.ltb_ge; lia). reflexivity.
Qed.

Lemma slice0_length (cs : list Hsl) (count : Z) :
  0 <= count ->
  List.length (slice0 cs count) = Nat.min (Z.to_nat count) (List.length cs).
Proof. intros Hc. rewrite slice0_firstn by exact Hc. apply length_firstn. Qed.

Lemma anchored_length offsets modulus ds dl lmax baseHsl count :
  0 <= count ->
  List.length (anchored offsets modulus ds dl lmax baseHsl count) = Z.to_nat count.
Proof.
  intros Hc. unfold anchored. rewrite slice0_length, while_push_length by exact Hc. lia.
Qed.

Lemma generateComplementary_length baseHsl count :
  0 <= count ->
  List.length (generateComplementary baseHsl count) = Z.to_nat count.
Proof.
  intros Hc. unfold generateComplementary. rewrite slice0_length, while_push_length by exact Hc. lia.
Qed.

Lemma generateAnalogous_length baseHsl count :
  0 <= count ->
  List.length (generateAnalogous baseHsl count) = Z.to_nat count.
Proof.
  intros Hc. unfold generateAnalogous. rewrite slice0_length, for_push_length by exact Hc. simpl. lia.
Qed.

Lemma generateMonochromatic_length baseHsl count :
  0 <= count ->
  List.length (generateMonochromatic baseHsl count) = Z.to_nat count.
Proof.
  intros Hc. unfold generateMonochromatic. rewrite slice0_length, for_push_length by exact Hc. simpl. lia.
Qed.

Lemma generateCustom_length baseHsl count angle :
  0 <= count ->
  List.length (generateCustom baseHsl count angle) = Z.to_nat count.
Proof.
  intros Hc. unfold generateCustom. rewrite slice0_length, for_push_length by exact Hc. simpl. lia.
Qed.

Lemma push_random_spec random (k : nat) :
  forall (cs : list Hsl) (n : nat),
    List.length (fst (push_random random k cs n)) = (List.length cs + k)%nat
    /\ snd (push_random random k cs n) = (n + 3 * k)%nat.
Proof.
  induction k as [|k IH]; intros cs n; simpl.
  - split; lia.
  - unfold bind at 1. unfold randomHsl, bind, Math_random, ret. simpl.
    destruct (IH (cs ++ [ {| h := Math_floor (random n * 360)%float;
                             s := (Math_floor (random (S n) * 40) + 50)%float;
                             l := (Math_floor (random (S (S n)) * 30) + 35)%float |} ])%list
                 (S (S (S n)))) as [Hl Hn].
    rewrite Hl, Hn, length_app. simpl. split; lia.
Qed.

Lemma generateRandom_length random baseHsl count n :
  1 <= count ->
  List.length (fst (generateRandom random baseHsl count n)) = Z.to_nat count.
Proof.
  intros Hc. unfold generateRandom.
  destruct (push_random_spec random (Z.to_nat count - 1) [baseHsl] n) as [Hl _].
  rewrite Hl. simpl. lia.
Qed.

Lemma toColors_length (cs : list Hsl) : forall i, List.length (toColors i cs) = List.length cs.
Proof. induction cs as [|c cs IH]; intros i; simpl; [reflexivity | now rewrite IH]. Qed.

Lemma toColors_hsl (cs : list Hsl) : forall i, map hsl (toColors i cs) = cs.
Proof. induction cs as [|c cs IH]; intros i; simpl; [reflexivity | now rewrite IH]. Qed.

Lemma colorCount_range (c : count_arg) : 2 <= colorCount c <= 6.
Proof. unfold colorCount. lia. Qed.

Lemma dispatch_length random name baseHsl cc angle n :
  1 <= cc ->
  List.length (fst (dispatch random name baseHsl cc angle n)) = Z.to_nat cc.
Proof.
  intros Hcc. assert (H0 : 0 <= cc) by lia. unfold dispatch.
  destruct (name =? "complementary")%string; [now apply generateComplementary_length|].
  destruct (name =? "analogous")%string; [now apply generateAnalogous_length|].
  destruct (name =? "triadic")%string; [now apply anchored_length|].
  destruct (name =? "split-complementary")%string; [now apply anchored_length|].
  destruct (name =? "tetradic")%string; [now apply anchored_length|].
  destruct (name =? "monochromatic")%string; [now apply generateMonochromatic_length|].
  destruct (name =? "square")%string; [now apply anchored_length|].
  destruct (name =? "double-complementary")%string; [now apply anchored_length|].
  destruct (name =? "custom")%string; [now apply generateCustom_length|].
  now apply generateRandom_length.
Qed.

Lemma generatePalette_unfold random opts n :
  forall baseHsl n1 cs n2,
    baseHslOf random opts n = (baseHsl, n1) ->
    dispatch random (toLowerCase (match o_harmony opts with Some x => x | None => "random" end))
      baseHsl (colorCount (o_count opts))
      (match o_angle opts with Some a => a | None => 45%float end) n1 = (cs, n2) ->
    generatePalette random opts n =
      (match toColors 0 cs with
       | first :: _ =>
           Some {| harmony := toLowerCase (match o_harmony opts with Some x => x | None => "random" end);
                   count := colorCount (o_count opts);
                   baseColor := hex first;
                   colors := toColors 0 cs |}
       | [] => None
       end, n2).
Proof.
  intros baseHsl n1 cs n2 Hb Hd. unfold generatePalette, bind.
  unfold baseHslOf in Hb. rewrite Hb, Hd. reflexivity.
Qed.

Lemma generatePalette_returns random opts n :
  exists p n',
    generatePalette random opts n = (Some p, n')
    /\ harmony p = toLowerCase (match o_harmony opts with Some x => x | None => "random" end)
    /\ count p = colorCount (o_count opts)
    /\ Z.of_nat (List.length (colors p)) = count p.
Proof.
  destruct (baseHslOf random opts n) as [baseHsl n1] eqn:Hb.
  destruct (dispatch random
              (toLowerCase (match o_harmony opts with Some x => x | None => "random" end))
              baseHsl (colorCount (o_count opts))
              (match o_angle opts with Some a => a | None => 45%float end) n1)
    as [cs n2] eqn:Hd.
  rewrite (generatePalette_unfold _ _ _ _ _ _ _ Hb Hd).
  pose proof (colorCount_range (o_count opts)) as Hr.
  assert (Hlen : List.length cs = Z.to_nat (colorCount (o_count opts))).
  { replace cs with (fst (dispatch random
              (toLowerCase (match o_harmony opts with Some x => x | None => "random" end))
              baseHsl (colorCount (o_count opts))
              (match o_angle opts with Some a => a | None => 45%float end) n1))
      by now rewrite Hd.
    apply dispatch_length. lia. }
  destruct (toColors 0 cs) as [|first rest] eqn:Hc.
  - apply (f_equal (@List.length Color)) in Hc. rewrite toColors_length, Hlen in Hc.
    simpl in Hc. lia.
  - eexists _, n2. split; [reflexivity|]. cbn [harmony count colors].
    split; [reflexivity|]. split; [reflexivity|].
    rewrite <- Hc, toColors_length, Hlen. lia.
Qed.

(* ================================================================== *)
(** * The harmony field and the fallback *)
(* ================================================================== *)

Lemma dispatch_unrecognized random name baseHsl cc angle :
  existsb (String.eqb name) HARMONY_TYPES = false ->
  dispatch random name baseHsl cc angle = generateRandom random baseHsl cc.
Proof.
  intros H. unfold dispatch. simpl in H.
  repeat match goal with
         | |- context [(name =? ?lit)%string] =>
             destruct (name =? lit)%string; [ simpl in H; try discriminate; 
               repeat rewrite orb_true_r in H; discriminate |]
         end.
  reflexivity.
Qed.

Lemma dispatch_random random baseHsl cc angle :
  dispatch random "random" baseHsl cc angle = generateRandom random baseHsl cc.
Proof. reflexivity. Qed.

(** C1 (as the code has it).  For every configuration whose harmony
    string is, once lower-cased, none of the ten identifiers,
    [generatePalette] takes the random strategy: it returns the palette that
    the harmony ["random"] returns for the same configuration, oracle and
    counter, except that the [harmony] field is the lower-cased input and
    not ["random"]. *)
Theorem unknown_harmony_uses_random_strategy :
  forall (random : nat -> float) (opts : options) (n : nat) (name : string),
    o_harmony opts = Some name ->
    recognized name = false ->
    exists p n',
      generatePalette random (set_harmony opts (Some "random")) n = (Some p, n')
      /\ harmony p = "random"
      /\ generatePalette random opts n = (Some (with_harmony p (toLowerCase name)), n').
Proof.
  intros random opts n name Hname Hun.
  destruct (baseHslOf random opts n) as [baseHsl n1] eqn:Hb.
  destruct (generateRandom random baseHsl (colorCount (o_count opts)) n1) as [cs n2] eqn:Hg.
  assert (Hd1 : dispatch random (toLowerCase name) baseHsl (colorCount (o_count opts))
                  (match o_angle opts with Some a => a | None => 45%float end) n1 = (cs, n2)).
  { rewrite dispatch_unrecognized by exact Hun. exact Hg. }
  assert (Hd2 : dispatch random (toLowerCase "random") baseHsl (colorCount (o_count opts))
                  (match o_angle opts with Some a => a | None => 45%float end) n1 = (cs, n2)).
  { exact Hg. }
  pose proof (generatePalette_unfold random opts n baseHsl n1 cs n2 Hb) as U1.
  rewrite Hname in U1. specialize (U1 Hd1).
  pose proof (generatePalette_unfold random (set_harmony opts (Some "random")) n baseHsl n1 cs n2 Hb) as U2.
  cbn [set_harmony o_harmony o_count o_angle] in U2. specialize (U2 Hd2).
  destruct (generatePalette_returns random opts n) as (p0 & n0 & Hp0 & _).
  destruct (toColors 0 cs) as [|first rest] eqn:Hc.
  - rewrite U1 in Hp0. discriminate.
  - eexists _, n2. split; [exact U2|]. split; [reflexivity|]. exact U1.
Qed.

Lemma unknown_harmony_uses_random_strategy_witness :
  exists p n',
    generatePalette half (set_harmony (mkOptions (Some "nonsense") CountMissing None None) (Some "random")) 0%nat
      = (Some p, n')
    /\ harmony p = "random"
    /\ generatePalette half (mkOptions (Some "nonsense") CountMissing None None) 0%nat
       = (Some (with_harmony p (toLowerCase "nonsense")), n').
Proof.
  apply (unknown_harmony_uses_random_strategy half
           (mkOptions (Some "nonsense") CountMissing None None) 0%nat "nonsense");
    reflexivity.
Defined.

(** C1 as stated fails: the palette for the harmony ["nonsense"] carries
    ["nonsense"], not ["random"], in its [harmony] field. *)
Lemma unknown_harmony_field_is_not_random :
  exists p n',
    generatePalette half (mkOptions (Some "nonsense") CountMissing None None) 0%nat = (Some p, n')
    /\ harmony p = "nonsense"
    /\ harmony p <> "random".
Proof.
  eexists _, _. split; [vm_compute; reflexivity|].
  split; [reflexivity | discriminate].
Qed.

(* ================================================================== *)
(** * The count *)
(* ================================================================== *)

Lemma roundToNumber_safe (z : Z) : Z.abs z < 2 ^ 53 -> roundToNumber z = Some z.
Proof.
  intros Hz. unfold roundToNumber.
  replace (Z.log2 (Z.abs z) + 1 <=? 53) with true; [reflexivity|].
  symmetry. apply Z.leb_le.
  destruct (Z.eq_dec (Z.abs z) 0) as [->|Hnz]; [simpl; lia|].
  assert (Z.log2 (Z.abs z) < 53); [|lia].
  apply Z.log2_lt_pow2; lia.
Qed.

Lemma colorCount_plain (z : Z) :
  roundToNumber z = Some z -> Z.abs z < 10 ^ 21 ->
  colorCount (CountNumber z) = if z =? 0 then 5 else Z.max 2 (Z.min 6 z).
Proof.
  intros Hr Hz. unfold colorCount, parseInt_count. rewrite Hr.
  replace (Z.abs z <? 10 ^ 21) with true by (symmetry; apply Z.ltb_lt; exact Hz).
  destruct (z =? 0); reflexivity.
Qed.

(** C4 (as the code has it).  For every count input [generatePalette]
    returns a palette whose [colors] has as many elements as its [count]
    field says, between 2 and 6.  The field is the input clamped into [2,6]
    when the input is an integer Number other than 0 and below 10^21 in
    magnitude (1 gives 2, 7 gives 6; every integer below 2^53 in magnitude
    is such a Number), and 5 when the input is 0, NaN, missing, or a string
    without a leading integer; a string with a leading integer counts as
    that integer.  An integer Number from 10^21 on is read through its
    text, which has an exponent: 10^21 prints as [1e+21] and counts as 1,
    so the palette has 2 colours, not 6. *)
Theorem palette_length_is_count :
  forall (random : nat -> float) (opts : options) (n : nat),
    (exists p n',
        generatePalette random opts n = (Some p, n')
        /\ count p = colorCount (o_count opts)
        /\ Z.of_nat (List.length (colors p)) = count p
        /\ 2 <= count p <= 6)
    /\ (forall z : Z,
          roundToNumber z = Some z -> Z.abs z < 10 ^ 21 ->
          colorCount (CountNumber z) = if z =? 0 then 5 else Z.max 2 (Z.min 6 z))
    /\ (forall z : Z,
          Z.abs z < 2 ^ 53 ->
          colorCount (CountNumber z) = if z =? 0 then 5 else Z.max 2 (Z.min 6 z))
    /\ (forall z : Z,
          roundToNumber z = Some z -> 10 ^ 21 <= Z.abs z ->
          colorCount (CountNumber z) = colorCount (CountString (exponentText z)))
    /\ (forall s : string,
          colorCount (CountString s) =
            match parseInt s RadixAbsent with
            | Some z => if z =? 0 then 5 else Z.max 2 (Z.min 6 z)
            | None => 5
            end)
    /\ colorCount CountMissing = 5
    /\ colorCount CountNaN = 5
    /\ colorCount (CountNumber 1) = 2
    /\ colorCount (CountNumber 7) = 6
    /\ colorCount (CountString "abc") = 5
    /\ exponentText (10 ^ 21) = "1e+21"
    /\ colorCount (CountNumber (10 ^ 21)) = 2.
Proof.
  intros random opts n. split.
  - destruct (generatePalette_returns random opts n) as (p & n' & Hp & _ & Hc & Hl).
    exists p, n'. repeat split; try assumption;
      rewrite Hc; apply colorCount_range.
  - split; [exact colorCount_plain|]. split; [|split; [|split; [|repeat split]]].
    + intros z Hz. apply colorCount_plain; [now apply roundToNumber_safe|].
      assert (2 ^ 53 < 10 ^ 21) by reflexivity. lia.
    + intros z Hr Hz. unfold colorCount, parseInt_count. rewrite Hr.
      replace (Z.abs z <? 10 ^ 21) with false by (symmetry; apply Z.ltb_ge; exact Hz).
      reflexivity.
    + intros s. unfold colorCount. simpl. destruct (parseInt s RadixAbsent) as [z|]; [|reflexivity].
      destruct (z =? 0); reflexivity.
Qed.

Lemma palette_length_is_count_witness :
  colorCount (CountNumber 7) = (if 7 =? 0 then 5 else Z.max 2 (Z.min 6 7))
  /\ colorCount (CountNumber (10 ^ 21)) = colorCount (CountString (exponentText (10 ^ 21))).
Proof.
  pose proof (palette_length_is_count half (mkOptions None CountMissing None None) 0%nat)
    as (_ & Hplain & _ & Hlarge & _).
  split.
  - apply Hplain; [reflexivity|]. vm_compute. reflexivity.
  - apply Hlarge; [reflexivity|]. vm_compute. discriminate.
Defined.

(** C4 as stated fails at 0: [parseInt(0) || 5] is 5, so the palette has
    five colours, not two. *)
Lemma count_zero_is_not_clamped :
  exists p n',
    generatePalette half (mkOptions None (CountNumber 0) None None) 0%nat = (Some p, n')
    /\ count p = 5
    /\ List.length (colors p) = 5%nat
    /\ count p <> 2.
Proof.
  eexists _, _. split; [vm_compute; reflexivity|].
  repeat split. discriminate.
Qed.

(* ================================================================== *)
(** * Determinism of the nine anchor strategies *)
(* ================================================================== *)

Lemma dispatch_anchor random1 random2 name baseHsl cc angle n1 n2 :
  existsb (String.eqb name) HARMONY_TYPES && negb (name =? "random")%string = true ->
  fst (dispatch random1 name baseHsl cc angle n1) = fst (dispatch random2 name baseHsl cc angle n2)
  /\ snd (dispatch random1 name baseHsl cc angle n1) = n1.
Proof.
  intros H. unfold dispatch.
  repeat match goal with
         | |- context [(name =? ?lit)%string] =>
             destruct (name =? lit)%string eqn:?; [ split; reflexivity |]
         end.
  exfalso. simpl in H.
  repeat match goal with
         | E : (name =? _)%string = false |- _ => rewrite E in H; clear E
         end.
  destruct (name =? "random")%string; discriminate.
Qed.

(** C8.  For every harmony among the nine strategies other than
    [random] (in any letter case), every base colour that is given (a
    non-empty string), every count and every angle, the palette does not
    depend on the random oracle or on how far it has been read, and the call
    reads nothing from it: two calls with the same configuration return the
    same palette. *)
Theorem anchor_strategies_are_deterministic :
  forall (random1 random2 : nat -> float) (n1 n2 : nat)
         (opts : options) (name color : string),
    o_harmony opts = Some name ->
    anchorStrategy name = true ->
    truthy (o_baseColor opts) = Some color ->
    fst (generatePalette random1 opts n1) = fst (generatePalette random2 opts n2)
    /\ snd (generatePalette random1 opts n1) = n1
    /\ snd (generatePalette random2 opts n2) = n2.
Proof.
  intros random1 random2 n1 n2 opts name color Hname Hanchor Hcolor.
  set (angle := match o_angle opts with Some a => a | None => 45%float end).
  set (cc := colorCount (o_count opts)).
  assert (Hb : forall random n, baseHslOf random opts n = (hexToHsl color, n)).
  { intros random n. unfold baseHslOf. now rewrite Hcolor. }
  destruct (dispatch_anchor random1 random2 (toLowerCase name) (hexToHsl color) cc angle n1 n2
              Hanchor) as [Hf H1].
  destruct (dispatch_anchor random2 random1 (toLowerCase name) (hexToHsl color) cc angle n2 n1
              Hanchor) as [_ H2].
  destruct (dispatch random1 (toLowerCase name) (hexToHsl color) cc angle n1)
    as [cs1 m1] eqn:Hd1.
  destruct (dispatch random2 (toLowerCase name) (hexToHsl color) cc angle n2)
    as [cs2 m2] eqn:Hd2.
  simpl in Hf, H1, H2. subst cs2 m1 m2.
  pose proof (generatePalette_unfold random1 opts n1 _ _ cs1 n1 (Hb random1 n1)) as U1.
  pose proof (generatePalette_unfold random2 opts n2 _ _ cs1 n2 (Hb random2 n2)) as U2.
  rewrite Hname in U1, U2. rewrite (U1 Hd1), (U2 Hd2). repeat split.
Qed.

Lemma anchor_strategies_are_deterministic_witness :
  fst (generatePalette half (mkOptions (Some "triadic") (CountNumber 4) (Some "#3498db") None) 0%nat)
  = fst (generatePalette (fun _ => 0.25%float)
           (mkOptions (Some "triadic") (CountNumber 4) (Some "#3498db") None) 7%nat)
  /\ snd (generatePalette half (mkOptions (Some "triadic") (CountNumber 4) (Some "#3498db") None) 0%nat)
     = 0%nat
  /\ snd (generatePalette (fun _ => 0.25%float)
            (mkOptions (Some "triadic") (CountNumber 4) (Some "#3498db") None) 7%nat) = 7%nat.
Proof.
  apply (anchor_strategies_are_deterministic half (fun _ => 0.25%float) 0%nat 7%nat
           (mkOptions (Some "triadic") (CountNumber 4) (Some "#3498db") None)
           "triadic" "#3498db"); reflexivity.
Defined.

(* ================================================================== *)
(** * The base colour #3498db *)
(* ================================================================== *)

(** C3.  The call [generatePalette({baseColor: "#3498db", harmony:
    "triadic"})] returns as first colour the role ["primary"] and the HSL
    triple (204, 70, 53), whose hex form is ["#3398db"]: the red channel 52
    comes back as 51, so the base colour is not returned unchanged. *)
Theorem base_3498db_comes_back_as_3398db :
  forall (random : nat -> float) (n : nat),
    exists p first rest,
      generatePalette random (mkOptions (Some "triadic") CountMissing (Some "#3498db") None) n
        = (Some p, n)
      /\ colors p = first :: rest
      /\ role first = "primary"
      /\ hsl first = {| h := 204; s := 70; l := 53 |}
      /\ hex first = "#3398db"
      /\ hex first <> "#3498db"
      /\ baseColor p = "#3398db".
Proof.
  intros random n. eexists _, _, _.
  split; [vm_compute; reflexivity|].
  split; [reflexivity|]. repeat split. discriminate.
Qed.

(* ================================================================== *)
(** * Characters, by inspection of the 256 code units *)
(* ================================================================== *)

Lemma all_ascii_complete (f : ascii -> bool) :
  forallb f all_ascii = true -> forall c, f c = true.
Proof.
  intros H c. rewrite forallb_forall in H. apply H.
  unfold all_ascii. rewrite <- (ascii_nat_embedding c).
  apply in_map, in_seq. pose proof (nat_ascii_bounded c). lia.
Qed.

Lemma hexDigit_facts (c : ascii) :
  isHexDigit c = true ->
  isWhiteSpace c = false
  /\ (c =? "-")%char = false /\ (c =? "+")%char = false
  /\ (c =? "x")%char = false /\ (c =? "X")%char = false
  /\ (c =? "#")%char = false
  /\ digitValue c = Some (hexValue c)
  /\ 0 <= hexValue c < 16
  /\ hexDigit (hexValue c) = lowerChar c.
Proof.
  pose (f := fun c =>
    implb (isHexDigit c)
      (negb (isWhiteSpace c) && negb (c =? "-")%char && negb (c =? "+")%char
       && negb (c =? "x")%char && negb (c =? "X")%char && negb (c =? "#")%char
       && (match digitValue c with Some d => d =? hexValue c | None => false end)
       && (0 <=? hexValue c) && (hexValue c <? 16)
       && (hexDigit (hexValue c) =? lowerChar c)%char)).
  assert (Hall : forall c, f c = true) by (apply all_ascii_complete; vm_compute; reflexivity).
  intros Hc. specialize (Hall c). unfold f in Hall. rewrite Hc in Hall. simpl in Hall.
  repeat (apply andb_prop in Hall; destruct Hall as [Hall ?]).
  repeat match goal with
         | H : negb _ = true |- _ => apply negb_true_iff in H
         end.
  repeat split; try assumption; try lia.
  - destruct (digitValue c) as [d|]; [|discriminate].
    f_equal. now apply Z.eqb_eq.
  - now apply Ascii.eqb_eq.
Qed.

(* ================================================================== *)
(** * Reading six hexadecimal digits *)
(* ================================================================== *)

Lemma sixHexDigits_inv (s : string) :
  sixHexDigits s = true ->
  exists c1 c2 c3 c4 c5 c6,
    s = String c1 (String c2 (String c3 (String c4 (String c5 (String c6 EmptyString))))) /\
    isHexDigit c1 = true /\ isHexDigit c2 = true /\ isHexDigit c3 = true /\
    isHexDigit c4 = true /\ isHexDigit c5 = true /\ isHexDigit c6 = true.
Proof.
  unfold sixHexDigits. intros H. apply andb_prop in H. destruct H as [Hlen Hall].
  apply Nat.eqb_eq in Hlen.
  destruct s as [|c1 [|c2 [|c3 [|c4 [|c5 [|c6 [|c7 s]]]]]]]; try discriminate.
  simpl in Hall.
  repeat (apply andb_prop in Hall; destruct Hall as [? Hall]).
  exists c1, c2, c3, c4, c5, c6. repeat split; assumption.
Qed.

Lemma parseInt_six (c1 c2 c3 c4 c5 c6 : ascii) :
  isHexDigit c1 = true -> isHexDigit c2 = true -> isHexDigit c3 = true ->
  isHexDigit c4 = true -> isHexDigit c5 = true -> isHexDigit c6 = true ->
  parseInt (String c1 (String c2 (String c3 (String c4 (String c5 (String c6 EmptyString)))))) Radix16
  = Some (hexNumber c1 c2 c3 c4 c5 c6).
Proof.
  intros H1 H2 H3 H4 H5 H6.
  destruct (hexDigit_facts c1 H1) as (W1 & M1 & P1 & _ & _ & _ & D1 & B1 & _).
  destruct (hexDigit_facts c2 H2) as (_ & _ & _ & X2 & X2' & _ & D2 & B2 & _).
  destruct (hexDigit_facts c3 H3) as (_ & _ & _ & _ & _ & _ & D3 & B3 & _).
  destruct (hexDigit_facts c4 H4) as (_ & _ & _ & _ & _ & _ & D4 & B4 & _).
  destruct (hexDigit_facts c5 H5) as (_ & _ & _ & _ & _ & _ & D5 & B5 & _).
  destruct (hexDigit_facts c6 H6) as (_ & _ & _ & _ & _ & _ & D6 & B6 & _).
  unfold parseInt. cbn [trimStart]. rewrite W1.
  cbn [stripSign]. rewrite M1, P1.
  cbn [stripHexPrefix]. rewrite X2, X2'. rewrite andb_false_r.
  cbn [parseDigits]. rewrite D1, D2, D3, D4, D5, D6.
  replace (hexValue c1 <? 16) with true by (symmetry; apply Z.ltb_lt; lia).
  replace (hexValue c2 <? 16) with true by (symmetry; apply Z.ltb_lt; lia).
  replace (hexValue c3 <? 16) with true by (symmetry; apply Z.ltb_lt; lia).
  replace (hexValue c4 <? 16) with true by (symmetry; apply Z.ltb_lt; lia).
  replace (hexValue c5 <? 16) with true by (symmetry; apply Z.ltb_lt; lia).
  replace (hexValue c6 <? 16) with true by (symmetry; apply Z.ltb_lt; lia).
  f_equal. unfold hexNumber, hexPair. lia.
Qed.

Lemma ToInt32_small (v : Z) : 0 <= v < 2 ^ 24 -> ToInt32 (Some v) = v.
Proof.
  intros Hv. unfold ToInt32, roundToNumber.
  assert (Hbits : Z.log2 (Z.abs v) + 1 <= 53).
  { rewrite Z.abs_eq by lia.
    destruct (Z.eq_dec v 0) as [->|Hnz]; [simpl; lia|].
    assert (Z.log2 v < 24) by (apply Z.log2_lt_pow2; lia). lia. }
  apply Z.leb_le in Hbits. rewrite Hbits.
  rewrite Z.mod_small by lia.
  replace (2 ^ 31 <=? v) with false; [reflexivity|].
  symmetry. apply Z.leb_gt. lia.
Qed.

Lemma channels_of_hexNumber (c1 c2 c3 c4 c5 c6 : ascii) :
  isHexDigit c1 = true -> isHexDigit c2 = true -> isHexDigit c3 = true ->
  isHexDigit c4 = true -> isHexDigit c5 = true -> isHexDigit c6 = true ->
  let v := hexNumber c1 c2 c3 c4 c5 c6 in
  ToInt32 (Some v) = v
  /\ band (sar v 16) 255 = hexPair c1 c2
  /\ band (sar v 8) 255 = hexPair c3 c4
  /\ band v 255 = hexPair c5 c6.
Proof.
  intros H1 H2 H3 H4 H5 H6 v.
  destruct (hexDigit_facts c1 H1) as (_ & _ & _ & _ & _ & _ & _ & B1 & _).
  destruct (hexDigit_facts c2 H2) as (_ & _ & _ & _ & _ & _ & _ & B2 & _).
  destruct (hexDigit_facts c3 H3) as (_ & _ & _ & _ & _ & _ & _ & B3 & _).
  destruct (hexDigit_facts c4 H4) as (_ & _ & _ & _ & _ & _ & _ & B4 & _).
  destruct (hexDigit_facts c5 H5) as (_ & _ & _ & _ & _ & _ & _ & B5 & _).
  destruct (hexDigit_facts c6 H6) as (_ & _ & _ & _ & _ & _ & _ & B6 & _).
  assert (P1 : 0 <= hexPair c1 c2 < 256) by (unfold hexPair; lia).
  assert (P2 : 0 <= hexPair c3 c4 < 256) by (unfold hexPair; lia).
  assert (P3 : 0 <= hexPair c5 c6 < 256) by (unfold hexPair; lia).
  unfold band, sar. change 255 with (Z.ones 8).
  rewrite !Z.land_ones, !Z.shiftr_div_pow2 by lia.
  subst v. unfold hexNumber.
  change (2 ^ 16) with 65536. change (2 ^ 8) with 256.
  repeat split.
  - apply ToInt32_small. change (2 ^ 24) with 16777216. lia.
  - rewrite Z.mod_small; [|split; [apply Z.div_pos; lia | apply Z.div_lt_upper_bound; lia]].
    symmetry. apply Z.div_unique with (r := hexPair c3 c4 * 256 + hexPair c5 c6); lia.
  - assert (E : (hexPair c1 c2 * 65536 + hexPair c3 c4 * 256 + hexPair c5 c6) / 256
                = hexPair c1 c2 * 256 + hexPair c3 c4).
    { symmetry. apply Z.div_unique with (r := hexPair c5 c6); lia. }
    rewrite E. symmetry. apply Z.mod_unique with (q := hexPair c1 c2); lia.
  - symmetry.
    apply Z.mod_unique with (q := hexPair c1 c2 * 256 + hexPair c3 c4); lia.
Qed.

Lemma hexToRgb_six (c1 c2 c3 c4 c5 c6 : ascii) :
  isHexDigit c1 = true -> isHexDigit c2 = true -> isHexDigit c3 = true ->
  isHexDigit c4 = true -> isHexDigit c5 = true -> isHexDigit c6 = true ->
  let s := String c1 (String c2 (String c3 (String c4 (String c5 (String c6 EmptyString))))) in
  let c := {| r := Z2F (hexPair c1 c2); g := Z2F (hexPair c3 c4); b := Z2F (hexPair c5 c6) |} in
  hexToRgb s = c /\ hexToRgb (String "#" s) = c.
Proof.
  intros H1 H2 H3 H4 H5 H6 s c.
  destruct (hexDigit_facts c1 H1) as (_ & _ & _ & _ & _ & N1 & _).
  destruct (channels_of_hexNumber c1 c2 c3 c4 c5 c6 H1 H2 H3 H4 H5 H6) as (T & R & G & B).
  assert (E : forall t, stripHash t = s -> hexToRgb t = c).
  { intros t Ht. unfold hexToRgb. rewrite Ht. subst s.
    rewrite parseInt_six by assumption. rewrite T, R, G, B. reflexivity. }
  split; apply E.
  - subst s. cbn [stripHash]. now rewrite N1.
  - reflexivity.
Qed.

(* ================================================================== *)
(** * Writing a channel as two hexadecimal digits *)
(* ================================================================== *)

Lemma nibbles_complete (d : Z) : 0 <= d < 16 -> In d nibbles.
Proof.
  intros Hd. unfold nibbles. rewrite <- (Z2Nat.id d) by lia.
  apply in_map, in_seq. lia.
Qed.

Lemma toHex_byte (a b : Z) :
  0 <= a < 16 -> 0 <= b < 16 ->
  toHex (Z2F (16 * a + b)) = String (hexDigit a) (String (hexDigit b) EmptyString).
Proof.
  intros Ha Hb.
  assert (Hall : forallb (fun a => forallb (fun b =>
             (toHex (Z2F (16 * a + b)) =? String (hexDigit a) (String (hexDigit b) EmptyString))%string)
             nibbles) nibbles = true) by (vm_compute; reflexivity).
  rewrite forallb_forall in Hall. specialize (Hall a (nibbles_complete a Ha)).
  rewrite forallb_forall in Hall. specialize (Hall b (nibbles_complete b Hb)).
  now apply String.eqb_eq.
Qed.

(** C6.  For every string of six hexadecimal digits, in any letter case,
    with or without a leading [#], [rgbToHex] of the channels of [hexToRgb]
    is [#] followed by the lower-cased digits. *)
Theorem hex_round_trip :
  forall s : string,
    sixHexDigits s = true ->
    rgbToHex (r (hexToRgb s)) (g (hexToRgb s)) (b (hexToRgb s)) = "#" ++ toLowerCase s
    /\ rgbToHex (r (hexToRgb ("#" ++ s))) (g (hexToRgb ("#" ++ s))) (b (hexToRgb ("#" ++ s)))
       = "#" ++ toLowerCase s.
Proof.
  intros s Hs.
  destruct (sixHexDigits_inv s Hs) as (c1 & c2 & c3 & c4 & c5 & c6 & -> & H1 & H2 & H3 & H4 & H5 & H6).
  destruct (hexToRgb_six c1 c2 c3 c4 c5 c6 H1 H2 H3 H4 H5 H6) as [E1 E2].
  change ("#" ++ String c1 (String c2 (String c3 (String c4 (String c5 (String c6 EmptyString))))))
    with (String "#" (String c1 (String c2 (String c3 (String c4 (String c5 (String c6 EmptyString))))))).
  rewrite E1, E2. cbn [r g b].
  destruct (hexDigit_facts c1 H1) as (_ & _ & _ & _ & _ & _ & _ & B1 & L1).
  destruct (hexDigit_facts c2 H2) as (_ & _ & _ & _ & _ & _ & _ & B2 & L2).
  destruct (hexDigit_facts c3 H3) as (_ & _ & _ & _ & _ & _ & _ & B3 & L3).
  destruct (hexDigit_facts c4 H4) as (_ & _ & _ & _ & _ & _ & _ & B4 & L4).
  destruct (hexDigit_facts c5 H5) as (_ & _ & _ & _ & _ & _ & _ & B5 & L5).
  destruct (hexDigit_facts c6 H6) as (_ & _ & _ & _ & _ & _ & _ & B6 & L6).
  unfold rgbToHex, hexPair. rewrite !toHex_byte by assumption.
  rewrite L1, L2, L3, L4, L5, L6. split; reflexivity.
Qed.

Lemma hex_round_trip_witness :
  rgbToHex (r (hexToRgb "3498DB")) (g (hexToRgb "3498DB")) (b (hexToRgb "3498DB"))
    = "#" ++ toLowerCase "3498DB"
  /\ rgbToHex (r (hexToRgb ("#" ++ "3498DB"))) (g (hexToRgb ("#" ++ "3498DB")))
       (b (hexToRgb ("#" ++ "3498DB")))
     = "#" ++ toLowerCase "3498DB".
Proof. apply (hex_round_trip "3498DB"). reflexivity. Defined.

(* ================================================================== *)
(** * The contrast colour *)
(* ================================================================== *)

(** C9.  For every string of six hexadecimal digits, with or without a
    leading [#], [getContrastColor] returns ["#000000"] exactly when the
    luminance (0.299 R + 0.587 G + 0.114 B) / 255 of its channels, computed
    on Numbers, exceeds 0.5, and ["#ffffff"] otherwise; black gives
    ["#ffffff"] and white gives ["#000000"]. *)
Theorem contrast_color_follows_luminance :
  forall s : string,
    sixHexDigits s = true ->
    let '(R, G, B) := channelsOf s in
    let answer :=
      if (0.5 <? luminance (Z2F R) (Z2F G) (Z2F B))%float then "#000000" else "#ffffff" in
    getContrastColor s = answer
    /\ getContrastColor ("#" ++ s) = answer
    /\ getContrastColor "#000000" = "#ffffff"
    /\ getContrastColor "#ffffff" = "#000000".
Proof.
  intros s Hs.
  destruct (sixHexDigits_inv s Hs) as (c1 & c2 & c3 & c4 & c5 & c6 & -> & H1 & H2 & H3 & H4 & H5 & H6).
  destruct (hexToRgb_six c1 c2 c3 c4 c5 c6 H1 H2 H3 H4 H5 H6) as [E1 E2].
  cbn [channelsOf].
  change ("#" ++ String c1 (String c2 (String c3 (String c4 (String c5 (String c6 EmptyString))))))
    with (String "#" (String c1 (String c2 (String c3 (String c4 (String c5 (String c6 EmptyString))))))).
  unfold getContrastColor. rewrite E1, E2. cbn [r g b]. unfold luminance.
  repeat split; vm_compute; reflexivity.
Qed.

Lemma contrast_color_follows_luminance_witness :
  let '(R, G, B) := channelsOf "da3af8" in
  let answer :=
    if (0.5 <? luminance (Z2F R) (Z2F G) (Z2F B))%float then "#000000" else "#ffffff" in
  getContrastColor "da3af8" = answer
  /\ getContrastColor ("#" ++ "da3af8") = answer
  /\ getContrastColor "#000000" = "#ffffff"
  /\ getContrastColor "#ffffff" = "#000000".
Proof. apply (contrast_color_follows_luminance "da3af8"). reflexivity. Defined.

(* ================================================================== *)
(** * Any string at all *)
(* ================================================================== *)

Lemma band_255_range (a : Z) : 0 <= band a 255 <= 255.
Proof.
  unfold band. change 255 with (Z.ones 8) at 1 2. rewrite Z.land_ones by lia.
  pose proof (Z.mod_pos_bound a (2 ^ 8) ltac:(lia)). change (2 ^ 8) with 256 in *. lia.
Qed.

Lemma hexToRgb_bytes (s : string) :
  exists R G B : Z,
    hexToRgb s = {| r := Z2F R; g := Z2F G; b := Z2F B |}
    /\ 0 <= R <= 255 /\ 0 <= G <= 255 /\ 0 <= B <= 255.
Proof.
  unfold hexToRgb. eexists _, _, _. split; [reflexivity|].
  repeat split; apply band_255_range.
Qed.

(* ================================================================== *)
(** * Integers as Numbers: binary64 arithmetic is exact on them *)
(* ================================================================== *)

Lemma Pos_iter_xO_Z (m p : positive) : Zpos (Pos.iter xO m p) = Zpos m * 2 ^ Zpos p.
Proof.
  revert m. induction p using Pos.peano_ind; intros m.
  - simpl. lia.
  - rewrite Pos.iter_succ. rewrite Pos2Z.inj_xO, IHp, Pos2Z.inj_succ, Z.pow_succ_r by lia. lia.
Qed.

Lemma shl_Z (m : positive) (n : Z) : 0 <= n -> Zpos (shl m n) = Zpos m * 2 ^ n.
Proof.
  intros Hn. destruct n as [|p|p]; simpl shl.
  - lia.
  - apply Pos_iter_xO_Z.
  - lia.
Qed.

Lemma digits2_size (m : positive) : digits2_pos m = Pos.size m.
Proof. induction m; simpl; now rewrite ?IHm. Qed.

Lemma digits_bounds (m : positive) :
  2 ^ (Zpos (digits2_pos m) - 1) <= Zpos m < 2 ^ Zpos (digits2_pos m).
Proof.
  rewrite digits2_size. split.
  - pose proof (Pos.size_le m) as H.
    assert (H' : 2 ^ Zpos (Pos.size m) <= 2 * Zpos m).
    { change (2 * Zpos m) with (Zpos m~0). rewrite <- Pos2Z.inj_pow. now apply Pos2Z.pos_le_pos. }
    replace (Zpos (Pos.size m)) with (Z.succ (Zpos (Pos.size m) - 1)) in H' by lia.
    rewrite Z.pow_succ_r in H' by lia. lia.
  - pose proof (Pos.size_gt m) as H.
    rewrite <- Pos2Z.inj_pow. now apply Pos2Z.pos_lt_pos.
Qed.

(** The number of binary digits is determined by the bounds. *)
Lemma digits_unique (m : positive) (d : Z) :
  2 ^ (d - 1) <= Zpos m < 2 ^ d -> 0 < d -> Zpos (digits2_pos m) = d.
Proof.
  intros [Hlo Hhi] Hd. pose proof (digits_bounds m) as [Blo Bhi].
  assert (Zpos (digits2_pos m) - 1 < d).
  { apply (Z.pow_lt_mono_r_iff 2); lia. }
  assert (d - 1 < Zpos (digits2_pos m)).
  { apply (Z.pow_lt_mono_r_iff 2); lia. }
  lia.
Qed.

Lemma digits_shl (m : positive) (n : Z) :
  0 <= n -> Zpos (digits2_pos (shl m n)) = Zpos (digits2_pos m) + n.
Proof.
  intros Hn. apply digits_unique; [|lia].
  rewrite shl_Z by lia. pose proof (digits_bounds m) as [Blo Bhi].
  replace (Zpos (digits2_pos m) + n - 1) with (Zpos (digits2_pos m) - 1 + n) by lia.
  rewrite !Z.pow_add_r by lia. split; nia.
Qed.

Lemma shl_shl (m : positive) (a b : Z) : 0 <= a -> 0 <= b -> shl (shl m a) b = shl m (a + b).
Proof.
  intros Ha Hb. apply Pos2Z.inj. rewrite !shl_Z by lia. rewrite Z.pow_add_r by lia. lia.
Qed.

Lemma shl_0 (m : positive) : shl m 0 = m.
Proof. reflexivity. Qed.

(** Shifting right what was shifted left loses nothing. *)
Lemma iter_pos_nat {A} (f : A -> A) (p : positive) (x : A) :
  iter_pos f p x = Nat.iter (Pos.to_nat p) f x.
Proof.
  revert x. induction p as [p IH|p IH|]; intros x; cbn [iter_pos].
  - rewrite !IH.
    replace (Pos.to_nat p~1) with (Pos.to_nat p + (Pos.to_nat p + 1))%nat by lia.
    rewrite !Nat.iter_add. reflexivity.
  - rewrite !IH.
    replace (Pos.to_nat p~0) with (Pos.to_nat p + Pos.to_nat p)%nat by lia.
    rewrite Nat.iter_add. reflexivity.
  - reflexivity.
Qed.

Lemma shr_nat_exact (n : nat) (m : positive) :
  Nat.iter n shr_1 {| shr_m := Zpos (Nat.iter n xO m); shr_r := false; shr_s := false |}
  = {| shr_m := Zpos m; shr_r := false; shr_s := false |}.
Proof.
  induction n as [|n IH].
  - reflexivity.
  - rewrite Nat.iter_succ_r. simpl Nat.iter at 2. simpl shr_1. exact IH.
Qed.

Lemma shr_exact (p : positive) (m : positive) :
  iter_pos shr_1 p {| shr_m := Zpos (Pos.iter xO m p); shr_r := false; shr_s := false |}
  = {| shr_m := Zpos m; shr_r := false; shr_s := false |}.
Proof.
  rewrite iter_pos_nat. rewrite Pos2Nat.inj_iter. apply shr_nat_exact.
Qed.

Lemma fexp_eq (x : Z) : fexp prec emax x = Z.max (x - 53) (-1074).
Proof. reflexivity. Qed.

(** A 53-digit mantissa is already rounded. *)
Lemma round_aux_53 (sx : bool) (m : positive) (e : Z) :
  Zpos (digits2_pos m) = 53 -> -1074 <= e <= 971 ->
  binary_round_aux prec emax sx (Zpos m) e loc_Exact = S754_finite sx m e.
Proof.
  intros Hd He. unfold binary_round_aux, shr_fexp. cbn [Zdigits2 shr_record_of_loc].
  rewrite Hd, fexp_eq. replace (Z.max (53 + e - 53) (-1074) - e) with 0 by lia.
  cbn [shr shr_m loc_of_shr_record round_nearest_even Zdigits2 shr_record_of_loc].
  rewrite Hd, fexp_eq. replace (Z.max (53 + e - 53) (-1074) - e) with 0 by lia.
  cbn [shr shr_m].
  replace (e <=? emax - prec) with true; [reflexivity|].
  symmetry. apply Z.leb_le. change (emax - prec) with 971. lia.
Qed.

(** A longer mantissa whose extra digits are zeros is rounded by dropping
    them. *)
Lemma round_aux_shifted (sx : bool) (m p : positive) (e : Z) :
  Zpos (digits2_pos m) = 53 -> -1074 <= e <= 971 ->
  binary_round_aux prec emax sx (Zpos (Pos.iter xO m p)) (e - Zpos p) loc_Exact
  = S754_finite sx m e.
Proof.
  intros Hd He. unfold binary_round_aux at 1. unfold shr_fexp at 1.
  cbn [Zdigits2 shr_record_of_loc].
  change (Pos.iter xO m p) with (shl m (Zpos p)).
  rewrite digits_shl, Hd, fexp_eq by lia.
  replace (Z.max (53 + Zpos p + (e - Zpos p) - 53) (-1074) - (e - Zpos p)) with (Zpos p) by lia.
  cbn [shr shl]. rewrite shr_exact.
  replace (e - Zpos p + Zpos p) with e by lia.
  cbn [shr_m loc_of_shr_record round_nearest_even].
  unfold shr_fexp. cbn [Zdigits2 shr_record_of_loc].
  rewrite Hd, fexp_eq. replace (Z.max (53 + e - 53) (-1074) - e) with 0 by lia.
  cbn [shr shr_m].
  replace (e <=? emax - prec) with true; [reflexivity|].
  symmetry. apply Z.leb_le. change (emax - prec) with 971. lia.
Qed.

(** Rounding [v * 2^k] with exponent [-k], that is the integer [v], when
    [v] has at most 53 digits: the mantissa is [v] moved up to 53 digits. *)
Lemma binary_round_exact (sx : bool) (v : positive) (k : Z) :
  Zpos (digits2_pos v) <= 53 -> 0 <= k ->
  binary_round prec emax sx (shl v k) (- k)
  = S754_finite sx (shl v (53 - Zpos (digits2_pos v))) (Zpos (digits2_pos v) - 53).
Proof.
  intros Hd Hk. set (d := Zpos (digits2_pos v)) in *.
  assert (Hd1 : 1 <= d) by (unfold d; lia).
  assert (Hfull : Zpos (digits2_pos (shl v (53 - d))) = 53).
  { rewrite digits_shl by lia. fold d. lia. }
  unfold binary_round. rewrite digits_shl by lia. fold d.
  rewrite fexp_eq. replace (Z.max (d + k + - k - 53) (-1074)) with (d - 53) by lia.
  unfold shl_align.
  destruct (d - 53 - - k) as [|q|q] eqn:E.
  - replace k with (53 - d) by lia. replace (- (53 - d)) with (d - 53) by lia.
    apply round_aux_53; [exact Hfull | lia].
  - assert (Hs : shl v k = Pos.iter xO (shl v (53 - d)) q).
    { change (Pos.iter xO (shl v (53 - d)) q) with (shl (shl v (53 - d)) (Zpos q)).
      rewrite shl_shl by lia. f_equal. lia. }
    rewrite Hs. replace (- k) with (d - 53 - Zpos q) by lia.
    apply round_aux_shifted; [exact Hfull | lia].
  - assert (Hs : Pos.iter xO (shl v k) q = shl v (53 - d)).
    { change (Pos.iter xO (shl v k) q) with (shl (shl v k) (Zpos q)).
      rewrite shl_shl by lia. f_equal. lia. }
    rewrite Hs. apply round_aux_53; [exact Hfull | lia].
Qed.

Lemma digits_le_53 (v : positive) : Zpos v < 2 ^ 53 -> Zpos (digits2_pos v) <= 53.
Proof.
  intros Hv. pose proof (digits_bounds v) as [Blo _].
  assert (Zpos (digits2_pos v) - 1 < 53); [|lia].
  apply (Z.pow_lt_mono_r_iff 2); lia.
Qed.

(** [z * 2^k] with exponent [-k] normalizes to the canonical form of [z]. *)
Lemma binary_normalize_exact (z k : Z) :
  Z.abs z < 2 ^ 53 -> 0 <= k ->
  binary_normalize prec emax (z * 2 ^ k) (- k) false = canonical z.
Proof.
  intros Hz Hk. destruct z as [|v|v]; cbn [canonical].
  - reflexivity.
  - assert (E : Zpos v * 2 ^ k = Zpos (shl v k)) by (now rewrite shl_Z).
    rewrite E. cbn [binary_normalize]. apply binary_round_exact; [apply digits_le_53; lia | lia].
  - assert (E : Zneg v * 2 ^ k = Zneg (shl v k)).
    { change (Zneg v) with (- Zpos v). change (Zneg (shl v k)) with (- Zpos (shl v k)).
      rewrite shl_Z by lia. lia. }
    rewrite E. cbn [binary_normalize]. apply binary_round_exact; [apply digits_le_53; lia | lia].
Qed.

Lemma canonical_mantissa_valid (v : positive) :
  Zpos v < 2 ^ 53 ->
  bounded prec emax (shl v (53 - Zpos (digits2_pos v))) (Zpos (digits2_pos v) - 53) = true.
Proof.
  intros Hv. assert (Hd : Zpos (digits2_pos v) <= 53) by (apply digits_le_53; lia).
  unfold bounded, canonical_mantissa. rewrite digits_shl, fexp_eq by lia.
  apply andb_true_intro; split.
  - apply Z.eqb_eq. lia.
  - apply Z.leb_le. change (emax - prec) with 971. lia.
Qed.

Lemma canonical_valid (z : Z) : Z.abs z < 2 ^ 53 -> valid_binary (canonical z) = true.
Proof.
  intros Hz. destruct z as [|v|v]; cbn [canonical SpecFloat.valid_binary].
  - reflexivity.
  - apply canonical_mantissa_valid. lia.
  - apply canonical_mantissa_valid. lia.
Qed.

(** What the Number for an integer is made of. *)
Lemma Z2F_canonical (z : Z) : Z.abs z < 2 ^ 53 -> Z2F z = SF2Prim (canonical z).
Proof.
  intros Hz. unfold Z2F.
  rewrite <- (binary_normalize_exact z 0) by lia.
  now rewrite Z.pow_0_r, Z.mul_1_r.
Qed.

Lemma Prim2SF_Z2F (z : Z) : Z.abs z < 2 ^ 53 -> Prim2SF (Z2F z) = canonical z.
Proof.
  intros Hz. rewrite Z2F_canonical by exact Hz.
  apply Prim2SF_SF2Prim, canonical_valid, Hz.
Qed.

(* ================================================================== *)
(** * [%] and [+] on integer Numbers *)
(* ================================================================== *)

Lemma Prim2SF_360 : Prim2SF 360 = S754_finite false 6333186975989760 (-44).
Proof. vm_compute. reflexivity. Qed.

Lemma canonical_pos_neg (z : Z) :
  z <> 0 ->
  exists v : positive,
    Z.abs z = Zpos v
    /\ canonical z
       = S754_finite (z <? 0) (shl v (53 - Zpos (digits2_pos v))) (Zpos (digits2_pos v) - 53).
Proof.
  intros Hz. destruct z as [|v|v]; [contradiction| |]; exists v; split; reflexivity.
Qed.

Lemma shl_align_fst (m : positive) (e e' : Z) :
  e' <= e -> fst (shl_align m e e') = shl m (e - e').
Proof.
  intros He. unfold shl_align. destruct (e' - e) as [|q|q] eqn:E.
  - replace (e - e') with 0 by lia. reflexivity.
  - lia.
  - replace (e - e') with (Zpos q) by lia. reflexivity.
Qed.

(** [z % 360] for an integer Number [z]. *)
Lemma Number_rem_360 (z : Z) :
  z <> 0 -> Z.abs z < 2 ^ 53 ->
  Number_rem (Z2F z) 360 =
    if Z.rem z 360 =? 0 then (if z <? 0 then neg_zero else zero) else Z2F (Z.rem z 360).
Proof.
  intros Hnz Hz. unfold Number_rem. rewrite Prim2SF_Z2F by exact Hz. rewrite Prim2SF_360.
  destruct (canonical_pos_neg z Hnz) as (v & Habs & ->).
  set (d := Zpos (digits2_pos v)).
  assert (Hd : 1 <= d <= 53) by (unfold d; split; [lia | apply digits_le_53; lia]).
  set (e0 := Z.min (d - 53) (-44)).
  assert (He0 : e0 <= -44 /\ e0 <= d - 53) by (unfold e0; lia).
  assert (HX : Z.shiftl (Zpos (shl v (53 - d))) (d - 53 - e0) = Zpos v * 2 ^ (- e0)).
  { rewrite Z.shiftl_mul_pow2, shl_Z by lia. rewrite <- Z.mul_assoc, <- Z.pow_add_r by lia.
    do 2 f_equal. lia. }
  assert (HY : Z.shiftl 6333186975989760 (-44 - e0) = 360 * 2 ^ (- e0)).
  { rewrite Z.shiftl_mul_pow2 by lia. change 6333186975989760 with (360 * 2 ^ 44).
    rewrite <- Z.mul_assoc, <- Z.pow_add_r by lia. do 2 f_equal. lia. }
  rewrite HX, HY.
  assert (Hpow : 0 < 2 ^ (- e0)) by (apply Z.pow_pos_nonneg; lia).
  assert (HR : Z.rem (Zpos v * 2 ^ (- e0)) (360 * 2 ^ (- e0)) = (Zpos v mod 360) * 2 ^ (- e0)).
  { rewrite Z.rem_mod_nonneg by nia. apply Z.mul_mod_distr_r; lia. }
  rewrite HR.
  assert (Hw : 0 <= Zpos v mod 360 < 360) by (apply Z.mod_pos_bound; lia).
  assert (Hrem : Z.rem z 360 = if z <? 0 then - (Zpos v mod 360) else Zpos v mod 360).
  { destruct (z <? 0) eqn:Hs.
    - apply Z.ltb_lt in Hs. replace z with (- Zpos v) by lia.
      rewrite Z.rem_opp_l by lia. rewrite Z.rem_mod_nonneg by lia. reflexivity.
    - apply Z.ltb_ge in Hs. replace z with (Zpos v) by lia.
      now rewrite Z.rem_mod_nonneg by lia. }
  destruct (Z.eq_dec (Zpos v mod 360) 0) as [Hzero|Hnonzero].
  - rewrite Hzero, Z.mul_0_l. cbn [Z.eqb].
    rewrite Hrem, Hzero. destruct (z <? 0); reflexivity.
  - replace (Zpos v mod 360 * 2 ^ (- e0) =? 0) with false
      by (symmetry; apply Z.eqb_neq; nia).
    replace (Z.rem z 360 =? 0) with false
      by (symmetry; apply Z.eqb_neq; rewrite Hrem; destruct (z <? 0); lia).
    rewrite Z2F_canonical by (rewrite Hrem; destruct (z <? 0); lia).
    f_equal. rewrite Hrem.
    replace (if z <? 0 then - (Zpos v mod 360 * 2 ^ (- e0)) else Zpos v mod 360 * 2 ^ (- e0))
      with ((if z <? 0 then - (Zpos v mod 360) else Zpos v mod 360) * 2 ^ (- e0))
      by (destruct (z <? 0); lia).
    replace e0 with (- (- e0)) at 2 by lia.
    apply binary_normalize_exact; [destruct (z <? 0); lia | lia].
Qed.

(** [z + 360] for an integer Number [z]. *)
Lemma Number_add_360 (z : Z) :
  Z.abs z < 2 ^ 52 -> (Z2F z + 360)%float = Z2F (z + 360).
Proof.
  intros Hz. destruct (Z.eq_dec z 0) as [->|Hnz]; [vm_compute; reflexivity|].
  rewrite <- (SF2Prim_Prim2SF (Z2F z + 360)%float).
  rewrite add_spec, Prim2SF_Z2F, Prim2SF_360 by lia.
  rewrite (Z2F_canonical (z + 360)) by lia. f_equal.
  destruct (canonical_pos_neg z Hnz) as (v & Habs & ->).
  set (d := Zpos (digits2_pos v)).
  assert (Hd : 1 <= d <= 53) by (unfold d; split; [lia | apply digits_le_53; lia]).
  unfold SF64add, SFadd.
  set (e0 := Z.min (d - 53) (-44)).
  assert (He0 : e0 <= -44 /\ e0 <= d - 53) by (unfold e0; lia).
  rewrite !shl_align_fst by lia. rewrite shl_shl by lia.
  assert (Hpow : 0 < 2 ^ (- e0)) by (apply Z.pow_pos_nonneg; lia).
  assert (HX : cond_Zopp (z <? 0) (Zpos (shl v (53 - d + (d - 53 - e0)))) = z * 2 ^ (- e0)).
  { rewrite shl_Z by lia. replace (53 - d + (d - 53 - e0)) with (- e0) by lia.
    unfold cond_Zopp. destruct (z <? 0) eqn:Hs.
    - apply Z.ltb_lt in Hs. lia.
    - apply Z.ltb_ge in Hs. lia. }
  assert (HY : cond_Zopp false (Zpos (shl 6333186975989760 (-44 - e0))) = 360 * 2 ^ (- e0)).
  { unfold cond_Zopp. rewrite shl_Z by lia. change (Zpos 6333186975989760) with (360 * 2 ^ 44).
    rewrite <- Z.mul_assoc, <- Z.pow_add_r by lia. do 2 f_equal. lia. }
  rewrite HX, HY. rewrite <- Z.mul_add_distr_r.
  replace e0 with (- (- e0)) at 2 by lia.
  apply binary_normalize_exact; lia.
Qed.

(* ================================================================== *)
(** * Hue normalisation on integer hues *)
(* ================================================================== *)

Lemma normalizeHue_integer (z : Z) :
  Z.abs z < 2 ^ 53 -> normalizeHue (Z2F z) = Z2F (z mod 360).
Proof.
  intros Hz. unfold normalizeHue.
  destruct (Z.eq_dec z 0) as [->|Hnz]; [vm_compute; reflexivity|].
  rewrite Number_rem_360 by assumption.
  destruct (Z.rem z 360 =? 0) eqn:Hrem.
  - apply Z.eqb_eq in Hrem.
    assert (Hmod : z mod 360 = 0).
    { apply Z.rem_divide in Hrem; [|lia]. apply Z.mod_divide; [lia | exact Hrem]. }
    rewrite Hmod. destruct (z <? 0); vm_compute; reflexivity.
  - apply Z.eqb_neq in Hrem.
    assert (Hbound : Z.abs (Z.rem z 360) < 360).
    { pose proof (Z.rem_bound_abs z 360 ltac:(lia)). lia. }
    rewrite Number_add_360 by lia.
    assert (Hsum : (Z.rem z 360 + 360) mod 360 = z mod 360).
    { replace (Z.rem z 360 + 360) with (z + (1 - Z.quot z 360) * 360)
        by (pose proof (Z.quot_rem' z 360); lia).
      apply Z.mod_add. lia. }
    destruct (Z.eq_dec (Z.rem z 360 + 360) 0) as [E|Hnz']; [lia|].
    rewrite Number_rem_360 by lia.
    assert (Hpos : Z.rem (Z.rem z 360 + 360) 360 = z mod 360).
    { rewrite Z.rem_mod_nonneg by lia. exact Hsum. }
    rewrite Hpos.
    replace (Z.rem z 360 + 360 <? 0) with false by (symmetry; apply Z.ltb_ge; lia).
    destruct (z mod 360 =? 0) eqn:E0; [|reflexivity].
    apply Z.eqb_eq in E0. rewrite E0. vm_compute. reflexivity.
Qed.

Lemma degrees_checked : forallb degree_ok degrees = true.
Proof. vm_compute. reflexivity. Qed.

Lemma degree_range (w : Z) :
  0 <= w < 360 ->
  Number_le 0 (Z2F w) /\ Number_lt (Z2F w) 360 /\ Number_eq (Z2F w) (Z2F w).
Proof.
  intros Hw. pose proof degrees_checked as H. rewrite forallb_forall in H.
  assert (Hin : In w degrees).
  { unfold degrees. apply in_map_iff. exists (Z.to_nat w). split; [lia | apply in_seq; lia]. }
  specialize (H w Hin). unfold degree_ok in H.
  repeat (apply andb_prop in H; destruct H as [H ?]).
  repeat split; assumption.
Qed.

(* ================================================================== *)
(** * All 256 x 256 x 256 RGB triples, by evaluation *)
(* ================================================================== *)

Lemma byte_values_spec : byte_values = map (fun n => Z2F (Z.of_nat n)) (seq 0 256).
Proof. vm_compute. reflexivity. Qed.

Lemma byte_values_complete (z : Z) : 0 <= z <= 255 -> In (Z2F z) byte_values.
Proof.
  intros Hz. rewrite byte_values_spec. rewrite <- (Z2Nat.id z) at 1 by lia.
  apply (in_map (fun n => Z2F (Z.of_nat n))), in_seq. lia.
Qed.

Lemma forallb_cube (f : float -> float -> float -> bool) (l : list float) :
  forallb (fun r0 => forallb (fun g0 => forallb (fun b0 => f r0 g0 b0) l) l) l = true ->
  forall r0 g0 b0, In r0 l -> In g0 l -> In b0 l -> f r0 g0 b0 = true.
Proof.
  intros H r0 g0 b0 Hr Hg Hb.
  rewrite forallb_forall in H. specialize (H r0 Hr).
  rewrite forallb_forall in H. specialize (H g0 Hg).
  rewrite forallb_forall in H. exact (H b0 Hb).
Qed.

(** Every triple passes [triple_ok]: 16777216 evaluations. *)
Lemma cube_checked :
  forallb (fun r0 => forallb (fun g0 => forallb (fun b0 => triple_ok r0 g0 b0)
    byte_values) byte_values) byte_values = true.
Proof. vm_cast_no_check (eq_refl true). Qed.

Lemma triple_checked (R G B : Z) :
  0 <= R <= 255 -> 0 <= G <= 255 -> 0 <= B <= 255 ->
  triple_ok (Z2F R) (Z2F G) (Z2F B) = true.
Proof.
  intros HR HG HB.
  exact (forallb_cube triple_ok byte_values cube_checked _ _ _
           (byte_values_complete R HR) (byte_values_complete G HG)
           (byte_values_complete B HB)).
Qed.

Lemma triple_ok_inv (r0 g0 b0 : float) :
  triple_ok r0 g0 b0 = true ->
  let c := rgbToHsl r0 g0 b0 in
  let o := hslToRgb (h c) (s c) (l c) in
  (Number_le 0 (h c) /\ Number_le (h c) 360)
  /\ (Number_le 0 (s c) /\ Number_le (s c) 100)
  /\ (Number_le 0 (l c) /\ Number_le (l c) 100)
  /\ within 5 (r o) r0 = true /\ within 5 (g o) g0 = true /\ within 5 (b o) b0 = true.
Proof.
  unfold triple_ok, Number_le. intros H.
  repeat (apply andb_prop in H; destruct H as [H ?]).
  repeat split; assumption.
Qed.

(** C5 (as the code has it).  For every RGB triple with integer channels
    in [0,255], [hslToRgb] of [rgbToHsl] gives channels that each differ
    from the original by at most 5. *)
Theorem round_trip_within_5 :
  forall R G B : Z,
    0 <= R <= 255 -> 0 <= G <= 255 -> 0 <= B <= 255 ->
    let c := rgbToHsl (Z2F R) (Z2F G) (Z2F B) in
    let o := hslToRgb (h c) (s c) (l c) in
    within 5 (r o) (Z2F R) = true
    /\ within 5 (g o) (Z2F G) = true
    /\ within 5 (b o) (Z2F B) = true.
Proof.
  intros R G B HR HG HB.
  exact (proj2 (proj2 (proj2 (triple_ok_inv _ _ _ (triple_checked R G B HR HG HB))))).
Qed.

Lemma round_trip_within_5_witness :
  let c := rgbToHsl (Z2F 2) (Z2F 228) (Z2F 230) in
  let o := hslToRgb (h c) (s c) (l c) in
  within 5 (r o) (Z2F 2) = true
  /\ within 5 (g o) (Z2F 228) = true
  /\ within 5 (b o) (Z2F 230) = true.
Proof. apply (round_trip_within_5 2 228 230); lia. Defined.

(** C5 as stated fails: rgb(0, 0, 2) has the HSL form (240, 100, 0), which
    comes back as rgb(0, 0, 0); blue is off by 2. *)
Lemma round_trip_loses_2 :
  let c := rgbToHsl (Z2F 0) (Z2F 0) (Z2F 2) in
  let o := hslToRgb (h c) (s c) (l c) in
  c = {| h := 240; s := 100; l := 0 |}
  /\ o = {| r := 0; g := 0; b := 0 |}
  /\ within 1 (b o) (Z2F 2) = false.
Proof. vm_compute. repeat split. Qed.

(** The bound 5 is reached: rgb(2, 228, 230) comes back as rgb(2, 223, 227). *)
Remark round_trip_loses_5 :
  let c := rgbToHsl (Z2F 2) (Z2F 228) (Z2F 230) in
  let o := hslToRgb (h c) (s c) (l c) in
  c = {| h := 181; s := 98; l := 45 |}
  /\ o = {| r := 2; g := 223; b := 227 |}
  /\ within 4 (g o) (Z2F 228) = false.
Proof. vm_compute. repeat split. Qed.

(** C10.  For every string, [hexToRgb] returns three channels that are
    integers in [0,255], and so [hexToHsl] returns a hue in [0,360] and a
    saturation and a lightness in [0,100], none of them NaN; a string that
    [parseInt] reads as NaN, such as ["zz"], gives the channels (0, 0, 0). *)
Theorem hexToRgb_channels_are_bytes :
  forall hex : string,
    (exists R G B : Z,
        hexToRgb hex = {| r := Z2F R; g := Z2F G; b := Z2F B |}
        /\ 0 <= R <= 255 /\ 0 <= G <= 255 /\ 0 <= B <= 255)
    /\ (Number_le 0 (h (hexToHsl hex)) /\ Number_le (h (hexToHsl hex)) 360)
    /\ (Number_le 0 (s (hexToHsl hex)) /\ Number_le (s (hexToHsl hex)) 100)
    /\ (Number_le 0 (l (hexToHsl hex)) /\ Number_le (l (hexToHsl hex)) 100)
    /\ parseInt "zz" Radix16 = None
    /\ hexToRgb "zz" = {| r := 0; g := 0; b := 0 |}.
Proof.
  intros hex. destruct (hexToRgb_bytes hex) as (R & G & B & E & HR & HG & HB).
  split; [exists R, G, B; auto|].
  unfold hexToHsl. rewrite E. cbn [r g b].
  destruct (triple_ok_inv _ _ _ (triple_checked R G B HR HG HB)) as (Hh & Hs & Hl & _).
  repeat split; try tauto.
Qed.

(** C7 as stated fails away from the integers: at -0.7 the two sides
    differ in their last bits. *)
Lemma normalizeHue_not_periodic :
  normalizeHue (-0.7) = 359.3%float
  /\ normalizeHue (-0.7 + 360) = 359.29999999999995%float
  /\ (normalizeHue (-0.7) =? normalizeHue (-0.7 + 360))%float = false.
Proof. vm_compute. repeat split. Qed.


(* ================================================================== *)
(** * The shape of every palette *)
(* ================================================================== *)

Lemma push_while_head (fuel : nat) (count : Z) (next : list Hsl -> Hsl) :
  forall (x : Hsl) (cs : list Hsl),
    exists rest, push_while fuel count next (x :: cs) = x :: rest.
Proof.
  induction fuel as [|fuel IH]; intros x cs; simpl.
  - now exists cs.
  - destruct (len (x :: cs) <? count); [apply IH | now exists cs].
Qed.

Lemma slice0_head (x : Hsl) (cs : list Hsl) (count : Z) :
  1 <= count -> exists rest, slice0 (x :: cs) count = x :: rest.
Proof.
  intros Hc. rewrite slice0_firstn by lia. destruct (Z.to_nat count) as [|k] eqn:E; [lia|].
  simpl. now eexists.
Qed.

Lemma anchored_head offsets modulus ds dl lmax baseHsl count :
  1 <= count ->
  exists rest, anchored offsets modulus ds dl lmax baseHsl count = baseHsl :: rest.
Proof.
  intros Hc. unfold anchored, while_push.
  destruct (push_while_head (Z.to_nat count) count
              (fun colors =>
                 {| h := h (nth (Z.to_nat (len colors mod modulus)) colors baseHsl);
                    s := Math_max 30 (s (nth (Z.to_nat (len colors mod modulus)) colors baseHsl) - ds);
                    l := Math_min lmax (l (nth (Z.to_nat (len colors mod modulus)) colors baseHsl) + dl) |})
              baseHsl
              (map (fun off => with_h baseHsl (normalizeHue (h baseHsl + off))) offsets))
    as [rest ->].
  now apply slice0_head.
Qed.

Lemma push_random_head random (k : nat) :
  forall (x : Hsl) (cs : list Hsl) (n : nat),
    exists rest, fst (push_random random k (x :: cs) n) = x :: rest.
Proof.
  induction k as [|k IH]; intros x cs n; simpl.
  - now exists cs.
  - unfold bind at 1. destruct (randomHsl random n) as [c n1]. apply IH.
Qed.

Lemma dispatch_head random name baseHsl cc angle n :
  1 <= cc ->
  exists rest, fst (dispatch random name baseHsl cc angle n) = baseHsl :: rest.
Proof.
  intros Hcc. unfold dispatch.
  repeat match goal with
         | |- context [if ?b then _ else _] => destruct b
         end; unfold ret; cbn [fst];
    try (apply anchored_head; exact Hcc).
  - unfold generateComplementary, while_push.
    match goal with
    | |- context [push_while ?f ?c ?nx (?x :: ?cs)] =>
        destruct (push_while_head f c nx x cs) as [rest ->]
    end.
    now apply slice0_head.
  - unfold generateAnalogous, for_push. now apply slice0_head.
  - unfold generateMonochromatic, for_push. now apply slice0_head.
  - unfold generateCustom, for_push. now apply slice0_head.
  - unfold generateRandom. apply push_random_head.
Qed.

(** X1.  In every palette the first colour is the base colour:
    its HSL triple is the base ([hexToHsl] of the base colour when one is
    given, else the random triple), its role is ["primary"], and the
    [baseColor] field of the palette is the hex text of that same colour,
    [hslToHex] of the base, not the text that was passed in. *)
Theorem first_colour_is_the_base :
  forall (random : nat -> float) (opts : options) (n : nat),
    exists p n' rest,
      generatePalette random opts n = (Some p, n')
      /\ colors p =
           {| hex := hslToHex (h (fst (baseHslOf random opts n)))
                              (s (fst (baseHslOf random opts n)))
                              (l (fst (baseHslOf random opts n)));
              hsl := fst (baseHslOf random opts n);
              role := "primary" |} :: rest
      /\ baseColor p = hslToHex (h (fst (baseHslOf random opts n)))
                                (s (fst (baseHslOf random opts n)))
                                (l (fst (baseHslOf random opts n))).
Proof.
  intros random opts n.
  destruct (baseHslOf random opts n) as [baseHsl n1] eqn:Hb.
  destruct (dispatch random (toLowerCase (harmonyOf opts)) baseHsl (colorCount (o_count opts))
              (match o_angle opts with Some a => a | None => 45%float end) n1)
    as [cs n2] eqn:Hd.
  pose proof (colorCount_range (o_count opts)) as Hr.
  destruct (dispatch_head random (toLowerCase (harmonyOf opts)) baseHsl
              (colorCount (o_count opts))
              (match o_angle opts with Some a => a | None => 45%float end) n1 ltac:(lia))
    as [rest Hrest].
  rewrite Hd in Hrest. cbn [fst] in Hrest. subst cs.
  rewrite (generatePalette_unfold random opts n baseHsl n1 (baseHsl :: rest) n2 Hb Hd).
  cbn [toColors fst roleOf]. eexists _, n2, _. repeat split.
Qed.

Lemma roles_of_toColors (cs : list Hsl) :
  forall i, map role (toColors i cs) = map roleOf (seq i (List.length cs)).
Proof.
  induction cs as [|c cs IH]; intros i; simpl; [reflexivity|]. now rewrite IH.
Qed.

(** X2.  The roles of a palette are the first [count] of
    primary, accent-1, ..., accent-5, in this order; the HSL triples are
    those the strategy returned, and every colour's [hex] is [hslToHex] of
    its own [hsl]. *)
Theorem roles_are_primary_then_accents :
  forall (random : nat -> float) (opts : options) (n : nat),
    exists p n',
      generatePalette random opts n = (Some p, n')
      /\ map role (colors p) = firstn (Z.to_nat (count p)) ROLES
      /\ map hsl (colors p)
         = fst (dispatch random (toLowerCase (harmonyOf opts))
                  (fst (baseHslOf random opts n)) (colorCount (o_count opts))
                  (match o_angle opts with Some a => a | None => 45%float end)
                  (snd (baseHslOf random opts n)))
      /\ Forall (fun c => hex c = hslToHex (h (hsl c)) (s (hsl c)) (l (hsl c))) (colors p).
Proof.
  intros random opts n.
  destruct (baseHslOf random opts n) as [baseHsl n1] eqn:Hb.
  destruct (dispatch random (toLowerCase (harmonyOf opts)) baseHsl (colorCount (o_count opts))
              (match o_angle opts with Some a => a | None => 45%float end) n1)
    as [cs n2] eqn:Hd.
  pose proof (colorCount_range (o_count opts)) as Hr.
  assert (Hlen : List.length cs = Z.to_nat (colorCount (o_count opts))).
  { replace cs with (fst (dispatch random (toLowerCase (harmonyOf opts)) baseHsl
                            (colorCount (o_count opts))
                            (match o_angle opts with Some a => a | None => 45%float end) n1))
      by now rewrite Hd.
    apply dispatch_length. lia. }
  rewrite (generatePalette_unfold random opts n baseHsl n1 cs n2 Hb Hd).
  destruct (toColors 0 cs) as [|first rest] eqn:Hc.
  - apply (f_equal (@List.length Color)) in Hc. rewrite toColors_length, Hlen in Hc.
    simpl in Hc. lia.
  - eexists _, n2. split; [reflexivity|]. cbn [colors count fst snd]. rewrite <- Hc, Hd.
    cbn [fst]. split; [|split].
    + rewrite roles_of_toColors, Hlen.
      assert (Hn : (2 <= Z.to_nat (colorCount (o_count opts)) <= 6)%nat) by lia.
      destruct (Z.to_nat (colorCount (o_count opts))) as [|[|[|[|[|[|[|k]]]]]]];
        try lia; reflexivity.
    + apply toColors_hsl.
    + clear. generalize 0%nat. induction cs as [|c cs IH]; intros i; simpl; constructor.
      * reflexivity.
      * apply IH.
Qed.

(* ================================================================== *)
(** * Letter case of the harmony *)
(* ================================================================== *)

Lemma lowerChar_idempotent (c : ascii) : lowerChar (lowerChar c) = lowerChar c.
Proof.
  apply Ascii.eqb_eq.
  revert c. apply (all_ascii_complete (fun c => (lowerChar (lowerChar c) =? lowerChar c)%char)).
  vm_compute. reflexivity.
Qed.

Lemma toLowerCase_idempotent (s : string) : toLowerCase (toLowerCase s) = toLowerCase s.
Proof.
  induction s as [|c s IH]; simpl; [reflexivity|].
  now rewrite lowerChar_idempotent, IH.
Qed.

(** X3.  The letter case of the harmony does not matter:
    [generatePalette] returns the same palette, and leaves the same counter,
    for a harmony and for its lower-cased form. *)
Theorem harmony_is_case_insensitive :
  forall (random : nat -> float) (opts : options) (n : nat) (name : string),
    generatePalette random (set_harmony opts (Some name)) n
    = generatePalette random (set_harmony opts (Some (toLowerCase name))) n.
Proof.
  intros random opts n name. unfold generatePalette.
  cbn [set_harmony o_harmony o_count o_baseColor o_angle].
  now rewrite toLowerCase_idempotent.
Qed.

(* ================================================================== *)
(** * How often [Math.random] is read *)
(* ================================================================== *)

Lemma baseHslOf_draws random opts n :
  snd (baseHslOf random opts n)
  = (n + match truthy (o_baseColor opts) with Some _ => 0 | None => 3 end)%nat.
Proof.
  unfold baseHslOf. destruct (truthy (o_baseColor opts)); simpl; lia.
Qed.

Lemma dispatch_draws random name baseHsl cc angle n :
  snd (dispatch random name baseHsl cc angle n)
  = (n + if existsb (String.eqb name) HARMONY_TYPES && negb (name =? "random")%string
         then 0 else 3 * (Z.to_nat cc - 1))%nat.
Proof.
  destruct (existsb (String.eqb name) HARMONY_TYPES && negb (name =? "random")%string) eqn:E.
  - destruct (dispatch_anchor random random name baseHsl cc angle n n E) as [_ H]. lia.
  - assert (Hg : dispatch random name baseHsl cc angle = generateRandom random baseHsl cc).
    { destruct (existsb (String.eqb name) HARMONY_TYPES) eqn:E1.
      - simpl in E. apply negb_false_iff in E. apply String.eqb_eq in E. subst name.
        reflexivity.
      - now apply dispatch_unrecognized. }
    rewrite Hg. unfold generateRandom.
    destruct (push_random_spec random (Z.to_nat cc - 1) [baseHsl] n) as [_ H]. exact H.
Qed.

(** X4.  [generatePalette] reads [Math.random] three times
    when no base colour is given (none otherwise), and three more times per
    colour after the first when the harmony is ["random"] or is not
    recognized (none for the nine other harmonies). *)
Theorem random_reads_are_counted :
  forall (random : nat -> float) (opts : options) (n : nat),
    snd (generatePalette random opts n) = (n + drawsOf opts)%nat.
Proof.
  intros random opts n.
  destruct (baseHslOf random opts n) as [baseHsl n1] eqn:Hb.
  destruct (dispatch random (toLowerCase (harmonyOf opts)) baseHsl (colorCount (o_count opts))
              (match o_angle opts with Some a => a | None => 45%float end) n1)
    as [cs n2] eqn:Hd.
  rewrite (generatePalette_unfold random opts n baseHsl n1 cs n2 Hb Hd). cbn [snd].
  pose proof (baseHslOf_draws random opts n) as H1. rewrite Hb in H1. cbn [snd] in H1.
  pose proof (dispatch_draws random (toLowerCase (harmonyOf opts)) baseHsl
                (colorCount (o_count opts))
                (match o_angle opts with Some a => a | None => 45%float end) n1) as H2.
  rewrite Hd in H2. cbn [snd] in H2.
  unfold drawsOf, anchorStrategy, recognized. rewrite H2, H1. lia.
Qed.

(* ================================================================== *)
(** * [hexToRgb] on texts that are not six digits *)
(* ================================================================== *)

Lemma parseDigits_hexRun (s : string) :
  forall acc, allHexDigits s = true ->
    parseDigits 16 s (Some acc) = Some (hexRun s acc).
Proof.
  induction s as [|c s IH]; intros acc H; simpl in *; [reflexivity|].
  apply andb_prop in H. destruct H as [Hc Hs].
  destruct (hexDigit_facts c Hc) as (_ & _ & _ & _ & _ & _ & D & B & _).
  rewrite D. replace (hexValue c <? 16) with true by (symmetry; apply Z.ltb_lt; lia).
  now apply IH.
Qed.

Lemma hexRun_bounds (s : string) :
  forall acc, allHexDigits s = true -> 0 <= acc ->
    0 <= hexRun s acc < (acc + 1) * 16 ^ Z.of_nat (String.length s).
Proof.
  induction s as [|c s IH]; intros acc H Ha.
  - simpl. lia.
  - cbn [allHexDigits] in H. apply andb_prop in H. destruct H as [Hc Hs].
    destruct (hexDigit_facts c Hc) as (_ & _ & _ & _ & _ & _ & _ & B & _).
    cbn [hexRun String.length]. specialize (IH (acc * 16 + hexValue c) Hs ltac:(lia)).
    rewrite Nat2Z.inj_succ, Z.pow_succ_r by lia.
    assert (0 < 16 ^ Z.of_nat (String.length s)) by (apply Z.pow_pos_nonneg; lia).
    nia.
Qed.

Lemma parseInt_hexRun (s : string) :
  allHexDigits s = true -> s <> EmptyString ->
  parseInt s Radix16 = Some (hexRun s 0).
Proof.
  intros H Hne. destruct s as [|c1 s]; [congruence|].
  cbn [allHexDigits] in H. apply andb_prop in H. destruct H as [H1 Hs].
  destruct (hexDigit_facts c1 H1) as (W1 & M1 & P1 & _ & _ & _ & D1 & B1 & _).
  unfold parseInt. cbn [trimStart]. rewrite W1. cbn [stripSign]. rewrite M1, P1.
  assert (Hp : stripHexPrefix (String c1 s) = None).
  { destruct s as [|c2 s]; [reflexivity|].
    cbn [allHexDigits] in Hs. apply andb_prop in Hs. destruct Hs as [H2 _].
    destruct (hexDigit_facts c2 H2) as (_ & _ & _ & X2 & X2' & _).
    cbn [stripHexPrefix]. now rewrite X2, X2', andb_false_r. }
  rewrite Hp. cbn [parseDigits]. rewrite D1.
  replace (hexValue c1 <? 16) with true by (symmetry; apply Z.ltb_lt; lia).
  rewrite parseDigits_hexRun by assumption. cbn [hexRun].
  replace (0 * 16 + hexValue c1) with (hexValue c1) by lia.
  f_equal. destruct (hexRun s (hexValue c1)); reflexivity.
Qed.

(** The bytes of a 32-bit integer do not depend on how it wraps. *)
Lemma bytes_of_ToInt32 (v : Z) :
  0 <= v < 2 ^ 53 ->
  band (sar (ToInt32 (Some v)) 16) 255 = (v / 65536) mod 256
  /\ band (sar (ToInt32 (Some v)) 8) 255 = (v / 256) mod 256
  /\ band (ToInt32 (Some v)) 255 = v mod 256.
Proof.
  intros Hv. unfold ToInt32, roundToNumber.
  assert (Hbits : Z.log2 (Z.abs v) + 1 <= 53).
  { rewrite Z.abs_eq by lia.
    destruct (Z.eq_dec v 0) as [->|Hnz]; [simpl; lia|].
    assert (Z.log2 v < 53) by (apply Z.log2_lt_pow2; lia). lia. }
  apply Z.leb_le in Hbits. rewrite Hbits. cbv zeta.
  assert (Hw : exists q, (if 2 ^ 31 <=? v mod 2 ^ 32 then v mod 2 ^ 32 - 2 ^ 32 else v mod 2 ^ 32)
                         = v + q * 4294967296).
  { pose proof (Z.div_mod v (2 ^ 32) ltac:(lia)) as E. change (2 ^ 32) with 4294967296 in *.
    destruct (2 ^ 31 <=? v mod 4294967296).
    - exists (- (v / 4294967296) - 1). lia.
    - exists (- (v / 4294967296)). lia. }
  destruct Hw as [q ->].
  unfold band, sar. change 255 with (Z.ones 8).
  rewrite !Z.land_ones, !Z.shiftr_div_pow2 by lia.
  change (2 ^ 16) with 65536. change (2 ^ 8) with 256.
  repeat split.
  - replace (v + q * 4294967296) with (v + (q * 65536) * 65536) by lia.
    rewrite Z.div_add by lia.
    replace (v / 65536 + q * 65536) with (v / 65536 + (q * 256) * 256) by lia.
    apply Z.mod_add. lia.
  - replace (v + q * 4294967296) with (v + (q * 16777216) * 256) by lia.
    rewrite Z.div_add by lia.
    replace (v / 256 + q * 16777216) with (v / 256 + (q * 65536) * 256) by lia.
    apply Z.mod_add. lia.
  - replace (v + q * 4294967296) with (v + (q * 16777216) * 256) by lia.
    apply Z.mod_add. lia.
Qed.

(** X5.  [hexToRgb] does not require six digits: of a text of one
    to thirteen hexadecimal digits, with or without a leading [#], it reads
    the whole number and returns its bits 16..23, 8..15 and 0..7.  So the
    three-digit form [#abc] is not expanded to [#aabbcc] (it is red 0, green
    10, blue 188), and of eight digits [rrggbbaa] the channels are
    [gg], [bb], [aa]. *)
Theorem hexToRgb_keeps_the_low_24_bits :
  forall s : string,
    allHexDigits s = true ->
    (1 <= String.length s <= 13)%nat ->
    hexToRgb s = low24 (hexRun s 0) /\ hexToRgb ("#" ++ s) = low24 (hexRun s 0).
Proof.
  intros s Hs Hlen.
  assert (Hne : s <> EmptyString) by (destruct s; [simpl in Hlen; lia | discriminate]).
  assert (Hv : 0 <= hexRun s 0 < 2 ^ 53).
  { pose proof (hexRun_bounds s 0 Hs ltac:(lia)) as B.
    assert (16 ^ Z.of_nat (String.length s) <= 16 ^ 13)
      by (apply Z.pow_le_mono_r; lia).
    change (16 ^ 13) with 4503599627370496 in *.
    change (2 ^ 53) with 9007199254740992. lia. }
  destruct (bytes_of_ToInt32 _ Hv) as (R & G & B).
  assert (E : forall t, stripHash t = s -> hexToRgb t = low24 (hexRun s 0)).
  { intros t Ht. unfold hexToRgb, low24. rewrite Ht, parseInt_hexRun by assumption.
    now rewrite R, G, B. }
  split; apply E.
  - destruct s as [|c s]; [congruence|]. cbn [allHexDigits] in Hs.
    apply andb_prop in Hs. destruct Hs as [Hc _].
    destruct (hexDigit_facts c Hc) as (_ & _ & _ & _ & _ & N & _).
    cbn [stripHash]. now rewrite N.
  - reflexivity.
Qed.

Lemma hexToRgb_keeps_the_low_24_bits_witness :
  hexToRgb "abc" = low24 (hexRun "abc" 0) /\ hexToRgb ("#" ++ "abc") = low24 (hexRun "abc" 0).
Proof.
  apply (hexToRgb_keeps_the_low_24_bits "abc"); [reflexivity | simpl; lia].
Defined.

Lemma parseInt_noLeadingDigit (s : string) :
  noLeadingDigit s = true -> parseInt s Radix16 = None.
Proof.
  intros H. destruct s as [|c s]; [reflexivity|].
  cbn [noLeadingDigit] in H.
  repeat (apply andb_prop in H; destruct H as [H ?]).
  repeat match goal with
         | H : negb _ = true |- _ => apply negb_true_iff in H
         end.
  unfold parseInt. cbn [trimStart]. rewrite H. cbn [stripSign]. rewrite H2, H1.
  assert (Hp : stripHexPrefix (String c s) = None).
  { destruct s as [|c2 s]; [reflexivity|]. cbn [stripHexPrefix].
    destruct (c =? "0")%char eqn:E0; [|reflexivity].
    apply Ascii.eqb_eq in E0. subst c. discriminate. }
  rewrite Hp. cbn [parseDigits]. unfold isHexDigit in H0.
  destruct (digitValue c) as [d|]; [|reflexivity]. now rewrite H0.
Qed.

(** X6.  [hexToRgb] never fails: when the text, after an optional
    [#], is empty or begins with a character that is no hexadecimal digit, no
    sign and no white space, the colour is black, its HSL triple is (0, 0, 0)
    and its contrast colour is white. *)
Theorem text_without_digits_is_black :
  forall s : string,
    noLeadingDigit (stripHash s) = true ->
    hexToRgb s = {| r := 0; g := 0; b := 0 |}
    /\ hexToHsl s = {| h := 0; s := 0; l := 0 |}
    /\ getContrastColor s = "#ffffff".
Proof.
  intros s H.
  assert (E : hexToRgb s = {| r := 0; g := 0; b := 0 |}).
  { unfold hexToRgb. now rewrite (parseInt_noLeadingDigit _ H). }
  unfold hexToHsl, getContrastColor. rewrite E. repeat split.
Qed.

Lemma text_without_digits_is_black_witness :
  hexToRgb "#zzz" = {| r := 0; g := 0; b := 0 |}
  /\ hexToHsl "#zzz" = {| h := 0; s := 0; l := 0 |}
  /\ getContrastColor "#zzz" = "#ffffff".
Proof.
  apply (text_without_digits_is_black "#zzz"). reflexivity.
Defined.

(* ================================================================== *)
(** * From channels to text and back *)
(* ================================================================== *)

Lemma hexDigit_is_hex (d : Z) :
  0 <= d < 16 -> isHexDigit (hexDigit d) = true /\ hexValue (hexDigit d) = d.
Proof.
  intros Hd.
  assert (Hall : forallb (fun d => isHexDigit (hexDigit d) && (hexValue (hexDigit d) =? d))
                   nibbles = true) by (vm_compute; reflexivity).
  rewrite forallb_forall in Hall. specialize (Hall d (nibbles_complete d Hd)).
  apply andb_prop in Hall. destruct Hall as [H1 H2]. apply Z.eqb_eq in H2. now split.
Qed.

Lemma toHex_of_byte (v : Z) :
  isByte v ->
  toHex (Z2F v) = String (hexDigit (v / 16)) (String (hexDigit (v mod 16)) EmptyString).
Proof.
  intros Hv. unfold isByte in Hv.
  pose proof (Z.div_mod v 16 ltac:(lia)) as E.
  pose proof (Z.mod_pos_bound v 16 ltac:(lia)) as Hm.
  assert (Hq : 0 <= v / 16 < 16)
    by (split; [apply Z.div_pos; lia | apply Z.div_lt_upper_bound; lia]).
  rewrite E at 1. now apply toHex_byte.
Qed.

(** X7.  For channels that are integers from 0 to 255,
    [rgbToHex] returns [#] and six hexadecimal digits, and [hexToRgb] reads
    the three channels back unchanged. *)
Theorem rgb_bytes_survive_the_hex_text :
  forall R G B : Z,
    isByte R -> isByte G -> isByte B ->
    sixHexDigits (stripHash (rgbToHex (Z2F R) (Z2F G) (Z2F B))) = true
    /\ hexToRgb (rgbToHex (Z2F R) (Z2F G) (Z2F B))
       = {| r := Z2F R; g := Z2F G; b := Z2F B |}.
Proof.
  intros R G B HR HG HB.
  assert (Hn : forall v, isByte v -> 0 <= v / 16 < 16 /\ 0 <= v mod 16 < 16
                                    /\ 16 * (v / 16) + v mod 16 = v).
  { intros v Hv. unfold isByte in Hv.
    pose proof (Z.div_mod v 16 ltac:(lia)).
    pose proof (Z.mod_pos_bound v 16 ltac:(lia)).
    assert (0 <= v / 16) by (apply Z.div_pos; lia).
    assert (v / 16 < 16) by (apply Z.div_lt_upper_bound; lia).
    lia. }
  destruct (Hn R HR) as (R1 & R2 & RE), (Hn G HG) as (G1 & G2 & GE), (Hn B HB) as (B1 & B2 & BE).
  destruct (hexDigit_is_hex _ R1) as [X1 V1], (hexDigit_is_hex _ R2) as [X2 V2],
           (hexDigit_is_hex _ G1) as [X3 V3], (hexDigit_is_hex _ G2) as [X4 V4],
           (hexDigit_is_hex _ B1) as [X5 V5], (hexDigit_is_hex _ B2) as [X6 V6].
  assert (E0 : rgbToHex (Z2F R) (Z2F G) (Z2F B)
               = String "#" (String (hexDigit (R / 16)) (String (hexDigit (R mod 16))
                   (String (hexDigit (G / 16)) (String (hexDigit (G mod 16))
                   (String (hexDigit (B / 16)) (String (hexDigit (B mod 16)) EmptyString))))))).
  { unfold rgbToHex. rewrite !toHex_of_byte by assumption. reflexivity. }
  rewrite E0. change (stripHash (String "#" ?t)) with t.
  split.
  - unfold sixHexDigits. cbn [String.length allHexDigits Nat.eqb].
    now rewrite X1, X2, X3, X4, X5, X6.
  - destruct (hexToRgb_six _ _ _ _ _ _ X1 X2 X3 X4 X5 X6) as [_ E].
    cbv zeta in E. rewrite E. unfold hexPair. rewrite V1, V2, V3, V4, V5, V6, RE, GE, BE.
    reflexivity.
Qed.

Lemma rgb_bytes_survive_the_hex_text_witness :
  sixHexDigits (stripHash (rgbToHex (Z2F 52) (Z2F 152) (Z2F 219))) = true
  /\ hexToRgb (rgbToHex (Z2F 52) (Z2F 152) (Z2F 219))
     = {| r := Z2F 52; g := Z2F 152; b := Z2F 219 |}.
Proof.
  apply (rgb_bytes_survive_the_hex_text 52 152 219); unfold isByte; lia.
Defined.

(* ================================================================== *)
(** * The contrast colour in the browser *)
(* ================================================================== *)

Lemma parseInt_Number_pair (c1 c2 : ascii) :
  isHexDigit c1 = true -> isHexDigit c2 = true ->
  parseInt_Number (String c1 (String c2 EmptyString)) Radix16 = Z2F (hexPair c1 c2).
Proof.
  intros H1 H2.
  destruct (hexDigit_facts c1 H1) as (W1 & M1 & P1 & _ & _ & _ & _ & B1 & _).
  destruct (hexDigit_facts c2 H2) as (_ & _ & _ & _ & _ & _ & _ & B2 & _).
  unfold parseInt_Number.
  rewrite parseInt_hexRun;
    [| cbn [allHexDigits]; rewrite H1, H2; reflexivity | discriminate].
  cbn [hexRun trimStart]. rewrite W1. cbn [stripSign]. rewrite M1, P1. cbn [fst].
  replace ((0 * 16 + hexValue c1) * 16 + hexValue c2) with (hexPair c1 c2)
    by (unfold hexPair; lia).
  assert (Hp : 0 <= hexPair c1 c2 < 256) by (unfold hexPair; lia).
  destruct (hexPair c1 c2 =? 0) eqn:E0.
  - apply Z.eqb_eq in E0. rewrite E0. reflexivity.
  - unfold roundToNumber.
    assert (Hbits : Z.log2 (Z.abs (hexPair c1 c2)) + 1 <= 53).
    { rewrite Z.abs_eq by lia. apply Z.eqb_neq in E0.
      assert (Z.log2 (hexPair c1 c2) < 8) by (apply Z.log2_lt_pow2; lia). lia. }
    apply Z.leb_le in Hbits. now rewrite Hbits.
Qed.

(** X8.  On [#] followed by six hexadecimal digits, the
    [getContrastColor] of the browser script, which cuts the text into three
    pairs of digits, returns what the [getContrastColor] of
    [colorUtils.js] returns. *)
Theorem browser_contrast_agrees_with_server :
  forall s : string,
    sixHexDigits s = true ->
    Frontend.getContrastColor ("#" ++ s) = getContrastColor ("#" ++ s).
Proof.
  intros s Hs.
  destruct (sixHexDigits_inv s Hs) as (c1 & c2 & c3 & c4 & c5 & c6 & -> & H1 & H2 & H3 & H4 & H5 & H6).
  destruct (hexToRgb_six c1 c2 c3 c4 c5 c6 H1 H2 H3 H4 H5 H6) as [_ E]. cbv zeta in E.
  unfold getContrastColor, Frontend.getContrastColor.
  change ("#" ++ ?t) with (String "#" t). rewrite E. cbn [r g b].
  change (Frontend.slice (String "#" (String c1 (String c2 (String c3 (String c4 (String c5 (String c6 EmptyString))))))) 1 3)
    with (String c1 (String c2 EmptyString)).
  change (Frontend.slice (String "#" (String c1 (String c2 (String c3 (String c4 (String c5 (String c6 EmptyString))))))) 3 5)
    with (String c3 (String c4 EmptyString)).
  change (Frontend.slice (String "#" (String c1 (String c2 (String c3 (String c4 (String c5 (String c6 EmptyString))))))) 5 7)
    with (String c5 (String c6 EmptyString)).
  now rewrite !parseInt_Number_pair by assumption.
Qed.

Lemma browser_contrast_agrees_with_server_witness :
  Frontend.getContrastColor ("#" ++ "3498db") = getContrastColor ("#" ++ "3498db").
Proof. apply (browser_contrast_agrees_with_server "3498db"). reflexivity. Defined.

(* ================================================================== *)
(** * The HTTP handlers *)
(* ================================================================== *)

Lemma respond_returns random opts n :
  exists p n',
    respond random opts n = (Json p, n')
    /\ generatePalette random opts n = (Some p, n').
Proof.
  destruct (generatePalette_returns random opts n) as (p & n' & E & _).
  exists p, n'. split; [|exact E]. unfold respond, bind, ret. now rewrite E.
Qed.







Lemma removeFirst_noHash (s : string) : noHash s = true -> removeFirst "#" s = s.
Proof.
  induction s as [|c s IH]; intros H; [reflexivity|].
  cbn [noHash] in H. apply andb_prop in H. destruct H as [Hc Hs].
  apply negb_true_iff in Hc. cbn [removeFirst]. rewrite Hc. now rewrite IH.
Qed.

(** X12.  Both routes answer the same for a [baseColor] parameter
    written with a leading [#] and without it (the text being non-empty and
    holding no other [#]). *)
Theorem base_colour_with_or_without_hash :
  forall (random : nat -> float) (name s : string) (query : Query) (n : nat),
    noHash s = true ->
    s <> EmptyString ->
    getPaletteByHarmony random name (set_baseColor query (Text ("#" ++ s))) n
    = getPaletteByHarmony random name (set_baseColor query (Text s)) n
    /\ getPalette random (set_baseColor query (Text ("#" ++ s))) n
       = getPalette random (set_baseColor query (Text s)) n.
Proof.
  intros random name s query n Hs Hne.
  assert (E : baseColorOption (Text ("#" ++ s)) = baseColorOption (Text s)).
  { unfold baseColorOption, textOf. change ("#" ++ s) with (String "#" s).
    cbn [truthy removeFirst]. change ("#" =? "#")%char with true. cbv iota.
    destruct s as [|c s']; [congruence|]. cbn [truthy].
    now rewrite (removeFirst_noHash _ Hs). }
  unfold getPaletteByHarmony, getPalette. cbn [set_baseColor q_baseColor q_count q_harmony q_angle].
  now rewrite E.
Qed.

Lemma base_colour_with_or_without_hash_witness :
  getPaletteByHarmony half "triadic" (set_baseColor noQuery (Text ("#" ++ "3498db"))) 0%nat
  = getPaletteByHarmony half "triadic" (set_baseColor noQuery (Text "3498db")) 0%nat
  /\ getPalette half (set_baseColor noQuery (Text ("#" ++ "3498db"))) 0%nat
     = getPalette half (set_baseColor noQuery (Text "3498db")) 0%nat.
Proof.
  apply (base_colour_with_or_without_hash half "triadic" "3498db" noQuery 0%nat).
  - reflexivity.
  - discriminate.
Defined.

(* ================================================================== *)
(** * An angle that is not a number *)
(* ================================================================== *)







(* ================================================================== *)
(** * Arithmetic and order on integer Numbers *)
(* ================================================================== *)

Lemma binary_normalize_exact_neg (z e : Z) :
  Z.abs z < 2 ^ 53 -> e <= 0 ->
  binary_normalize prec emax (z * 2 ^ (- e)) e false = canonical z.
Proof.
  intros Hz He. rewrite <- (Z.opp_involutive e) at 2.
  apply binary_normalize_exact; lia.
Qed.

(** [a + b] for integer Numbers. *)
Lemma Number_add_exact (a b : Z) :
  Z.abs a < 2 ^ 53 -> Z.abs b < 2 ^ 53 -> Z.abs (a + b) < 2 ^ 53 ->
  (Z2F a + Z2F b)%float = Z2F (a + b).
Proof.
  intros Ha Hb Hab.
  rewrite <- (SF2Prim_Prim2SF (Z2F a + Z2F b)%float).
  rewrite add_spec, !Prim2SF_Z2F by lia.
  rewrite (Z2F_canonical (a + b)) by lia. f_equal.
  destruct (Z.eq_dec a 0) as [->|Hna]; [|destruct (Z.eq_dec b 0) as [->|Hnb]].
  - destruct b; reflexivity.
  - rewrite Z.add_0_r. destruct a; reflexivity.
  - destruct (canonical_pos_neg a Hna) as (va & Habs_a & ->).
    destruct (canonical_pos_neg b Hnb) as (vb & Habs_b & ->).
    set (da := Zpos (digits2_pos va)). set (db := Zpos (digits2_pos vb)).
    assert (Hda : 1 <= da <= 53) by (unfold da; split; [lia | apply digits_le_53; lia]).
    assert (Hdb : 1 <= db <= 53) by (unfold db; split; [lia | apply digits_le_53; lia]).
    unfold SF64add, SFadd.
    set (e0 := Z.min (da - 53) (db - 53)).
    assert (He0 : e0 <= da - 53 /\ e0 <= db - 53 /\ e0 <= 0) by (unfold e0; lia).
    rewrite !shl_align_fst by lia. rewrite !shl_shl by lia.
    assert (Hpow : 0 < 2 ^ (- e0)) by (apply Z.pow_pos_nonneg; lia).
    assert (HX : forall (z : Z) (v : positive) (d : Z),
               Z.abs z = Zpos v -> e0 <= d - 53 -> d <= 53 ->
               cond_Zopp (z <? 0) (Zpos (shl v (53 - d + (d - 53 - e0)))) = z * 2 ^ (- e0)).
    { intros z v d Hv H1 H2. rewrite shl_Z by lia.
      replace (53 - d + (d - 53 - e0)) with (- e0) by lia.
      unfold cond_Zopp. destruct (z <? 0) eqn:Hs.
      - apply Z.ltb_lt in Hs. lia.
      - apply Z.ltb_ge in Hs. lia. }
    rewrite (HX a va da), (HX b vb db) by lia.
    rewrite <- Z.mul_add_distr_r.
    apply binary_normalize_exact_neg; lia.
Qed.

Lemma SFsub_SFadd (x y : spec_float) :
  SFsub prec emax x y = SFadd prec emax x (SFopp y).
Proof.
  destruct x as [sx|sx| |sx mx ex], y as [sy|sy| |sy my ey]; cbn [SFsub SFadd SFopp];
    try reflexivity.
  - now destruct sx, sy.
  - now destruct sx, sy.
  - f_equal. destruct sy; cbn [cond_Zopp negb]; lia.
Qed.

Lemma Number_sub_add (x y : float) : (x - y)%float = (x + - y)%float.
Proof.
  rewrite <- (SF2Prim_Prim2SF (x - y)%float), <- (SF2Prim_Prim2SF (x + - y)%float).
  rewrite sub_spec, add_spec, opp_spec. f_equal. apply SFsub_SFadd.
Qed.

Lemma Z2F_opp (z : Z) : Z.abs z < 2 ^ 53 -> z <> 0 -> (- Z2F z)%float = Z2F (- z).
Proof.
  intros Hz Hnz. rewrite <- (SF2Prim_Prim2SF (- Z2F z)%float), opp_spec.
  rewrite Prim2SF_Z2F by lia.
  rewrite (Z2F_canonical (- z)) by lia. f_equal. now destruct z.
Qed.

(** [a - b] for integer Numbers. *)
Lemma Number_sub_exact (a b : Z) :
  Z.abs a < 2 ^ 53 -> Z.abs b < 2 ^ 53 -> Z.abs (a - b) < 2 ^ 53 ->
  (Z2F a - Z2F b)%float = Z2F (a - b).
Proof.
  intros Ha Hb Hab. destruct (Z.eq_dec b 0) as [->|Hnb].
  - rewrite Z.sub_0_r. rewrite <- (SF2Prim_Prim2SF (Z2F a - Z2F 0)%float), sub_spec.
    rewrite !Prim2SF_Z2F by lia. rewrite (Z2F_canonical a) by lia. f_equal.
    now destruct a.
  - rewrite Number_sub_add, Z2F_opp by lia.
    rewrite Number_add_exact by lia. f_equal.
Qed.

(** The order of two integer Numbers is the order of the integers. *)
Lemma canonical_compare_pos (va vb : positive) :
  Zpos va < 2 ^ 53 -> Zpos vb < 2 ^ 53 ->
  match Zpos (digits2_pos va) - 53 ?= Zpos (digits2_pos vb) - 53 with
  | Lt => Lt
  | Gt => Gt
  | Eq => Pos.compare_cont Eq (shl va (53 - Zpos (digits2_pos va)))
                              (shl vb (53 - Zpos (digits2_pos vb)))
  end = (Zpos va ?= Zpos vb).
Proof.
  intros Ha Hb.
  pose proof (digits_bounds va) as [La Ua]. pose proof (digits_bounds vb) as [Lb Ub].
  pose proof (digits_le_53 va Ha) as Da. pose proof (digits_le_53 vb Hb) as Db.
  set (da := Zpos (digits2_pos va)) in *. set (db := Zpos (digits2_pos vb)) in *.
  destruct (Z.compare_spec (da - 53) (db - 53)) as [E|L|G].
  - assert (Ed : da = db) by lia.
    change (Pos.compare_cont Eq ?x ?y) with (Zpos x ?= Zpos y).
    rewrite !shl_Z, Ed by lia.
    symmetry. apply Zmult_compare_compat_r. apply Z.lt_gt, Z.pow_pos_nonneg; lia.
  - symmetry. apply Z.compare_lt_iff.
    assert (2 ^ da <= 2 ^ (db - 1)) by (apply Z.pow_le_mono_r; lia). lia.
  - symmetry. apply Z.compare_gt_iff.
    assert (2 ^ db <= 2 ^ (da - 1)) by (apply Z.pow_le_mono_r; lia). lia.
Qed.

Lemma canonical_compare (a b : Z) :
  Z.abs a < 2 ^ 53 -> Z.abs b < 2 ^ 53 ->
  SFcompare (canonical a) (canonical b) = Some (a ?= b).
Proof.
  intros Ha Hb.
  destruct a as [|va|va], b as [|vb|vb]; cbn [canonical SFcompare]; try reflexivity.
  - f_equal. apply canonical_compare_pos; lia.
  - f_equal.
    pose proof (canonical_compare_pos va vb ltac:(lia) ltac:(lia)) as H.
    change (Zneg va ?= Zneg vb) with (CompOpp (Zpos va ?= Zpos vb)). rewrite <- H.
    now destruct (Zpos (digits2_pos va) - 53 ?= Zpos (digits2_pos vb) - 53).
Qed.

Lemma Z2F_ltb (a b : Z) :
  Z.abs a < 2 ^ 53 -> Z.abs b < 2 ^ 53 -> (Z2F a <? Z2F b)%float = (a <? b).
Proof.
  intros Ha Hb. rewrite ltb_spec, !Prim2SF_Z2F by assumption.
  unfold SFltb. rewrite canonical_compare by assumption. unfold Z.ltb.
  now destruct (a ?= b).
Qed.

Lemma Z2F_leb (a b : Z) :
  Z.abs a < 2 ^ 53 -> Z.abs b < 2 ^ 53 -> (Z2F a <=? Z2F b)%float = (a <=? b).
Proof.
  intros Ha Hb. rewrite leb_spec, !Prim2SF_Z2F by assumption.
  unfold SFleb. rewrite canonical_compare by assumption. unfold Z.leb.
  now destruct (a ?= b).
Qed.

Lemma Z2F_eqb (a b : Z) :
  Z.abs a < 2 ^ 53 -> Z.abs b < 2 ^ 53 -> (Z2F a =? Z2F b)%float = (a =? b).
Proof.
  intros Ha Hb. rewrite eqb_spec, !Prim2SF_Z2F by assumption.
  unfold SFeqb. rewrite canonical_compare by assumption.
  destruct (Z.compare_spec a b) as [E|L|G];
    [subst; now rewrite Z.eqb_refl | symmetry; apply Z.eqb_neq; lia ..].
Qed.

Lemma Math_max_integers (a b : Z) :
  Z.abs a < 2 ^ 53 -> Z.abs b < 2 ^ 53 -> Math_max (Z2F a) (Z2F b) = Z2F (Z.max a b).
Proof.
  intros Ha Hb. unfold Math_max. rewrite !Z2F_ltb, Z2F_eqb by assumption.
  destruct (Z.ltb_spec a b); [now rewrite Z.max_r by lia|].
  destruct (Z.ltb_spec b a); [now rewrite Z.max_l by lia|].
  assert (E : a = b) by lia. subst b. rewrite Z.eqb_refl, Z.max_id.
  now destruct (is_neg_zero (Z2F a)).
Qed.

Lemma Math_min_integers (a b : Z) :
  Z.abs a < 2 ^ 53 -> Z.abs b < 2 ^ 53 -> Math_min (Z2F a) (Z2F b) = Z2F (Z.min a b).
Proof.
  intros Ha Hb. unfold Math_min. rewrite !Z2F_ltb, Z2F_eqb by assumption.
  destruct (Z.ltb_spec a b); [now rewrite Z.min_l by lia|].
  destruct (Z.ltb_spec b a); [now rewrite Z.min_r by lia|].
  assert (E : a = b) by lia. subst b. rewrite Z.eqb_refl, Z.min_id.
  now destruct (is_neg_zero (Z2F a)).
Qed.

(* ================================================================== *)
(** * [rgbToHex] on integers of any size *)
(* ================================================================== *)

Lemma toHex_integer (z : Z) :
  Z.abs z < 2 ^ 53 -> toHex (Z2F z) = byteText (clampByte z).
Proof.
  intros Hz. unfold toHex.
  change 255%float with (Z2F 255). change 0%float with (Z2F 0).
  rewrite Math_min_integers by (change (Z.abs 255) with 255; lia).
  rewrite Math_max_integers by (change (Z.abs 0) with 0; lia).
  fold (clampByte z).
  assert (Hb : isByte (clampByte z)) by (unfold isByte, clampByte; lia).
  pose proof (toHex_of_byte _ Hb) as E. unfold toHex in E.
  change 255%float with (Z2F 255) in E. change 0%float with (Z2F 0) in E.
  rewrite Math_min_integers in E by (unfold isByte in Hb; lia).
  rewrite Math_max_integers in E by (unfold isByte in Hb; lia).
  replace (Z.max 0 (Z.min 255 (clampByte z))) with (clampByte z) in E
    by (unfold clampByte; lia).
  exact E.
Qed.

(** X14.  [rgbToHex] clamps: for integer channels of any sign and
    size (below 2^53), the text is [#] and the two hexadecimal digits of each
    channel brought into 0..255, so a channel above 255 prints as [ff] and a
    negative one as [00]. *)
Theorem rgbToHex_clamps_integers :
  forall R G B : Z,
    Z.abs R < 2 ^ 53 -> Z.abs G < 2 ^ 53 -> Z.abs B < 2 ^ 53 ->
    rgbToHex (Z2F R) (Z2F G) (Z2F B)
    = "#" ++ byteText (clampByte R) ++ byteText (clampByte G) ++ byteText (clampByte B).
Proof.
  intros R G B HR HG HB. unfold rgbToHex. now rewrite !toHex_integer by assumption.
Qed.

Lemma rgbToHex_clamps_integers_witness :
  rgbToHex (Z2F 300) (Z2F (-20)) (Z2F 128)
  = "#" ++ byteText (clampByte 300) ++ byteText (clampByte (-20)) ++ byteText (clampByte 128).
Proof.
  apply (rgbToHex_clamps_integers 300 (-20) 128); simpl; lia.
Defined.

(* ================================================================== *)
(** * Turning a hue twice *)
(* ================================================================== *)

Lemma normalizeHue_turn (a b : Z) :
  Z.abs a < 2 ^ 51 -> Z.abs b < 2 ^ 51 ->
  normalizeHue (Z2F a + Z2F b) = Z2F ((a + b) mod 360).
Proof.
  intros Ha Hb.
  assert (2 ^ 51 + 2 ^ 51 = 2 ^ 52) by reflexivity.
  assert (2 ^ 52 < 2 ^ 53) by reflexivity.
  rewrite Number_add_exact by lia. apply normalizeHue_integer. lia.
Qed.

(** X15.  On integer hues [normalizeHue] is idempotent, and turning
    by [b] and then by [c], normalising each time, is turning by [b + c]:
    in particular the complement of the complement is the normalised hue.
    The hue and the turns are integers below 2^50 in magnitude, so that
    every sum is exact. *)
Theorem turns_of_the_hue_add_up :
  forall a b c : Z,
    Z.abs a < 2 ^ 50 -> Z.abs b < 2 ^ 50 -> Z.abs c < 2 ^ 50 ->
    normalizeHue (normalizeHue (Z2F a)) = normalizeHue (Z2F a)
    /\ normalizeHue (normalizeHue (Z2F a + Z2F b) + Z2F c) = normalizeHue (Z2F a + Z2F (b + c))
    /\ normalizeHue (normalizeHue (Z2F a + 180) + 180) = normalizeHue (Z2F a).
Proof.
  intros a b c Ha Hb Hc.
  assert (P50 : 2 ^ 50 + 2 ^ 50 = 2 ^ 51) by reflexivity.
  assert (P51 : 2 ^ 51 + 2 ^ 51 = 2 ^ 52) by reflexivity.
  assert (P52 : 2 ^ 52 + 2 ^ 52 = 2 ^ 53) by reflexivity.
  assert (P0 : 360 < 2 ^ 50) by reflexivity.
  assert (M : forall z, 0 <= z mod 360 < 360) by (intros z; apply Z.mod_pos_bound; lia).
  change 180%float with (Z2F 180).
  pose proof (M a) as Ma. pose proof (M (a + b)) as Mb. pose proof (M (a + 180)) as Mc.
  rewrite !normalizeHue_turn by lia.
  rewrite !normalizeHue_integer by lia.
  repeat split; apply (f_equal Z2F).
  - apply Z.mod_mod. lia.
  - rewrite Z.add_mod_idemp_l by lia. apply (f_equal (fun z => z mod 360)). lia.
  - rewrite Z.add_mod_idemp_l by lia.
    replace (a + 180 + 180) with (a + 1 * 360) by lia. apply Z.mod_add. lia.
Qed.

Lemma turns_of_the_hue_add_up_witness :
  normalizeHue (normalizeHue (Z2F 350)) = normalizeHue (Z2F 350)
  /\ normalizeHue (normalizeHue (Z2F 350 + Z2F 120) + Z2F 240) = normalizeHue (Z2F 350 + Z2F (120 + 240))
  /\ normalizeHue (normalizeHue (Z2F 350 + 180) + 180) = normalizeHue (Z2F 350).
Proof.
  apply (turns_of_the_hue_add_up 350 120 240); simpl; lia.
Defined.

(* ================================================================== *)
(** * The harmonies with fixed anchor hues *)
(* ================================================================== *)

(** While the loop runs, the array is the anchors followed by one variation
    per index, each of the anchor at [index mod modulus]. *)
Lemma push_while_anchors (anchors : list Hsl) (baseHsl : Hsl) (ds dl lmax : float) (count : Z) :
  anchors <> [] ->
  forall (fuel k : nat),
    exists j : nat,
      push_while fuel count
        (fun colors =>
           {| h := h (nth (Z.to_nat (len colors mod Z.of_nat (List.length anchors))) colors baseHsl);
              s := Math_max 30 (s (nth (Z.to_nat (len colors mod Z.of_nat (List.length anchors))) colors baseHsl) - ds);
              l := Math_min lmax (l (nth (Z.to_nat (len colors mod Z.of_nat (List.length anchors))) colors baseHsl) + dl) |})
        (anchors ++ map (fun n => variationOf ds dl lmax (nth (n mod List.length anchors) anchors baseHsl))
                        (seq (List.length anchors) k))%list
      = (anchors ++ map (fun n => variationOf ds dl lmax (nth (n mod List.length anchors) anchors baseHsl))
                        (seq (List.length anchors) j))%list.
Proof.
  intros Hne. set (m := List.length anchors).
  assert (Hm : (0 < m)%nat) by (unfold m; destruct anchors; [congruence | simpl; lia]).
  induction fuel as [|fuel IH]; intros k; cbn [push_while].
  - now exists k.
  - destruct (len _ <? count); [|now exists k].
    destruct (IH (S k)) as [j Hj]. exists j. rewrite <- Hj. f_equal.
    rewrite seq_S, map_app, app_assoc. f_equal. cbn [map].
    assert (Hlen : len (anchors ++ map (fun n => variationOf ds dl lmax (nth (n mod m) anchors baseHsl))
                                       (seq m k))%list = Z.of_nat (m + k)).
    { unfold len. now rewrite length_app, length_map, length_seq. }
    rewrite Hlen.
    assert (Hidx : Z.to_nat (Z.of_nat (m + k) mod Z.of_nat m) = ((m + k) mod m)%nat).
    { rewrite <- Nat2Z.inj_mod. apply Nat2Z.id. }
    rewrite Hidx.
    assert (Hlt : ((m + k) mod m < m)%nat) by (apply Nat.mod_upper_bound; lia).
    rewrite app_nth1 by exact Hlt. reflexivity.
Qed.

Lemma anchored_nth (offsets : list float) (modulus : Z) (ds dl lmax : float)
    (baseHsl : Hsl) (count : Z) (n : nat) :
  modulus = Z.of_nat (S (List.length offsets)) ->
  (n < Z.to_nat count)%nat ->
  nth_error (anchored offsets modulus ds dl lmax baseHsl count) n
  = Some (if (n <? List.length (anchorsOf offsets baseHsl))%nat
          then nth n (anchorsOf offsets baseHsl) baseHsl
          else variationOf ds dl lmax
                 (nth (n mod List.length (anchorsOf offsets baseHsl)) (anchorsOf offsets baseHsl)
                    baseHsl)).
Proof.
  intros Hmod Hn. subst modulus.
  assert (Hm : List.length (anchorsOf offsets baseHsl) = S (List.length offsets))
    by (unfold anchorsOf; cbn [List.length]; now rewrite length_map).
  assert (Hne : anchorsOf offsets baseHsl <> []) by (unfold anchorsOf; discriminate).
  pose proof (anchored_length offsets (Z.of_nat (S (List.length offsets))) ds dl lmax baseHsl count
                ltac:(lia)) as Hlen.
  unfold anchored, while_push in Hlen |- *.
  fold (anchorsOf offsets baseHsl) in Hlen |- *.
  rewrite <- Hm in Hlen |- *.
  generalize dependent (anchorsOf offsets baseHsl). intros anchors _ Hne Hlen.
  destruct (push_while_anchors anchors baseHsl ds dl lmax count Hne (Z.to_nat count) 0) as [j Hj].
  cbn [seq map] in Hj. rewrite app_nil_r in Hj. rewrite Hj in Hlen |- *.
  rewrite slice0_firstn in Hlen |- * by lia. rewrite length_firstn in Hlen.
  rewrite nth_error_firstn. replace (n <? Z.to_nat count)%nat with true
    by (symmetry; apply Nat.ltb_lt; exact Hn).
  rewrite length_app, length_map, length_seq in Hlen.
  destruct (n <? List.length anchors)%nat eqn:E.
  - apply Nat.ltb_lt in E. rewrite nth_error_app1 by exact E.
    now apply nth_error_nth'.
  - apply Nat.ltb_ge in E. rewrite nth_error_app2 by exact E.
    rewrite nth_error_map, nth_error_seq.
    replace (n - List.length anchors <? j)%nat with true by (symmetry; apply Nat.ltb_lt; lia).
    cbn [option_map]. now replace (List.length anchors + (n - List.length anchors))%nat with n by lia.
Qed.

(** X16.  The five harmonies with fixed hue offsets (triadic,
    split-complementary, tetradic, square, double-complementary) return, at
    index [n] below [count]: the base for [n = 0]; for [n] up to the number
    of offsets, the base with the hue turned by the [n]-th offset; and from
    then on a variation of the anchor at index [n mod m] ([m] anchors), with
    the anchor's hue, its saturation lowered by [ds] but not below 30 and its
    lightness raised by [dl] but not above [lmax].  A variation is never a
    variation of a variation. *)
Theorem fixed_anchor_harmonies :
  forall (row : AnchorRow) (baseHsl : Hsl) (count : Z) (n : nat),
    In row anchorTable ->
    (n < Z.to_nat count)%nat ->
    nth_error (a_strategy row baseHsl count) n = Some (anchoredColour row baseHsl n).
Proof.
  intros row baseHsl count n Hrow Hn. unfold anchoredColour.
  cbn [In anchorTable] in Hrow.
  repeat (destruct Hrow as [<-|Hrow]; [apply anchored_nth; [reflexivity | exact Hn]|]).
  contradiction.
Qed.

Lemma fixed_anchor_harmonies_witness :
  nth_error (generateTriadic {| h := 204; s := 70; l := 53 |} 6) 4
  = Some (anchoredColour {| a_strategy := generateTriadic; a_offsets := [120; 240];
                            a_ds := 15; a_dl := 15; a_lmax := 75 |}
            {| h := 204; s := 70; l := 53 |} 4).
Proof.
  apply (fixed_anchor_harmonies
           {| a_strategy := generateTriadic; a_offsets := [120; 240];
              a_ds := 15; a_dl := 15; a_lmax := 75 |}
           {| h := 204; s := 70; l := 53 |} 6 4).
  - left. reflexivity.
  - simpl. lia.
Defined.

Lemma anchoredColour_hue (row : AnchorRow) (baseHsl : Hsl) (hz : Z) (n : nat) :
  Forall (fun o => Z.abs o < 2 ^ 51) (a_offsets row) ->
  h baseHsl = Z2F hz -> Z.abs hz < 2 ^ 51 ->
  h (anchoredColour row baseHsl n) = Z2F (anchoredHue row hz n).
Proof.
  intros Hoff Hh Hz. unfold anchoredColour, anchoredHue.
  set (offs := a_offsets row) in *.
  set (m := S (List.length offs)).
  assert (Hm : List.length (anchorsOf (map Z2F offs) baseHsl) = m)
    by (unfold anchorsOf; cbn [List.length]; now rewrite !length_map).
  rewrite Hm.
  assert (Hanchor : forall i, (i < m)%nat ->
            h (nth i (anchorsOf (map Z2F offs) baseHsl) baseHsl)
            = Z2F match i with O => hz | S i' => (hz + nth i' offs 0) mod 360 end).
  { intros [|i] Hi; unfold anchorsOf; cbn [nth]; [exact Hh|].
    assert (Hi' : (i < List.length offs)%nat) by (unfold m in Hi; lia).
    rewrite (nth_indep _ baseHsl (with_h baseHsl (normalizeHue (h baseHsl + Z2F 0)))) 
      by (now rewrite !length_map).
    rewrite (map_nth (fun off => with_h baseHsl (normalizeHue (h baseHsl + off)))).
    rewrite (map_nth Z2F). cbn [with_h h]. rewrite Hh.
    apply normalizeHue_turn; [exact Hz|].
    rewrite Forall_forall in Hoff. apply Hoff. now apply nth_In. }
  destruct (n <? m)%nat eqn:E.
  - apply Nat.ltb_lt in E. rewrite Nat.mod_small by exact E. now apply Hanchor.
  - cbn [variationOf h]. apply Hanchor. apply Nat.mod_upper_bound. unfold m. lia.
Qed.

(** X17.  For a base hue that is an integer [hz] below 2^51 in
    magnitude (so that the sums are exact), the hue at
    index [n] of a triadic, split-complementary, tetradic, square or
    double-complementary palette is [hz] itself when [n] is a multiple of the
    number of anchors, and otherwise [(hz + offset) mod 360] for the offset
    of the anchor at [n mod m]: 120 and 240 for triadic, 150 and 210 for
    split-complementary, 60, 180, 240 for tetradic, 90, 180, 270 for square,
    30, 180, 210 for double-complementary. *)
Theorem fixed_anchor_hues :
  forall (row : AnchorRow) (baseHsl : Hsl) (hz count : Z) (n : nat),
    In row anchorTable ->
    h baseHsl = Z2F hz ->
    Z.abs hz < 2 ^ 51 ->
    (n < Z.to_nat count)%nat ->
    nth_error (map h (a_strategy row baseHsl count)) n = Some (Z2F (anchoredHue row hz n)).
Proof.
  intros row baseHsl hz count n Hrow Hh Hz Hn.
  assert (Hoff : Forall (fun o => Z.abs o < 2 ^ 51) (a_offsets row)).
  { cbn [In anchorTable] in Hrow.
    repeat (destruct Hrow as [<-|Hrow];
            [cbn [a_offsets]; repeat constructor; reflexivity|]).
    contradiction. }
  rewrite nth_error_map.
  assert (E : nth_error (a_strategy row baseHsl count) n = Some (anchoredColour row baseHsl n)).
  { unfold anchoredColour. cbn [In anchorTable] in Hrow.
    repeat (destruct Hrow as [<-|Hrow]; [apply anchored_nth; [reflexivity | exact Hn]|]).
    contradiction. }
  rewrite E. cbn [option_map]. f_equal. now apply anchoredColour_hue.
Qed.

Lemma fixed_anchor_hues_witness :
  nth_error (map h (generateTriadic {| h := Z2F 300; s := 70; l := 53 |} 6)) 5
  = Some (Z2F (anchoredHue {| a_strategy := generateTriadic; a_offsets := [120; 240];
                               a_ds := 15; a_dl := 15; a_lmax := 75 |} 300 5)).
Proof.
  apply (fixed_anchor_hues
           {| a_strategy := generateTriadic; a_offsets := [120; 240];
              a_ds := 15; a_dl := 15; a_lmax := 75 |}
           {| h := Z2F 300; s := 70; l := 53 |} 300 6 5).
  - left. reflexivity.
  - reflexivity.
  - simpl. lia.
  - simpl. lia.
Defined.

(* ================================================================== *)
(** * The complementary harmony *)
(* ================================================================== *)

Lemma push_while_complementary (baseHsl complement : Hsl) (count : Z) :
  forall (fuel k : nat),
    exists j : nat,
      push_while fuel count
        (fun colors =>
           {| h := h (if len colors mod 2 =? 0 then baseHsl else complement);
              s := Math_max 20 (s (if len colors mod 2 =? 0 then baseHsl else complement)
                                - Z2F (len colors * 10));
              l := Math_min 80 (l (if len colors mod 2 =? 0 then baseHsl else complement)
                                + Z2F (len colors * 8)) |})
        ([baseHsl; complement]
         ++ map (fun n => {| h := h (if Z.of_nat n mod 2 =? 0 then baseHsl else complement);
                             s := Math_max 20 (s (if Z.of_nat n mod 2 =? 0 then baseHsl else complement)
                                               - Z2F (Z.of_nat n * 10));
                             l := Math_min 80 (l (if Z.of_nat n mod 2 =? 0 then baseHsl else complement)
                                               + Z2F (Z.of_nat n * 8)) |})
                (seq 2 k))%list
      = ([baseHsl; complement]
         ++ map (fun n => {| h := h (if Z.of_nat n mod 2 =? 0 then baseHsl else complement);
                             s := Math_max 20 (s (if Z.of_nat n mod 2 =? 0 then baseHsl else complement)
                                               - Z2F (Z.of_nat n * 10));
                             l := Math_min 80 (l (if Z.of_nat n mod 2 =? 0 then baseHsl else complement)
                                               + Z2F (Z.of_nat n * 8)) |})
                (seq 2 j))%list.
Proof.
  induction fuel as [|fuel IH]; intros k; cbn [push_while].
  - now exists k.
  - destruct (len _ <? count); [|now exists k].
    destruct (IH (S k)) as [j Hj]. exists j. rewrite <- Hj. f_equal.
    rewrite seq_S, map_app, app_assoc. f_equal. cbn [map].
    assert (Hlen : forall f : nat -> Hsl,
               len ([baseHsl; complement] ++ map f (seq 2 k))%list = Z.of_nat (2 + k)).
    { intros f. unfold len. now rewrite length_app, length_map, length_seq. }
    rewrite !Hlen. reflexivity.
Qed.

Lemma complementary_nth (baseHsl : Hsl) (count : Z) (n : nat) :
  (n < Z.to_nat count)%nat ->
  nth_error (generateComplementary baseHsl count) n = Some (complementaryColour baseHsl n).
Proof.
  intros Hn.
  pose proof (generateComplementary_length baseHsl count ltac:(lia)) as Hlen.
  unfold generateComplementary, while_push in Hlen |- *.
  set (complement := with_h baseHsl (normalizeHue (h baseHsl + 180))) in *.
  destruct (push_while_complementary baseHsl complement count (Z.to_nat count) 0) as [j Hj].
  cbn [seq map app] in Hj. cbv zeta. rewrite Hj in Hlen |- *.
  rewrite slice0_firstn in Hlen |- * by lia. rewrite length_firstn in Hlen.
  cbn [List.length] in Hlen. rewrite length_map, length_seq in Hlen.
  rewrite nth_error_firstn.
  replace (n <? Z.to_nat count)%nat with true by (symmetry; apply Nat.ltb_lt; exact Hn).
  unfold complementaryColour. fold complement.
  destruct n as [|[|n]]; [reflexivity | reflexivity |].
  cbn [nth_error]. rewrite nth_error_map, nth_error_seq.
  replace (n <? j)%nat with true by (symmetry; apply Nat.ltb_lt; lia).
  cbn [option_map]. reflexivity.
Qed.

(** X18.  The complementary harmony returns the base, its
    complement (the base with the hue turned by 180), and from index 2 on
    variations that take hue, saturation and lightness from the base at even
    indices and from the complement at odd ones, the saturation lowered by
    ten times the index but not below 20 and the lightness raised by eight
    times the index but not above 80. *)
Theorem complementary_alternates :
  forall (baseHsl : Hsl) (count : Z) (n : nat),
    (n < Z.to_nat count)%nat ->
    nth_error (generateComplementary baseHsl count) n = Some (complementaryColour baseHsl n).
Proof.
  intros baseHsl count n Hn. apply complementary_nth. exact Hn.
Qed.

Lemma complementary_alternates_witness :
  nth_error (generateComplementary {| h := 204; s := 70; l := 53 |} 5) 3
  = Some (complementaryColour {| h := 204; s := 70; l := 53 |} 3).
Proof.
  apply (complementary_alternates {| h := 204; s := 70; l := 53 |} 5 3). simpl. lia.
Defined.

(* ================================================================== *)
(** * The custom and the analogous harmony *)
(* ================================================================== *)

(** [a * b] for integer Numbers. *)
Lemma Number_mul_exact (a b : Z) :
  0 < b -> Z.abs a < 2 ^ 53 -> Z.abs b < 2 ^ 53 -> Z.abs (a * b) < 2 ^ 53 ->
  (Z2F a * Z2F b)%float = Z2F (a * b).
Proof.
  intros Hb0 Ha Hb Hab.
  rewrite <- (SF2Prim_Prim2SF (Z2F a * Z2F b)%float).
  rewrite mul_spec, !Prim2SF_Z2F by lia.
  rewrite (Z2F_canonical (a * b)) by lia. f_equal.
  destruct (Z.eq_dec a 0) as [->|Hna].
  - destruct b; try lia. reflexivity.
  - assert (Hnb : b <> 0) by lia.
    assert (Hnab : a * b <> 0) by nia.
    destruct (canonical_pos_neg a Hna) as (va & Habs_a & ->).
    destruct (canonical_pos_neg b Hnb) as (vb & Habs_b & ->).
    destruct (canonical_pos_neg (a * b) Hnab) as (v & Habs & ->).
    assert (Hv : Zpos v = Zpos va * Zpos vb) by (rewrite <- Habs_a, <- Habs_b, <- Z.abs_mul; lia).
    set (da := Zpos (digits2_pos va)) in *. set (db := Zpos (digits2_pos vb)) in *.
    set (dv := Zpos (digits2_pos v)) in *.
    pose proof (digits_bounds va) as [La Ua]. pose proof (digits_bounds vb) as [Lb Ub].
    pose proof (digits_bounds v) as [Lv Uv]. fold da in La, Ua. fold db in Lb, Ub. fold dv in Lv, Uv.
    assert (Hda : 1 <= da <= 53) by (unfold da; split; [lia | apply digits_le_53; lia]).
    assert (Hdb : 1 <= db <= 53) by (unfold db; split; [lia | apply digits_le_53; lia]).
    assert (Hdv : 1 <= dv <= 53) by (unfold dv; split; [lia | apply digits_le_53; lia]).
    assert (Hlow : da + db - 2 < dv).
    { apply (Z.pow_lt_mono_r_iff 2); [lia | lia |].
      replace (da + db - 2) with ((da - 1) + (db - 1)) by lia.
      rewrite Z.pow_add_r by lia.
      assert (0 < 2 ^ (da - 1)) by (apply Z.pow_pos_nonneg; lia).
      assert (0 < 2 ^ (db - 1)) by (apply Z.pow_pos_nonneg; lia).
      nia. }
    unfold SF64mul, SFmul.
    replace (xorb (a <? 0) (b <? 0)) with (a * b <? 0).
    2:{ replace (b <? 0) with false by (symmetry; apply Z.ltb_ge; lia).
        rewrite xorb_false_r.
        destruct (Z.ltb_spec a 0), (Z.ltb_spec (a * b) 0); try reflexivity; nia. }
    set (p := 53 + dv - da - db).
    assert (Hp : 0 < p) by (unfold p; lia).
    assert (Em : (shl va (53 - da) * shl vb (53 - db))%positive
                 = Pos.iter xO (shl v (53 - dv)) (Z.to_pos p)).
    { apply Pos2Z.inj. rewrite Pos2Z.inj_mul, Pos_iter_xO_Z, !shl_Z by lia.
      rewrite Z2Pos.id by lia. rewrite Hv. unfold p.
      replace (53 + dv - da - db) with ((53 - da) + (53 - db) - (53 - dv)) by lia.
      assert (E : 2 ^ (53 - da) * 2 ^ (53 - db) = 2 ^ (53 - dv) * 2 ^ (53 - da + (53 - db) - (53 - dv))).
      { rewrite <- !Z.pow_add_r by lia. f_equal. lia. }
      nia. }
    rewrite Em.
    replace (da - 53 + (db - 53)) with ((dv - 53) - Zpos (Z.to_pos p))
      by (rewrite Z2Pos.id by lia; unfold p; lia).
    apply round_aux_shifted; [|lia].
    unfold dv. rewrite digits_shl by (fold dv; lia). fold dv. lia.
Qed.

Lemma nth_error_for_push (count : Z) (body : Z -> Hsl) (baseHsl : Hsl) (n : nat) :
  (n < Z.to_nat count)%nat ->
  nth_error (slice0 (for_push count body [baseHsl]) count) n
  = Some match n with O => baseHsl | S _ => body (Z.of_nat n) end.
Proof.
  intros Hn. rewrite slice0_firstn by lia. unfold for_push. rewrite nth_error_firstn.
  replace (n <? Z.to_nat count)%nat with true by (symmetry; apply Nat.ltb_lt; exact Hn).
  destruct n as [|n]; [reflexivity|].
  cbn [app nth_error]. rewrite nth_error_map, nth_error_seq.
  replace (n <? Z.to_nat count - 1)%nat with true by (symmetry; apply Nat.ltb_lt; lia).
  reflexivity.
Qed.

(** X19.  With an integer angle [a] below 2^40 in magnitude, an
    integer base hue [hz] below 2^50 in magnitude and at most 1024 colours
    (so that products and sums are exact), the custom harmony gives the
    colour at index [n >= 1] the hue [(hz + a * n) mod 360]; the colour at
    index 0 is the base. *)
Theorem custom_hues_step_by_the_angle :
  forall (baseHsl : Hsl) (hz a count : Z) (n : nat),
    h baseHsl = Z2F hz ->
    Z.abs hz < 2 ^ 50 ->
    Z.abs a < 2 ^ 40 ->
    count <= 1024 ->
    (n < Z.to_nat count)%nat ->
    nth_error (map h (generateCustom baseHsl count (Z2F a))) n
    = Some (match n with O => Z2F hz | S _ => Z2F ((hz + a * Z.of_nat n) mod 360) end).
Proof.
  intros baseHsl hz a count n Hh Hz Ha Hc Hn.
  rewrite nth_error_map. unfold generateCustom.
  rewrite nth_error_for_push by exact Hn. cbn [option_map]. f_equal.
  destruct n as [|n]; [exact Hh|]. cbn [h]. rewrite Hh.
  assert (P40 : 2 ^ 40 * 1024 = 2 ^ 50) by reflexivity.
  assert (P50 : 2 ^ 50 < 2 ^ 51) by reflexivity.
  assert (P51 : 2 ^ 51 < 2 ^ 53) by reflexivity.
  assert (Hn' : 0 < Z.of_nat (S n) < 1024) by lia.
  assert (Hprod : Z.abs (a * Z.of_nat (S n)) < 2 ^ 50).
  { rewrite Z.abs_mul. rewrite (Z.abs_eq (Z.of_nat (S n))) by lia. nia. }
  rewrite Number_mul_exact by lia.
  apply normalizeHue_turn; lia.
Qed.

Lemma custom_hues_step_by_the_angle_witness :
  nth_error (map h (generateCustom {| h := Z2F 300; s := 70; l := 53 |} 5 (Z2F 45))) 3
  = Some (Z2F ((300 + 45 * Z.of_nat 3) mod 360)).
Proof.
  apply (custom_hues_step_by_the_angle {| h := Z2F 300; s := 70; l := 53 |} 300 45 5 3);
    [reflexivity | simpl; lia ..].
Defined.

(** X20.  For an integer base hue [hz] below 2^50 in
    magnitude and at most six colours, the analogous harmony turns the hue
    at index 1, 2, 3, 4, 5 by 30, -30, 60, -60, 90 degrees: the hue is
    [(hz + turn) mod 360]. *)
Theorem analogous_hues_fan_out :
  forall (baseHsl : Hsl) (hz count : Z) (n : nat),
    h baseHsl = Z2F hz ->
    Z.abs hz < 2 ^ 50 ->
    count <= 6 ->
    (n < Z.to_nat count)%nat ->
    nth_error (map h (generateAnalogous baseHsl count)) n
    = Some (match n with
            | O => Z2F hz
            | S _ => Z2F ((hz + analogousTurn (Z.of_nat n)) mod 360)
            end).
Proof.
  intros baseHsl hz count n Hh Hz Hc Hn.
  rewrite nth_error_map. unfold generateAnalogous. cbv zeta.
  rewrite nth_error_for_push by exact Hn. cbn [option_map]. f_equal.
  destruct n as [|n]; [exact Hh|]. cbn [h]. rewrite Hh.
  assert (P50 : 2 ^ 50 < 2 ^ 51) by reflexivity.
  assert (Hn5 : (n < 5)%nat) by lia.
  destruct n as [|[|[|[|[|n]]]]]; try lia.
  - change (30 * Math_ceil (Z2F (Z.of_nat 1) / 2) * _)%float with (Z2F 30).
    apply normalizeHue_turn; [lia | reflexivity].
  - change (30 * Math_ceil (Z2F (Z.of_nat 2) / 2) * _)%float with (Z2F (-30)).
    apply normalizeHue_turn; [lia | reflexivity].
  - change (30 * Math_ceil (Z2F (Z.of_nat 3) / 2) * _)%float with (Z2F 60).
    apply normalizeHue_turn; [lia | reflexivity].
  - change (30 * Math_ceil (Z2F (Z.of_nat 4) / 2) * _)%float with (Z2F (-60)).
    apply normalizeHue_turn; [lia | reflexivity].
  - change (30 * Math_ceil (Z2F (Z.of_nat 5) / 2) * _)%float with (Z2F 90).
    apply normalizeHue_turn; [lia | reflexivity].
Qed.

Lemma analogous_hues_fan_out_witness :
  nth_error (map h (generateAnalogous {| h := Z2F 10; s := 70; l := 53 |} 5)) 2
  = Some (Z2F ((10 + analogousTurn (Z.of_nat 2)) mod 360)).
Proof.
  apply (analogous_hues_fan_out {| h := Z2F 10; s := 70; l := 53 |} 10 5 2);
    [reflexivity | simpl; lia ..].
Defined.

(* ================================================================== *)
(** * [Math.round] returns integers *)
(* ================================================================== *)

Lemma shr_1_m (r : shr_record) : 0 <= shr_m r -> shr_m (shr_1 r) = shr_m r / 2.
Proof.
  destruct r as [m r s]. cbn [shr_m shr_1]. intros Hm.
  destruct m as [|[p|p|]|p]; cbn [shr_m]; try lia; try reflexivity;
    rewrite <- Z.div2_div; reflexivity.
Qed.

Lemma shr_iter_m (n : nat) (r : shr_record) :
  0 <= shr_m r -> shr_m (Nat.iter n shr_1 r) = shr_m r / 2 ^ Z.of_nat n.
Proof.
  intros Hr. induction n as [|n IH].
  - change (Nat.iter 0 shr_1 r) with r. now rewrite Z.div_1_r.
  - change (Nat.iter (S n) shr_1 r) with (shr_1 (Nat.iter n shr_1 r)). rewrite shr_1_m.
    + rewrite IH, Nat2Z.inj_succ, Z.pow_succ_r, Z.div_div by lia.
      f_equal. lia.
    + rewrite IH. apply Z.div_pos; [exact Hr | apply Z.pow_pos_nonneg; lia].
Qed.

(** Rounding a value between 2^52 and 2^53, where binary64 holds the
    integers only: the result is the integer part or the next integer. *)
Lemma binary_round_unit (sx : bool) (M : positive) (e : Z) :
  e < 0 -> 2 ^ (52 - e) <= Zpos M < 2 ^ (53 - e) ->
  exists K : Z,
    (K = Zpos M / 2 ^ (- e) \/ K = Zpos M / 2 ^ (- e) + 1)
    /\ 2 ^ 52 <= Zpos M / 2 ^ (- e) < 2 ^ 53
    /\ SF2Prim (binary_round prec emax sx M e) = Z2F (if sx then - K else K).
Proof.
  intros He [Hlo Hhi].
  assert (Hpow : 0 < 2 ^ (- e)) by (apply Z.pow_pos_nonneg; lia).
  assert (Hq : 2 ^ 52 <= Zpos M / 2 ^ (- e) < 2 ^ 53).
  { replace (52 - e) with (52 + - e) in Hlo by lia.
    replace (53 - e) with (53 + - e) in Hhi by lia.
    rewrite Z.pow_add_r in Hlo, Hhi by lia. split.
    - apply Z.div_le_lower_bound; lia.
    - apply Z.div_lt_upper_bound; lia. }
  assert (Hd : Zpos (digits2_pos M) = 53 - e).
  { apply digits_unique; [|lia]. now replace (53 - e - 1) with (52 - e) by lia. }
  unfold binary_round. rewrite Hd, fexp_eq.
  replace (Z.max (53 - e + e - 53) (-1074)) with 0 by lia.
  unfold shl_align. destruct (0 - e) as [|p|p] eqn:Ep; try lia.
  unfold binary_round_aux. unfold shr_fexp at 1. cbn [Zdigits2 shr_record_of_loc].
  rewrite Hd, fexp_eq. replace (Z.max (53 - e + e - 53) (-1074) - e) with (Zpos p) by lia.
  cbn [shr]. replace (e + Zpos p) with 0 by lia.
  set (rec' := iter_pos shr_1 p {| shr_m := Zpos M; shr_r := false; shr_s := false |}).
  assert (Hm : shr_m rec' = Zpos M / 2 ^ (- e)).
  { unfold rec'. rewrite iter_pos_nat, shr_iter_m by (cbn [shr_m]; lia).
    cbn [shr_m]. rewrite positive_nat_Z. f_equal. f_equal. lia. }
  set (K := round_nearest_even (shr_m rec') (loc_of_shr_record rec')).
  assert (HK : K = Zpos M / 2 ^ (- e) \/ K = Zpos M / 2 ^ (- e) + 1).
  { unfold K, round_nearest_even. rewrite Hm.
    destruct (loc_of_shr_record rec') as [|[| |]]; try destruct (IntDef.Z.even _); auto. }
  exists K. split; [exact HK|]. split; [exact Hq|].
  destruct (Z.eq_dec K (2 ^ 53)) as [E53|N53].
  - rewrite E53. destruct sx; vm_compute; reflexivity.
  - assert (HKr : 2 ^ 52 <= K < 2 ^ 53) by lia.
    destruct K as [|k|k] eqn:EK; try lia.
    assert (Hdk : Zpos (digits2_pos k) = 53) by (apply digits_unique; [exact HKr | lia]).
    unfold shr_fexp. cbn [Zdigits2 shr_record_of_loc]. rewrite Hdk, fexp_eq.
    replace (Z.max (53 + 0 - 53) (-1074) - 0) with 0 by lia.
    cbn [shr shr_m]. change (0 <=? emax - prec) with true. cbv iota.
    assert (Ec : forall z, Z.abs z = Zpos k -> z <> 0 ->
                 canonical z = S754_finite (z <? 0) k 0).
    { intros z Hz Hnz. destruct (canonical_pos_neg z Hnz) as (v & Hv & ->).
      assert (v = k) by lia. subst v. rewrite Hdk. reflexivity. }
    destruct sx.
    + rewrite Z2F_canonical by lia. f_equal. symmetry. apply (Ec (- Zpos k)); lia.
    + rewrite Z2F_canonical by lia. f_equal. symmetry. apply (Ec (Zpos k)); lia.
Qed.

Lemma below_two52_pos (m : positive) :
  Pos.compare_cont Eq m 4503599627370496 = Lt -> Zpos m < 2 ^ 52.
Proof. intros H. exact (Pos2Z.pos_lt_pos m 4503599627370496 H). Qed.

(** A Number below 2^52 in magnitude is a zero or has a negative
    exponent. *)
Lemma below_two52 (x : float) :
  (abs x <? two52)%float = true ->
  (exists s, Prim2SF x = S754_zero s)
  \/ exists s m e, Prim2SF x = S754_finite s m e /\ e < 0 /\ Zpos m < 2 ^ 53.
Proof.
  intros H. rewrite ltb_spec, abs_spec in H. pose proof (Prim2SF_valid x) as V.
  change (Prim2SF two52) with (S754_finite false 4503599627370496 0) in H.
  destruct (Prim2SF x) as [s|s| |s m e].
  - left. now exists s.
  - discriminate.
  - discriminate.
  - right. exists s, m, e. split; [reflexivity|].
    cbn [SpecFloat.valid_binary] in V. unfold bounded, canonical_mantissa in V.
    apply andb_prop in V. destruct V as [V1 V2]. apply Z.eqb_eq in V1.
    rewrite fexp_eq in V1. pose proof (digits_bounds m) as [Lm Um].
    assert (Hd : Zpos (digits2_pos m) <= 53) by lia.
    assert (Hm : Zpos m < 2 ^ 53).
    { assert (2 ^ Zpos (digits2_pos m) <= 2 ^ 53) by (apply Z.pow_le_mono_r; lia). lia. }
    split; [|exact Hm].
    unfold SFltb, SFabs, SFcompare in H.
    destruct (Z.compare_spec e 0) as [E|L|G]; [|exact L|discriminate].
    exfalso. subst e.
    assert (Hd53 : Zpos (digits2_pos m) = 53) by lia.
    rewrite Hd53 in Lm. change (2 ^ (53 - 1)) with (2 ^ 52) in Lm.
    destruct (Pos.compare_cont Eq m 4503599627370496) eqn:C; try discriminate.
    apply below_two52_pos in C. lia.
Qed.

Lemma nearest_even_finite (s : bool) (m : positive) (e : Z) :
  e < 0 -> Zpos m < 2 ^ 53 ->
  valid_binary (S754_finite s m e) = true ->
  exists k : Z,
    (k = Zpos m / 2 ^ (- e) \/ k = Zpos m / 2 ^ (- e) + 1)
    /\ 0 <= Zpos m / 2 ^ (- e) < 2 ^ 52
    /\ nearest_even (SF2Prim (S754_finite s m e)) = Z2F (if s then - k else k).
Proof.
  intros He Hm V.
  assert (Hpow : 0 < 2 ^ (- e)) by (apply Z.pow_pos_nonneg; lia).
  assert (Hpow2 : 2 <= 2 ^ (- e)).
  { change 2 with (2 ^ 1) at 1. apply Z.pow_le_mono_r; lia. }
  destruct (- e) as [|p|p] eqn:Ep; try lia.
  set (M := (m + Pos.iter xO 4503599627370496 p)%positive).
  assert (HM : Zpos M = Zpos m + 2 ^ 52 * 2 ^ Zpos p).
  { unfold M. rewrite Pos2Z.inj_add, Pos_iter_xO_Z. reflexivity. }
  assert (Hb : 2 ^ (52 - e) <= Zpos M < 2 ^ (53 - e)).
  { replace (52 - e) with (52 + Zpos p) by lia. replace (53 - e) with (53 + Zpos p) by lia.
    rewrite !Z.pow_add_r by lia. change (2 ^ 53) with (2 * 2 ^ 52) in *. nia. }
  assert (Hdiv : Zpos M / 2 ^ Zpos p = Zpos m / 2 ^ Zpos p + 2 ^ 52).
  { rewrite HM. apply Z.div_add. lia. }
  assert (Hq : 0 <= Zpos m / 2 ^ Zpos p < 2 ^ 52).
  { split; [apply Z.div_pos; lia|]. apply Z.div_lt_upper_bound; [lia|].
    change (2 ^ 53) with (2 * 2 ^ 52) in Hm. nia. }
  destruct (binary_round_unit s M e He Hb) as (K & HK & HKq & HR).
  rewrite Ep in HK, HKq. rewrite Hdiv in HK, HKq.
  exists (K - 2 ^ 52). split; [lia|]. split; [exact Hq|].
  assert (Ex : Prim2SF (SF2Prim (S754_finite s m e)) = S754_finite s m e)
    by (apply Prim2SF_SF2Prim; exact V).
  assert (Esum : forall sy : bool,
            SFadd prec emax (S754_finite s m e) (S754_finite s 4503599627370496 0)
            = binary_round prec emax s M e).
  { intros _. unfold SFadd. replace (Z.min e 0) with e by lia.
    unfold shl_align. rewrite Z.sub_diag. replace (e - 0) with (Zneg p) by lia.
    cbn [fst]. destruct s; reflexivity. }
  unfold nearest_even. rewrite ltb_spec, Ex.
  change (Prim2SF 0) with (S754_zero false). unfold SFltb, SFcompare.
  destruct s.
  - rewrite <- (SF2Prim_Prim2SF (SF2Prim (S754_finite true m e) - two52)%float).
    rewrite sub_spec, Ex.
    change (Prim2SF two52) with (S754_finite false 4503599627370496 0).
    unfold SF64sub. rewrite SFsub_SFadd. cbn [SFopp negb].
    rewrite (Esum true), HR.
    destruct (Z.eq_dec K (2 ^ 53)) as [E53|N53].
    + rewrite E53. vm_compute. reflexivity.
    + change two52 with (Z2F (2 ^ 52)). rewrite Number_add_exact by lia.
      f_equal. lia.
  - rewrite <- (SF2Prim_Prim2SF (SF2Prim (S754_finite false m e) + two52)%float).
    rewrite add_spec, Ex.
    change (Prim2SF two52) with (S754_finite false 4503599627370496 0).
    unfold SF64add. rewrite (Esum true), HR.
    destruct (Z.eq_dec K (2 ^ 53)) as [E53|N53].
    + rewrite E53. vm_compute. reflexivity.
    + change two52 with (Z2F (2 ^ 52)). rewrite Number_sub_exact by lia.
      reflexivity.
Qed.

Lemma nearest_even_integer (x : float) :
  (abs x <? two52)%float = true ->
  exists k : Z, Z.abs k <= 2 ^ 52 /\ nearest_even x = Z2F k.
Proof.
  intros H. pose proof (Prim2SF_valid x) as V.
  destruct (below_two52 x H) as [[s E]|(s & m & e & E & He & Hm)].
  - exists 0. split; [simpl; lia|].
    rewrite <- (SF2Prim_Prim2SF x), E. destruct s; vm_compute; reflexivity.
  - rewrite E in V.
    destruct (nearest_even_finite s m e He Hm V) as (k & Hk & Hq & Hn).
    rewrite <- (SF2Prim_Prim2SF x), E, Hn.
    exists (if s then - k else k). split; [destruct s; lia | reflexivity].
Qed.

Lemma Math_round_integer (x : float) :
  (abs x <? two52)%float = true -> isInteger (Math_round x).
Proof.
  intros H. unfold Math_round. rewrite H.
  destruct (nearest_even_integer x H) as (k & Hk & ->). cbv zeta.
  assert (P : 2 ^ 52 + 1 < 2 ^ 53) by reflexivity.
  assert (E1 : (Z2F k + 1)%float = Z2F (k + 1)).
  { change 1%float with (Z2F 1). apply Number_add_exact; lia. }
  rewrite E1.
  assert (R : forall r k', Z.abs k' < 2 ^ 53 -> r = Z2F k' ->
            isInteger (if (r =? 0)%float
                       then if (x <? 0)%float || is_neg_zero x then neg_zero else 0%float
                       else r)).
  { intros r k' Hk' ->. destruct (Z2F k' =? 0)%float.
    - destruct ((x <? 0)%float || is_neg_zero x); [now left|].
      right. exists 0. split; [simpl; lia | reflexivity].
    - right. now exists k'. }
  destruct (x - Z2F k =? 0.5)%float.
  - apply (R _ (k + 1)); [lia | reflexivity].
  - apply (R _ k); [lia | reflexivity].
Qed.

(* ================================================================== *)
(** * [rgbToHsl] returns integers *)
(* ================================================================== *)

Lemma Math_round_small (y : float) :
  (abs (Math_round y) <? two52)%float = true -> isInteger (Math_round y).
Proof.
  intros H. destruct (abs y <? two52)%float eqn:T.
  - now apply Math_round_integer.
  - unfold Math_round in H. rewrite T in H. congruence.
Qed.

(** X21.  Each of the three numbers that [rgbToHsl] returns, for
    any three Numbers whatever, is an integer ([-0] included) as soon as it
    is below 2^52 in magnitude; what is left are NaN, the infinities and the
    Numbers from 2^52 on, which [Math.round] returns unchanged. *)
Theorem rgbToHsl_returns_integers :
  forall (r0 g0 b0 x : float),
    In x [h (rgbToHsl r0 g0 b0); s (rgbToHsl r0 g0 b0); l (rgbToHsl r0 g0 b0)] ->
    (abs x <? two52)%float = true ->
    isInteger x.
Proof.
  intros r0 g0 b0 x Hin Hx. unfold rgbToHsl in Hin.
  match type of Hin with
  | context [let '(h, s) := ?e in _] => destruct e as [h0 s0]
  end.
  cbn [h s l In] in Hin.
  destruct Hin as [<-|[<-|[<-|[]]]]; now apply Math_round_small.
Qed.

Lemma rgbToHsl_returns_integers_witness :
  isInteger (h (rgbToHsl 52 152 219)).
Proof.
  apply (rgbToHsl_returns_integers 52 152 219 (h (rgbToHsl 52 152 219))).
  - left. reflexivity.
  - vm_compute. reflexivity.
Defined.

(** A Number between 0 and an integer below 2^52 is below 2^52. *)
Lemma range_below_two52 (x : float) (c : Z) :
  0 <= c < 2 ^ 52 ->
  Number_le 0 x -> Number_le x (Z2F c) -> (abs x <? two52)%float = true.
Proof.
  intros Hc H0 H1. unfold Number_le in *.
  assert (P : 2 ^ 52 < 2 ^ 53) by reflexivity.
  rewrite leb_spec in H0, H1. rewrite Prim2SF_Z2F in H1 by lia.
  rewrite ltb_spec, abs_spec.
  change (Prim2SF 0) with (S754_zero false) in H0.
  change (Prim2SF two52) with (S754_finite false 4503599627370496 0).
  assert (Hcan : c = 0 \/ exists v, c = Zpos v /\ Zpos (digits2_pos v) <= 52
                                   /\ canonical c = S754_finite false (shl v (53 - Zpos (digits2_pos v)))
                                                       (Zpos (digits2_pos v) - 53)).
  { destruct c as [|v|v]; [now left | right | lia]. exists v. split; [reflexivity|]. split.
    - pose proof (digits_bounds v) as [Lv _].
      assert (Zpos (digits2_pos v) - 1 < 52); [|lia].
      apply (Z.pow_lt_mono_r_iff 2); lia.
    - reflexivity. }
  destruct (Prim2SF x) as [sx|sx| |sx m e].
  - reflexivity.
  - destruct sx; [discriminate|].
    destruct Hcan as [->|(v & -> & _ & Ecan)]; [discriminate|].
    rewrite Ecan in H1. discriminate.
  - discriminate.
  - destruct sx; [discriminate|].
    destruct Hcan as [->|(v & -> & Hd & Ecan)]; [discriminate|].
    rewrite Ecan in H1.
    unfold SFleb, SFcompare in H1.
    unfold SFltb, SFabs, SFcompare.
    destruct (Z.compare_spec e (Zpos (digits2_pos v) - 53)) as [E|L|G]; try discriminate;
      (replace (e ?= 0) with Lt by (symmetry; apply Z.compare_lt_iff; lia); reflexivity).
Qed.

Lemma integer_in_range (lo hi : Z) (x : float) :
  lo <= 0 -> 0 <= hi < 2 ^ 52 ->
  isInteger x -> Number_le (Z2F lo) x -> Number_le x (Z2F hi) ->
  Z.abs lo < 2 ^ 52 ->
  isIntegerIn lo hi x.
Proof.
  intros Hlo Hhi [->|(k & Hk & ->)] H0 H1 Hl.
  - left. split; [reflexivity | lia].
  - right. exists k. split; [|reflexivity]. unfold Number_le in *.
    assert (P : 2 ^ 52 < 2 ^ 53) by reflexivity.
    rewrite Z2F_leb in H0, H1 by lia.
    apply Z.leb_le in H0, H1. lia.
Qed.

Lemma rgbToHsl_bytes_whole (R G B : Z) :
  0 <= R <= 255 -> 0 <= G <= 255 -> 0 <= B <= 255 ->
  wholeHsl (rgbToHsl (Z2F R) (Z2F G) (Z2F B)).
Proof.
  intros HR HG HB.
  pose proof (triple_ok_inv _ _ _ (triple_checked R G B HR HG HB)) as T. cbv zeta in T.
  destruct T as ((Hh0 & Hh1) & (Hs0 & Hs1) & (Hl0 & Hl1) & _).
  assert (W : forall x c, 0 <= c < 2 ^ 52 ->
            In x [h (rgbToHsl (Z2F R) (Z2F G) (Z2F B)); s (rgbToHsl (Z2F R) (Z2F G) (Z2F B));
                  l (rgbToHsl (Z2F R) (Z2F G) (Z2F B))] ->
            Number_le 0 x -> Number_le x (Z2F c) -> isIntegerIn 0 c x).
  { intros x c Hc Hin H0 H1.
    assert (Hsmall : (abs x <? two52)%float = true) by (apply (range_below_two52 x c); assumption).
    apply integer_in_range; try lia; try assumption.
    unfold rgbToHsl in Hin.
    match type of Hin with
    | context [let '(h, s) := ?e in _] => destruct e as [h0 s0]
    end.
    cbn [h s l In] in Hin.
    destruct Hin as [<-|[<-|[<-|[]]]]; now apply Math_round_small. }
  assert (P : (360 < 2 ^ 52) /\ (100 < 2 ^ 52)) by (split; reflexivity).
  repeat split.
  - apply W; [lia | left; reflexivity | exact Hh0 | exact Hh1].
  - apply W; [lia | right; left; reflexivity | exact Hs0 | exact Hs1].
  - apply W; [lia | right; right; left; reflexivity | exact Hl0 | exact Hl1].
Qed.

(** X22.  For any text at all, the triple that [hexToHsl] returns
    consists of integers: a hue among 0, 1, ..., 360 and a saturation and a
    lightness among 0, 1, ..., 100. *)
Theorem hexToHsl_returns_integers_in_range :
  forall text : string,
    isIntegerIn 0 360 (h (hexToHsl text))
    /\ isIntegerIn 0 100 (s (hexToHsl text))
    /\ isIntegerIn 0 100 (l (hexToHsl text)).
Proof.
  intros text. unfold hexToHsl.
  destruct (hexToRgb_bytes text) as (R & G & B & -> & HR & HG & HB). cbn [r g b].
  exact (rgbToHsl_bytes_whole R G B HR HG HB).
Qed.

(* ================================================================== *)
(** * Integer triples stay integer triples *)
(* ================================================================== *)

Lemma neg_zero_add (b : Z) : Z.abs b < 2 ^ 53 -> (neg_zero + Z2F b)%float = Z2F b.
Proof.
  intros Hb. rewrite <- (SF2Prim_Prim2SF (neg_zero + Z2F b)%float), add_spec.
  rewrite Prim2SF_Z2F by exact Hb. rewrite (Z2F_canonical b) by exact Hb. f_equal.
  now destruct b.
Qed.

Lemma neg_zero_sub (b : Z) : Z.abs b < 2 ^ 53 -> b <> 0 -> (neg_zero - Z2F b)%float = Z2F (- b).
Proof.
  intros Hb Hnb. rewrite Number_sub_add, Z2F_opp by assumption.
  apply neg_zero_add. lia.
Qed.

(** In sums and differences an integer Number acts as its integer. *)
Lemma integer_add (lo hi : Z) (x : float) (b : Z) :
  isIntegerIn lo hi x -> Z.abs lo < 2 ^ 51 -> Z.abs hi < 2 ^ 51 -> Z.abs b < 2 ^ 51 ->
  exists k, lo <= k <= hi /\ (x + Z2F b)%float = Z2F (k + b).
Proof.
  intros [[-> H0]|(k & Hk & ->)] Hlo Hhi Hb;
    assert (P : 2 ^ 51 + 2 ^ 51 = 2 ^ 52 /\ 2 ^ 52 < 2 ^ 53) by (split; reflexivity).
  - exists 0. split; [exact H0|]. apply neg_zero_add. lia.
  - exists k. split; [exact Hk|]. apply Number_add_exact; lia.
Qed.

Lemma integer_sub (lo hi : Z) (x : float) (b : Z) :
  isIntegerIn lo hi x -> Z.abs lo < 2 ^ 51 -> Z.abs hi < 2 ^ 51 -> Z.abs b < 2 ^ 51 ->
  b <> 0 ->
  exists k, lo <= k <= hi /\ (x - Z2F b)%float = Z2F (k - b).
Proof.
  intros [[-> H0]|(k & Hk & ->)] Hlo Hhi Hb Hnb;
    assert (P : 2 ^ 51 + 2 ^ 51 = 2 ^ 52 /\ 2 ^ 52 < 2 ^ 53) by (split; reflexivity).
  - exists 0. split; [exact H0|]. apply neg_zero_sub; lia.
  - exists k. split; [exact Hk|]. apply Number_sub_exact; lia.
Qed.

Lemma P360 : 360 < 2 ^ 50 /\ 2 ^ 50 < 2 ^ 51 /\ 2 ^ 51 < 2 ^ 52 /\ 2 ^ 52 < 2 ^ 53.
Proof. repeat split; reflexivity. Qed.

(** A turned hue is an integer from 0 to 359. *)
Lemma hue_turned (x : float) (b : Z) :
  isIntegerIn 0 360 x -> Z.abs b < 2 ^ 50 ->
  isIntegerIn 0 360 (normalizeHue (x + Z2F b)).
Proof.
  intros Hx Hb. pose proof P360 as P.
  destruct (integer_add 0 360 x b Hx) as (k & Hk & ->); try (simpl; lia).
  rewrite normalizeHue_integer by lia.
  right. exists ((k + b) mod 360). split; [|reflexivity].
  pose proof (Z.mod_pos_bound (k + b) 360). lia.
Qed.

(** A saturation lowered, but not below a floor. *)
Lemma saturation_lowered (x : float) (b floor : Z) :
  isIntegerIn 0 100 x -> 0 < b <= 1000 -> 0 <= floor <= 100 ->
  isIntegerIn 0 100 (Math_max (Z2F floor) (x - Z2F b)).
Proof.
  intros Hx Hb Hf. pose proof P360 as P.
  destruct (integer_sub 0 100 x b Hx) as (k & Hk & ->); try (simpl; lia).
  rewrite Math_max_integers by lia.
  right. exists (Z.max floor (k - b)). split; [lia | reflexivity].
Qed.

(** A lightness raised, but not above a cap. *)
Lemma lightness_raised (x : float) (b cap : Z) :
  isIntegerIn 0 100 x -> 0 <= b <= 1000 -> 0 <= cap <= 100 ->
  isIntegerIn 0 100 (Math_min (Z2F cap) (x + Z2F b)).
Proof.
  intros Hx Hb Hc. pose proof P360 as P.
  destruct (integer_add 0 100 x b Hx) as (k & Hk & ->); try (simpl; lia).
  rewrite Math_min_integers by lia.
  right. exists (Z.min cap (k + b)). split; [lia | reflexivity].
Qed.

Lemma clamped (x : float) (b floor cap : Z) :
  isIntegerIn 0 100 x -> Z.abs b <= 1000 -> 0 <= floor <= cap -> cap <= 100 ->
  isIntegerIn 0 100 (Math_max (Z2F floor) (Math_min (Z2F cap) (x + Z2F b))).
Proof.
  intros Hx Hb Hf Hc. pose proof P360 as P.
  destruct (integer_add 0 100 x b Hx) as (k & Hk & ->); try (simpl; lia).
  rewrite Math_min_integers, Math_max_integers by lia.
  right. exists (Z.max floor (Z.min cap (k + b))). split; [lia | reflexivity].
Qed.

Lemma Forall_by_index {A} (P : A -> Prop) (l : list A) (F : nat -> A) :
  (forall n, (n < List.length l)%nat -> nth_error l n = Some (F n)) ->
  (forall n, (n < List.length l)%nat -> P (F n)) ->
  Forall P l.
Proof.
  intros HF HP. apply Forall_forall. intros x Hin.
  apply In_nth_error in Hin. destruct Hin as [n Hn].
  assert (Hlt : (n < List.length l)%nat) by (apply nth_error_Some; congruence).
  rewrite (HF n Hlt) in Hn. injection Hn as <-. now apply HP.
Qed.

Lemma anchored_whole (offs : list Z) (ds dl lmax : Z) (baseHsl : Hsl) (count : Z) :
  Forall (fun o => Z.abs o < 2 ^ 50) offs ->
  0 < ds <= 1000 -> 0 <= dl <= 1000 -> 0 <= lmax <= 100 ->
  0 <= count ->
  wholeHsl baseHsl ->
  Forall wholeHsl
    (anchored (map Z2F offs) (Z.of_nat (S (List.length offs))) (Z2F ds) (Z2F dl) (Z2F lmax)
       baseHsl count).
Proof.
  intros Hoff Hds Hdl Hlmax Hcount (Hh & Hs & Hl).
  set (anchors := anchorsOf (map Z2F offs) baseHsl).
  assert (Hanchor : forall i, wholeHsl (nth i anchors baseHsl)).
  { intros i. unfold anchors, anchorsOf.
    destruct i as [|i]; cbn [nth]; [now repeat split|].
    destruct (Nat.lt_ge_cases i (List.length offs)) as [Hi|Hi].
    - rewrite (nth_indep _ baseHsl (with_h baseHsl (normalizeHue (h baseHsl + Z2F 0))))
        by (now rewrite !length_map).
      rewrite (map_nth (fun off => with_h baseHsl (normalizeHue (h baseHsl + off)))).
      rewrite (map_nth Z2F). repeat split; cbn [with_h h s l]; try assumption.
      apply hue_turned; [exact Hh|].
      rewrite Forall_forall in Hoff. apply Hoff. now apply nth_In.
    - rewrite nth_overflow by (rewrite !length_map; lia). now repeat split. }
  apply (Forall_by_index wholeHsl _
           (fun n => if (n <? List.length anchors)%nat
                     then nth n anchors baseHsl
                     else variationOf (Z2F ds) (Z2F dl) (Z2F lmax)
                            (nth (n mod List.length anchors) anchors baseHsl))).
  - intros n Hn. rewrite anchored_length in Hn by exact Hcount.
    apply anchored_nth; [now rewrite length_map | exact Hn].
  - intros n _. destruct (n <? List.length anchors)%nat; [apply Hanchor|].
    destruct (Hanchor (n mod List.length anchors)%nat) as (Ah & As & Al).
    repeat split; cbn [variationOf h s l].
    + exact Ah.
    + change 30%float with (Z2F 30). apply saturation_lowered; [exact As | exact Hds | lia].
    + now apply lightness_raised.
Qed.

Lemma complementary_whole (baseHsl : Hsl) (count : Z) :
  0 <= count <= 6 -> wholeHsl baseHsl -> Forall wholeHsl (generateComplementary baseHsl count).
Proof.
  intros Hc (Hh & Hs & Hl).
  assert (Hcomp : wholeHsl (with_h baseHsl (normalizeHue (h baseHsl + 180)))).
  { repeat split; cbn [with_h h s l]; try assumption.
    change 180%float with (Z2F 180). apply hue_turned; [exact Hh | reflexivity]. }
  apply (Forall_by_index wholeHsl _ (complementaryColour baseHsl)).
  - intros n Hn. rewrite generateComplementary_length in Hn by lia. now apply complementary_nth.
  - intros n Hn. rewrite generateComplementary_length in Hn by lia.
    unfold complementaryColour.
    destruct n as [|[|n]]; [now repeat split | exact Hcomp |].
    set (v := if Z.of_nat (S (S n)) mod 2 =? 0 then baseHsl
              else with_h baseHsl (normalizeHue (h baseHsl + 180))).
    assert (Hv : wholeHsl v) by (unfold v; destruct (_ =? 0); [now repeat split | exact Hcomp]).
    destruct Hv as (Vh & Vs & Vl). repeat split; cbn [h s l].
    + exact Vh.
    + change 20%float with (Z2F 20). apply saturation_lowered; [exact Vs | lia | lia].
    + change 80%float with (Z2F 80). apply lightness_raised; [exact Vl | lia | lia].
Qed.

Lemma for_push_whole (count : Z) (body : Z -> Hsl) (baseHsl : Hsl) :
  0 <= count <= 6 ->
  wholeHsl baseHsl ->
  (forall n : nat, (1 <= n <= 5)%nat -> (n < Z.to_nat count)%nat -> wholeHsl (body (Z.of_nat n))) ->
  Forall wholeHsl (slice0 (for_push count body [baseHsl]) count).
Proof.
  intros Hc Hb Hbody.
  assert (Hlen : List.length (slice0 (for_push count body [baseHsl]) count) = Z.to_nat count).
  { rewrite slice0_length, for_push_length by lia. simpl. lia. }
  apply (Forall_by_index wholeHsl _
           (fun n => match n with O => baseHsl | S _ => body (Z.of_nat n) end)).
  - intros n Hn. rewrite Hlen in Hn. now apply nth_error_for_push.
  - intros n Hn. rewrite Hlen in Hn. destruct n as [|n]; [exact Hb|].
    apply Hbody; lia.
Qed.

Lemma analogous_whole (baseHsl : Hsl) (count : Z) :
  0 <= count <= 6 -> wholeHsl baseHsl -> Forall wholeHsl (generateAnalogous baseHsl count).
Proof.
  intros Hc (Hh & Hs & Hl). unfold generateAnalogous. cbv zeta.
  apply for_push_whole; [exact Hc | now repeat split |].
  intros n Hn _.
  assert (Hsat : isIntegerIn 0 100 (Math_max 30 (s baseHsl - Z2F (Z.of_nat n * 5)))).
  { change 30%float with (Z2F 30). apply saturation_lowered; [exact Hs | lia | lia]. }
  repeat split; cbn [h s l]; [| exact Hsat |].
  - destruct n as [|[|[|[|[|[|n]]]]]]; try lia.
    + change (30 * Math_ceil (Z2F (Z.of_nat 1) / 2) * _)%float with (Z2F 30).
      apply hue_turned; [exact Hh | reflexivity].
    + change (30 * Math_ceil (Z2F (Z.of_nat 2) / 2) * _)%float with (Z2F (-30)).
      apply hue_turned; [exact Hh | reflexivity].
    + change (30 * Math_ceil (Z2F (Z.of_nat 3) / 2) * _)%float with (Z2F 60).
      apply hue_turned; [exact Hh | reflexivity].
    + change (30 * Math_ceil (Z2F (Z.of_nat 4) / 2) * _)%float with (Z2F (-60)).
      apply hue_turned; [exact Hh | reflexivity].
    + change (30 * Math_ceil (Z2F (Z.of_nat 5) / 2) * _)%float with (Z2F 90).
      apply hue_turned; [exact Hh | reflexivity].
  - change 25%float with (Z2F 25). change 75%float with (Z2F 75).
    destruct n as [|[|[|[|[|[|n]]]]]]; try lia.
    + change ((Z2F (Z.of_nat 1 mod 3) - 1) * 10)%float with (Z2F 0).
      apply clamped; [exact Hl | simpl; lia | lia | lia].
    + change ((Z2F (Z.of_nat 2 mod 3) - 1) * 10)%float with (Z2F 10).
      apply clamped; [exact Hl | simpl; lia | lia | lia].
    + change ((Z2F (Z.of_nat 3 mod 3) - 1) * 10)%float with (Z2F (-10)).
      apply clamped; [exact Hl | simpl; lia | lia | lia].
    + change ((Z2F (Z.of_nat 4 mod 3) - 1) * 10)%float with (Z2F 0).
      apply clamped; [exact Hl | simpl; lia | lia | lia].
    + change ((Z2F (Z.of_nat 5 mod 3) - 1) * 10)%float with (Z2F 10).
      apply clamped; [exact Hl | simpl; lia | lia | lia].
Qed.

Lemma custom_whole (baseHsl : Hsl) (count a : Z) :
  0 <= count <= 6 -> Z.abs a < 2 ^ 40 -> wholeHsl baseHsl ->
  Forall wholeHsl (generateCustom baseHsl count (Z2F a)).
Proof.
  intros Hc Ha (Hh & Hs & Hl). unfold generateCustom.
  apply for_push_whole; [exact Hc | now repeat split |].
  intros n Hn _.
  assert (Hsat : isIntegerIn 0 100 (Math_max 30 (s baseHsl - Z2F (Z.of_nat n * 5)))).
  { change 30%float with (Z2F 30). apply saturation_lowered; [exact Hs | lia | lia]. }
  repeat split; cbn [h s l]; [| exact Hsat |].
  - assert (P40 : 2 ^ 40 * 8 < 2 ^ 50 /\ 2 ^ 50 < 2 ^ 53) by (split; reflexivity).
    assert (Hprod : Z.abs (a * Z.of_nat n) < 2 ^ 50).
    { rewrite Z.abs_mul. rewrite (Z.abs_eq (Z.of_nat n)) by lia. nia. }
    rewrite Number_mul_exact by lia.
    apply hue_turned; [exact Hh | exact Hprod].
  - change 25%float with (Z2F 25). change 75%float with (Z2F 75).
    destruct n as [|[|[|[|[|[|n]]]]]]; try lia.
    + change ((Z2F (Z.of_nat 1 mod 3) - 1) * 8)%float with (Z2F 0).
      apply clamped; [exact Hl | simpl; lia | lia | lia].
    + change ((Z2F (Z.of_nat 2 mod 3) - 1) * 8)%float with (Z2F 8).
      apply clamped; [exact Hl | simpl; lia | lia | lia].
    + change ((Z2F (Z.of_nat 3 mod 3) - 1) * 8)%float with (Z2F (-8)).
      apply clamped; [exact Hl | simpl; lia | lia | lia].
    + change ((Z2F (Z.of_nat 4 mod 3) - 1) * 8)%float with (Z2F 0).
      apply clamped; [exact Hl | simpl; lia | lia | lia].
    + change ((Z2F (Z.of_nat 5 mod 3) - 1) * 8)%float with (Z2F 8).
      apply clamped; [exact Hl | simpl; lia | lia | lia].
Qed.

Lemma monochromatic_whole (baseHsl : Hsl) (count : Z) :
  0 <= count <= 6 -> wholeHsl baseHsl -> Forall wholeHsl (generateMonochromatic baseHsl count).
Proof.
  intros Hc (Hh & Hs & Hl). unfold generateMonochromatic.
  apply for_push_whole; [exact Hc | now repeat split |].
  intros n Hn Hcount. cbv zeta.
  repeat split; cbn [h s l]; [exact Hh | |].
  - change 20%float with (Z2F 20). change 90%float with (Z2F 90).
    destruct n as [|[|[|[|[|[|n]]]]]]; try lia.
    + change ((if (Z.of_nat 1 mod 2 =? 0)%Z then -10 else 10) * Math_ceil (Z2F (Z.of_nat 1) / 2))%float
        with (Z2F 10).
      apply clamped; [exact Hs | simpl; lia | lia | lia].
    + change ((if (Z.of_nat 2 mod 2 =? 0)%Z then -10 else 10) * Math_ceil (Z2F (Z.of_nat 2) / 2))%float
        with (Z2F (-10)).
      apply clamped; [exact Hs | simpl; lia | lia | lia].
    + change ((if (Z.of_nat 3 mod 2 =? 0)%Z then -10 else 10) * Math_ceil (Z2F (Z.of_nat 3) / 2))%float
        with (Z2F 20).
      apply clamped; [exact Hs | simpl; lia | lia | lia].
    + change ((if (Z.of_nat 4 mod 2 =? 0)%Z then -10 else 10) * Math_ceil (Z2F (Z.of_nat 4) / 2))%float
        with (Z2F (-20)).
      apply clamped; [exact Hs | simpl; lia | lia | lia].
    + change ((if (Z.of_nat 5 mod 2 =? 0)%Z then -10 else 10) * Math_ceil (Z2F (Z.of_nat 5) / 2))%float
        with (Z2F 30).
      apply clamped; [exact Hs | simpl; lia | lia | lia].
  - assert (Hcases : count = 2 \/ count = 3 \/ count = 4 \/ count = 5 \/ count = 6) by lia.
    right. exists (Z.min 80 (20 + Z.of_nat n * (60 / count))).
    destruct Hcases as [->|[->|[->|[->| ->]]]];
      destruct n as [|[|[|[|[|[|n]]]]]]; try lia;
      (split; [vm_compute; split; discriminate | vm_compute; reflexivity]).
Qed.

(* ================================================================== *)
(** * From integer triples to hex text *)
(* ================================================================== *)

Lemma hueValues_spec : hueValues = neg_zero :: map (fun n => Z2F (Z.of_nat n)) (seq 0 361).
Proof. vm_compute. reflexivity. Qed.

Lemma pctValues_spec : pctValues = neg_zero :: map (fun n => Z2F (Z.of_nat n)) (seq 0 101).
Proof. vm_compute. reflexivity. Qed.

Lemma hueValues_complete (x : float) : isIntegerIn 0 360 x -> In x hueValues.
Proof.
  rewrite hueValues_spec. intros [[-> _]|(k & Hk & ->)]; [now left | right].
  rewrite <- (Z2Nat.id k) by lia.
  apply (in_map (fun n => Z2F (Z.of_nat n))), in_seq. lia.
Qed.

Lemma pctValues_complete (x : float) : isIntegerIn 0 100 x -> In x pctValues.
Proof.
  rewrite pctValues_spec. intros [[-> _]|(k & Hk & ->)]; [now left | right].
  rewrite <- (Z2Nat.id k) by lia.
  apply (in_map (fun n => Z2F (Z.of_nat n))), in_seq. lia.
Qed.

Lemma forallb_box (f : float -> float -> float -> bool) (l1 l2 : list float) :
  forallb (fun x => forallb (fun y => forallb (fun z => f x y z) l2) l2) l1 = true ->
  forall x y z, In x l1 -> In y l2 -> In z l2 -> f x y z = true.
Proof.
  intros H x y z Hx Hy Hz.
  rewrite forallb_forall in H. specialize (H x Hx).
  rewrite forallb_forall in H. specialize (H y Hy).
  rewrite forallb_forall in H. exact (H z Hz).
Qed.

(** Every triple passes [channelsOk]: 362 * 102 * 102 evaluations. *)
Lemma hsl_checked :
  forallb (fun h0 => forallb (fun s0 => forallb (fun l0 => channelsOk h0 s0 l0)
    pctValues) pctValues) hueValues = true.
Proof. vm_cast_no_check (eq_refl true). Qed.

Lemma hslToRgb_whole (c : Hsl) :
  wholeHsl c ->
  isIntegerIn 0 255 (r (hslToRgb (h c) (s c) (l c)))
  /\ isIntegerIn 0 255 (g (hslToRgb (h c) (s c) (l c)))
  /\ isIntegerIn 0 255 (b (hslToRgb (h c) (s c) (l c))).
Proof.
  intros (Hh & Hs & Hl).
  pose proof (forallb_box channelsOk hueValues pctValues hsl_checked _ _ _
                (hueValues_complete _ Hh) (pctValues_complete _ Hs) (pctValues_complete _ Hl))
    as C.
  unfold channelsOk in C. cbv zeta in C.
  repeat (apply andb_prop in C; destruct C as [C ?]).
  assert (W : forall x,
            In x [r (hslToRgb (h c) (s c) (l c)); g (hslToRgb (h c) (s c) (l c));
                  b (hslToRgb (h c) (s c) (l c))] ->
            (0 <=? x)%float = true -> (x <=? 255)%float = true -> isIntegerIn 0 255 x).
  { intros x Hin Hx0 Hx1.
    assert (P : 255 < 2 ^ 52) by reflexivity.
    assert (Hsmall : (abs x <? two52)%float = true)
      by (apply (range_below_two52 x 255); [lia | exact Hx0 | exact Hx1]).
    apply integer_in_range; try lia; try assumption.
    unfold hslToRgb in Hin.
    match type of Hin with
    | context [match ?e with pair _ _ => _ end] => destruct e as [[r0 g0] b0]
    end.
    cbn [r g b In] in Hin.
    destruct Hin as [<-|[<-|[<-|[]]]]; now apply Math_round_small. }
  repeat split; apply W; try assumption; cbn [In]; auto.
Qed.

Lemma toHex_whole (x : float) :
  isIntegerIn 0 255 x -> exists k, isByte k /\ toHex x = byteText k.
Proof.
  intros [[-> _]|(k & Hk & ->)].
  - exists 0. split; [unfold isByte; lia | vm_compute; reflexivity].
  - exists k. split; [exact Hk | now apply toHex_of_byte].
Qed.

Lemma hslToHex_whole (c : Hsl) :
  wholeHsl c ->
  exists R G B : Z,
    isByte R /\ isByte G /\ isByte B
    /\ hslToHex (h c) (s c) (l c) = "#" ++ byteText R ++ byteText G ++ byteText B.
Proof.
  intros Hc. destruct (hslToRgb_whole c Hc) as (Hr & Hg & Hb).
  destruct (toHex_whole _ Hr) as (R & HR & ER).
  destruct (toHex_whole _ Hg) as (G & HG & EG).
  destruct (toHex_whole _ Hb) as (B & HB & EB).
  exists R, G, B. split; [exact HR|]. split; [exact HG|]. split; [exact HB|].
  unfold hslToHex. cbv zeta. unfold rgbToHex. now rewrite ER, EG, EB.
Qed.

Lemma byteText_hexOk (R G B : Z) :
  isByte R -> isByte G -> isByte B ->
  hexOk ("#" ++ byteText R ++ byteText G ++ byteText B) = true.
Proof.
  intros HR HG HB.
  assert (Hn : forall v, isByte v -> 0 <= v / 16 < 16 /\ 0 <= v mod 16 < 16).
  { intros v Hv. unfold isByte in Hv.
    pose proof (Z.mod_pos_bound v 16 ltac:(lia)).
    assert (0 <= v / 16) by (apply Z.div_pos; lia).
    assert (v / 16 < 16) by (apply Z.div_lt_upper_bound; lia).
    lia. }
  destruct (Hn R HR) as (R1 & R2), (Hn G HG) as (G1 & G2), (Hn B HB) as (B1 & B2).
  destruct (hexDigit_is_hex _ R1) as [X1 _], (hexDigit_is_hex _ R2) as [X2 _],
           (hexDigit_is_hex _ G1) as [X3 _], (hexDigit_is_hex _ G2) as [X4 _],
           (hexDigit_is_hex _ B1) as [X5 _], (hexDigit_is_hex _ B2) as [X6 _].
  unfold byteText. cbn [append hexOk]. change ("#" =? "#")%char with true.
  unfold sixHexDigits. cbn [String.length allHexDigits Nat.eqb andb].
  now rewrite X1, X2, X3, X4, X5, X6.
Qed.

(** X23.  For a hue among the integers 0..360 and a saturation and a
    lightness among 0..100, the channels of [hslToRgb] are integers from 0
    to 255, and [hslToHex] returns [#] followed by six hexadecimal digits,
    two per channel. *)
Theorem hslToHex_of_integers_is_well_formed :
  forall c : Hsl,
    wholeHsl c ->
    isIntegerIn 0 255 (r (hslToRgb (h c) (s c) (l c)))
    /\ isIntegerIn 0 255 (g (hslToRgb (h c) (s c) (l c)))
    /\ isIntegerIn 0 255 (b (hslToRgb (h c) (s c) (l c)))
    /\ hexOk (hslToHex (h c) (s c) (l c)) = true.
Proof.
  intros c Hc. destruct (hslToRgb_whole c Hc) as (Hr & Hg & Hb).
  repeat split; try assumption.
  destruct (hslToHex_whole c Hc) as (R & G & B & HR & HG & HB & ->).
  now apply byteText_hexOk.
Qed.

Lemma hslToHex_of_integers_is_well_formed_witness :
  isIntegerIn 0 255 (r (hslToRgb (Z2F 204) (Z2F 70) (Z2F 53)))
  /\ isIntegerIn 0 255 (g (hslToRgb (Z2F 204) (Z2F 70) (Z2F 53)))
  /\ isIntegerIn 0 255 (b (hslToRgb (Z2F 204) (Z2F 70) (Z2F 53)))
  /\ hexOk (hslToHex (Z2F 204) (Z2F 70) (Z2F 53)) = true.
Proof.
  apply (hslToHex_of_integers_is_well_formed {| h := Z2F 204; s := Z2F 70; l := Z2F 53 |}).
  repeat split; right; eexists; (split; [|reflexivity]); lia.
Defined.

(* ================================================================== *)
(** * Palettes grown from a base colour *)
(* ================================================================== *)

Lemma dispatch_whole random (name : string) (baseHsl : Hsl) (cc : Z) (angle : float) (n : nat) :
  existsb (String.eqb name) HARMONY_TYPES && negb (name =? "random")%string = true ->
  0 <= cc <= 6 ->
  (name = "custom" -> exists a : Z, Z.abs a < 2 ^ 40 /\ angle = Z2F a) ->
  wholeHsl baseHsl ->
  Forall wholeHsl (fst (dispatch random name baseHsl cc angle n)).
Proof.
  intros Hname Hcc Hangle Hb. unfold dispatch.
  assert (P : 360 < 2 ^ 50) by reflexivity.
  destruct (name =? "complementary")%string eqn:E1; [now apply complementary_whole|].
  destruct (name =? "analogous")%string eqn:E2; [now apply analogous_whole|].
  destruct (name =? "triadic")%string eqn:E3.
  { apply (anchored_whole [120; 240] 15 15 75); try lia; try assumption.
    repeat constructor; simpl; lia. }
  destruct (name =? "split-complementary")%string eqn:E4.
  { apply (anchored_whole [150; 210] 20 10 80); try lia; try assumption.
    repeat constructor; simpl; lia. }
  destruct (name =? "tetradic")%string eqn:E5.
  { apply (anchored_whole [60; 180; 240] 15 12 75); try lia; try assumption.
    repeat constructor; simpl; lia. }
  destruct (name =? "monochromatic")%string eqn:E6; [now apply monochromatic_whole|].
  destruct (name =? "square")%string eqn:E7.
  { apply (anchored_whole [90; 180; 270] 20 15 75); try lia; try assumption.
    repeat constructor; simpl; lia. }
  destruct (name =? "double-complementary")%string eqn:E8.
  { apply (anchored_whole [30; 180; 210] 15 10 80); try lia; try assumption.
    repeat constructor; simpl; lia. }
  destruct (name =? "custom")%string eqn:E9.
  { apply String.eqb_eq in E9. destruct (Hangle E9) as (a & Ha & ->).
    now apply custom_whole. }
  exfalso. cbn [existsb HARMONY_TYPES] in Hname.
  rewrite E1, E2, E3, E4, E5, E6, E7, E8, E9 in Hname. cbn [orb] in Hname.
  destruct (name =? "random")%string; discriminate.
Qed.

(** X24.  When a base colour is given (any non-empty text) and the
    harmony is one of the nine other than random, with the default or an
    integer angle if it is the custom one, every colour of the palette is
    well formed: its hue is an integer from 0 to 360, its saturation and
    lightness are integers from 0 to 100, and its hex is [#] followed by six
    hexadecimal digits.  [Math.random] is not read. *)
Theorem palettes_from_a_base_colour_are_well_formed :
  forall (random : nat -> float) (opts : options) (n : nat) (name color : string),
    o_harmony opts = Some name ->
    anchorStrategy name = true ->
    truthy (o_baseColor opts) = Some color ->
    (toLowerCase name = "custom" -> integerAngle (o_angle opts)) ->
    exists p,
      generatePalette random opts n = (Some p, n)
      /\ Forall (fun c => wholeHsl (hsl c) /\ hexOk (hex c) = true) (colors p).
Proof.
  intros random opts n name color Hname Hanchor Hcolor Hangle.
  assert (Hb : baseHslOf random opts n = (hexToHsl color, n)).
  { unfold baseHslOf. now rewrite Hcolor. }
  assert (Hbase : wholeHsl (hexToHsl color)).
  { unfold hexToHsl.
    destruct (hexToRgb_bytes color) as (R & G & B & -> & HR & HG & HB). cbn [r g b].
    exact (rgbToHsl_bytes_whole R G B HR HG HB). }
  set (angle := match o_angle opts with Some a => a | None => 45%float end).
  set (cc := colorCount (o_count opts)).
  pose proof (colorCount_range (o_count opts)) as Hcc. fold cc in Hcc.
  unfold anchorStrategy, recognized in Hanchor.
  assert (Ha : toLowerCase name = "custom" -> exists a : Z, Z.abs a < 2 ^ 40 /\ angle = Z2F a).
  { intros E. destruct (Hangle E) as [Hnone|(a & Ha & Hsome)]; unfold angle.
    - rewrite Hnone. exists 45. split; [reflexivity | reflexivity].
    - rewrite Hsome. now exists a. }
  pose proof (dispatch_whole random (toLowerCase name) (hexToHsl color) cc angle n
                Hanchor ltac:(lia) Ha Hbase) as Hw.
  destruct (dispatch_anchor random random (toLowerCase name) (hexToHsl color) cc angle n n Hanchor)
    as [_ Hn].
  destruct (dispatch random (toLowerCase name) (hexToHsl color) cc angle n) as [cs n'] eqn:Hd.
  cbn [fst snd] in Hw, Hn. subst n'.
  pose proof (generatePalette_unfold random opts n _ _ cs n Hb) as U.
  rewrite Hname in U. specialize (U Hd). rewrite U.
  assert (Hlen : List.length cs = Z.to_nat cc).
  { replace cs with (fst (dispatch random (toLowerCase name) (hexToHsl color) cc angle n))
      by now rewrite Hd.
    apply dispatch_length. lia. }
  destruct (toColors 0 cs) as [|first rest] eqn:Hc.
  - apply (f_equal (@List.length Color)) in Hc. rewrite toColors_length, Hlen in Hc.
    cbn [List.length] in Hc. lia.
  - eexists. split; [reflexivity|]. cbn [colors]. rewrite <- Hc.
    clear -Hw. generalize 0%nat. induction Hw as [|c cs Hc Hcs IH]; intros i; cbn [toColors].
    + constructor.
    + constructor; [|apply IH]. cbn [hsl hex]. split; [exact Hc|].
      destruct (hslToHex_whole c Hc) as (R & G & B & HR & HG & HB & ->).
      now apply byteText_hexOk.
Qed.

Lemma palettes_from_a_base_colour_are_well_formed_witness :
  exists p,
    generatePalette half (mkOptions (Some "Custom") (CountNumber 6) (Some "#3498db") None) 0%nat
    = (Some p, 0%nat)
    /\ Forall (fun c => wholeHsl (hsl c) /\ hexOk (hex c) = true) (colors p).
Proof.
  apply (palettes_from_a_base_colour_are_well_formed half
           (mkOptions (Some "Custom") (CountNumber 6) (Some "#3498db") None) 0%nat
           "Custom" "#3498db").
  - reflexivity.
  - reflexivity.
  - reflexivity.
  - intros _. left. reflexivity.
Defined.

(* ================================================================== *)
(** * Greys *)
(* ================================================================== *)

Lemma SFcompare_refl (x : spec_float) : x <> S754_nan -> SFcompare x x = Some Eq.
Proof.
  destruct x as [s|s| |s m e]; intros H; cbn [SFcompare]; try congruence.
  - now destruct s.
  - rewrite Z.compare_refl.
    change (Pos.compare_cont Eq m m) with (m ?= m)%positive.
    rewrite Pos.compare_refl. now destruct s.
Qed.

Lemma not_nan_spec (x : float) : is_nan x = false -> Prim2SF x <> S754_nan.
Proof.
  unfold is_nan. rewrite eqb_spec. intros H E. rewrite E in H. discriminate.
Qed.

Lemma spec_not_nan (x : float) : Prim2SF x <> S754_nan -> is_nan x = false.
Proof.
  intros H. unfold is_nan. rewrite eqb_spec. unfold SFeqb.
  now rewrite SFcompare_refl.
Qed.

Lemma shr_nonneg (mrs : shr_record) (e n : Z) :
  0 <= shr_m mrs -> 0 <= shr_m (fst (shr mrs e n)).
Proof.
  intros H. unfold shr. destruct n as [|p|p]; cbn [fst]; try exact H.
  rewrite iter_pos_nat, shr_iter_m by exact H.
  apply Z.div_pos; [exact H | apply Z.pow_pos_nonneg; lia].
Qed.

Lemma shr_record_of_loc_m (m : Z) (l : location) : shr_m (shr_record_of_loc m l) = m.
Proof. destruct l as [|[| |]]; reflexivity. Qed.

(** Rounding a non-negative mantissa never gives NaN. *)
Lemma binary_round_aux_not_nan (sx : bool) (mx ex : Z) (lx : location) :
  0 <= mx -> binary_round_aux prec emax sx mx ex lx <> S754_nan.
Proof.
  intros Hm. unfold binary_round_aux, shr_fexp.
  set (n1 := fexp prec emax (Zdigits2 mx + ex) - ex).
  pose proof (shr_nonneg (shr_record_of_loc mx lx) ex n1) as H1.
  rewrite shr_record_of_loc_m in H1. specialize (H1 Hm).
  destruct (shr (shr_record_of_loc mx lx) ex n1) as [mrs' e']. cbn [fst] in H1.
  set (m2 := round_nearest_even (shr_m mrs') (loc_of_shr_record mrs')).
  assert (H2 : 0 <= m2).
  { unfold m2, round_nearest_even.
    destruct (loc_of_shr_record mrs') as [|[| |]]; try destruct (IntDef.Z.even _); lia. }
  set (n2 := fexp prec emax (Zdigits2 m2 + e') - e').
  pose proof (shr_nonneg (shr_record_of_loc m2 loc_Exact) e' n2) as H3.
  rewrite shr_record_of_loc_m in H3. specialize (H3 H2).
  destruct (shr (shr_record_of_loc m2 loc_Exact) e' n2) as [mrs'' e'']. cbn [fst] in H3.
  destruct (shr_m mrs'') as [|p|p]; try lia; try discriminate.
  destruct (e'' <=? emax - prec); discriminate.
Qed.

Lemma div_255_not_nan (v : float) : is_nan v = false -> is_nan (v / 255) = false.
Proof.
  intros H. apply not_nan_spec in H. apply spec_not_nan.
  rewrite div_spec. change (Prim2SF 255) with (S754_finite false 8972014882652160 (-45)).
  destruct (Prim2SF v) as [s|s| |s m e]; try congruence; try discriminate.
  unfold SF64div, SFdiv.
  destruct (SFdiv_core_binary prec emax (Zpos m) e 8972014882652160 (-45)) as [[mz ez] lz] eqn:E.
  apply binary_round_aux_not_nan.
  unfold SFdiv_core_binary in E. cbv zeta in E.
  match type of E with
  | context [IntDef.Z.div_eucl ?a ?b] =>
      pose proof (Z_div_mod a b ltac:(reflexivity)) as D;
      assert (Ha : 0 <= a)
  end.
  { match goal with
    | |- 0 <= match ?s with _ => _ end => destruct s
    end; try lia. apply Z.shiftl_nonneg. lia. }
  change IntDef.Z.div_eucl with Z.div_eucl in E.
  match type of E with
  | context [Z.div_eucl ?a ?b] => destruct (Z.div_eucl a b) as [q r0]
  end.
  injection E as <- _ _. destruct D as [D1 D2].
  clear -D1 D2 Ha. nia.
Qed.

Lemma Math_max_same (x : float) : is_nan x = false -> Math_max x x = x.
Proof.
  intros H. pose proof (not_nan_spec x H) as N.
  unfold Math_max. rewrite ltb_spec, eqb_spec. unfold SFltb, SFeqb.
  rewrite SFcompare_refl by exact N. now destruct (is_neg_zero x).
Qed.

Lemma Math_min_same (x : float) : is_nan x = false -> Math_min x x = x.
Proof.
  intros H. pose proof (not_nan_spec x H) as N.
  unfold Math_min. rewrite ltb_spec, eqb_spec. unfold SFltb, SFeqb.
  rewrite SFcompare_refl by exact N. now destruct (is_neg_zero x).
Qed.

(** X25.  Greys have no hue and no saturation: for every Number [v]
    that is not NaN, [rgbToHsl(v, v, v)] has [h = 0] and [s = 0]; and a
    saturation of 0 gives a grey, for every hue and lightness [hslToRgb]
    returns three equal channels, [Math.round(l / 100 * 255)]. *)
Theorem greys_have_no_hue :
  forall v hue lightness : float,
    is_nan v = false ->
    h (rgbToHsl v v v) = 0%float
    /\ s (rgbToHsl v v v) = 0%float
    /\ hslToRgb hue 0 lightness
       = {| r := Math_round (lightness / 100 * 255);
            g := Math_round (lightness / 100 * 255);
            b := Math_round (lightness / 100 * 255) |}.
Proof.
  intros v hue lightness Hv.
  pose proof (div_255_not_nan v Hv) as Hx.
  assert (E : (Math_max (Math_max (v / 255) (v / 255)) (v / 255)
               =? Math_min (Math_min (v / 255) (v / 255)) (v / 255))%float = true).
  { rewrite !Math_max_same, !Math_min_same by exact Hx.
    rewrite eqb_spec. unfold SFeqb. now rewrite SFcompare_refl by (apply not_nan_spec, Hx). }
  unfold rgbToHsl. cbv zeta. rewrite E. cbn [h s].
  repeat split.
Qed.

Lemma greys_have_no_hue_witness :
  h (rgbToHsl 128 128 128) = 0%float
  /\ s (rgbToHsl 128 128 128) = 0%float
  /\ hslToRgb 200 0 50
     = {| r := Math_round (50 / 100 * 255);
          g := Math_round (50 / 100 * 255);
          b := Math_round (50 / 100 * 255) |}.
Proof. apply (greys_have_no_hue 128 200 50). reflexivity. Defined.

(* ================================================================== *)
(** * [rgbToHex] on any Numbers *)
(* ================================================================== *)

Lemma SFcompare_antisym (x y : spec_float) :
  SFcompare x y = option_map CompOpp (SFcompare y x).
Proof.
  destruct x as [sx|sx| |sx mx ex], y as [sy|sy| |sy my ey]; cbn [SFcompare option_map];
    try reflexivity; try (now destruct sx); try (now destruct sy);
    try (now destruct sx, sy).
  change (Pos.compare_cont Eq mx my) with (mx ?= my)%positive.
  change (Pos.compare_cont Eq my mx) with (my ?= mx)%positive.
  rewrite (Z.compare_antisym ey ex), (Pos.compare_antisym my mx).
  destruct sx, sy; try reflexivity;
    destruct (ey ?= ex); cbn [CompOpp]; try reflexivity;
    destruct (my ?= mx)%positive; reflexivity.
Qed.

(** 255 as binary64: the mantissa is 255 * 2^45. *)
Lemma Prim2SF_255 : Prim2SF 255 = S754_finite false (shl 255 45) (-45).
Proof. reflexivity. Qed.

Lemma Math_min_255 (x : float) :
  is_nan x = false ->
  Math_min 255 x = 255%float
  \/ (Math_min 255 x = x
      /\ (SFcompare (Prim2SF x) (Prim2SF 255) = Some Lt
          \/ SFcompare (Prim2SF x) (Prim2SF 255) = Some Eq)).
Proof.
  intros H. apply not_nan_spec in H.
  unfold Math_min. rewrite !ltb_spec, eqb_spec. unfold SFltb, SFeqb.
  rewrite (SFcompare_antisym (Prim2SF 255) (Prim2SF x)).
  destruct (SFcompare (Prim2SF x) (Prim2SF 255)) as [[| |]|] eqn:C; cbn [option_map CompOpp].
  - right. split; [|now right]. change (is_neg_zero 255) with false. reflexivity.
  - right. split; [reflexivity | now left].
  - now left.
  - exfalso. rewrite Prim2SF_255 in C. destruct (Prim2SF x); try discriminate. congruence.
Qed.

Lemma Math_max_0 (y : float) :
  is_nan y = false ->
  Math_max 0 y = 0%float
  \/ (Math_max 0 y = y /\ SFcompare (Prim2SF 0) (Prim2SF y) = Some Lt).
Proof.
  intros H. apply not_nan_spec in H.
  unfold Math_max. rewrite !ltb_spec, eqb_spec. unfold SFltb, SFeqb.
  rewrite (SFcompare_antisym (Prim2SF y) (Prim2SF 0)).
  destruct (SFcompare (Prim2SF 0) (Prim2SF y)) as [[| |]|] eqn:C; cbn [option_map CompOpp].
  - left. change (is_neg_zero 0) with false. reflexivity.
  - right. now split.
  - now left.
  - exfalso. change (Prim2SF 0) with (S754_zero false) in C.
    destruct (Prim2SF y); try discriminate. congruence.
Qed.

(** The result of rounding a negative mantissa is not 0.5. *)
Lemma negative_is_not_half (mz ez : Z) (lz : location) :
  SFeqb (binary_round_aux prec emax true mz ez lz) (Prim2SF 0.5) = false.
Proof.
  unfold binary_round_aux.
  destruct (shr_fexp prec emax mz ez lz) as [mrs' e'].
  destruct (shr_fexp prec emax _ e' loc_Exact) as [mrs'' e''].
  destruct (shr_m mrs'') as [|p|p]; try reflexivity.
  destruct (e'' <=? emax - prec); reflexivity.
Qed.

Lemma not_above_is_not_half (d e : Z) :
  d <= 0 -> SFeqb (binary_normalize prec emax d e false) (Prim2SF 0.5) = false.
Proof.
  intros Hd. destruct d as [|p|p]; try lia; cbn [binary_normalize].
  - reflexivity.
  - unfold binary_round. destruct (shl_align p e _) as [mz ez].
    apply negative_is_not_half.
Qed.

(** What [Math.round] makes of a Number between 0 and 255. *)
Lemma Math_round_byte (m : positive) (e : Z) :
  valid_binary (S754_finite false m e) = true ->
  (SFcompare (S754_finite false m e) (Prim2SF 255) = Some Lt
   \/ SFcompare (S754_finite false m e) (Prim2SF 255) = Some Eq) ->
  isIntegerIn 0 255 (Math_round (SF2Prim (S754_finite false m e))).
Proof.
  intros V C.
  rewrite Prim2SF_255 in C.
  assert (H255 : Zpos (shl 255 45) = 255 * 2 ^ 45) by (apply shl_Z; discriminate).
  remember (shl 255 45) as m255 eqn:Em255.
  assert (Ex : Prim2SF (SF2Prim (S754_finite false m e)) = S754_finite false m e)
    by (apply Prim2SF_SF2Prim; exact V).
  assert (Hm : Zpos m < 2 ^ 53).
  { cbn [SpecFloat.valid_binary] in V. unfold bounded, canonical_mantissa in V.
    apply andb_prop in V. destruct V as [V1 _]. apply Z.eqb_eq in V1.
    rewrite fexp_eq in V1. pose proof (digits_bounds m) as [_ Um].
    assert (2 ^ Zpos (digits2_pos m) <= 2 ^ 53) by (apply Z.pow_le_mono_r; lia). lia. }
  assert (He : e < -45 \/ (e = -45 /\ Zpos m <= 255 * 2 ^ 45)).
  { cbn [SFcompare] in C.
    change (Pos.compare_cont Eq m m255) with (Zpos m ?= Zpos m255) in C.
    destruct (Z.compare_spec e (-45)) as [E|L|G].
    - right. split; [exact E|].
      destruct (Z.compare_spec (Zpos m) (Zpos m255)) as [E'|L'|G'];
        try lia; destruct C; discriminate.
    - now left.
    - destruct C; discriminate. }
  assert (He0 : e < 0) by lia.
  assert (Hsmall : (abs (SF2Prim (S754_finite false m e)) <? two52)%float = true).
  { rewrite ltb_spec, abs_spec, Ex.
    change (Prim2SF two52) with (S754_finite false 4503599627370496 0).
    unfold SFltb, SFabs, SFcompare.
    replace (e ?= 0) with Lt by (symmetry; apply Z.compare_lt_iff; lia). reflexivity. }
  destruct (nearest_even_finite false m e He0 Hm V) as (k & Hk & Hq & Hn).
  assert (Hpow : 0 < 2 ^ (- e)) by (apply Z.pow_pos_nonneg; lia).
  assert (Hq255 : Zpos m / 2 ^ (- e) <= 255).
  { destruct He as [L|[E Hle]].
    - assert (2 ^ 46 <= 2 ^ (- e)) by (apply Z.pow_le_mono_r; lia).
      assert (Zpos m / 2 ^ (- e) < 128); [|lia].
      apply Z.div_lt_upper_bound; [lia|].
      change (2 ^ 53) with (128 * 2 ^ 46) in Hm. nia.
    - subst e. change (- -45) with 45.
      assert (Zpos m / 2 ^ 45 < 256); [|lia].
      apply Z.div_lt_upper_bound; lia. }
  assert (Hk256 : 0 <= k <= 256) by lia.
  assert (Hnot : (SF2Prim (S754_finite false m e) - Z2F 255 =? 0.5)%float = false).
  { rewrite eqb_spec, sub_spec, Ex.
    change (Prim2SF (Z2F 255)) with (S754_finite false (shl 255 45) (-45)).
    rewrite <- Em255.
    unfold SF64sub, SFsub. replace (Z.min e (-45)) with e by lia.
    rewrite !shl_align_fst by lia. rewrite Z.sub_diag, shl_0.
    cbn [cond_Zopp]. apply not_above_is_not_half.
    rewrite shl_Z by lia. rewrite H255.
    destruct He as [L|[E Hle]].
    + assert (2 ^ 1 <= 2 ^ (-45 - e)) by (apply Z.pow_le_mono_r; lia).
      change (2 ^ 53) with (128 * 2 ^ 46) in Hm. change (2 ^ 1) with 2 in *.
      change (2 ^ 45) with 35184372088832. change (2 ^ 46) with 70368744177664 in Hm. nia.
    + subst e. change (-45 - -45) with 0. change (2 ^ 0) with 1. lia. }
  unfold Math_round. rewrite Hsmall, Hn. cbv zeta. cbn [negb].
  assert (P : 256 + 1 < 2 ^ 53) by reflexivity.
  assert (E1 : (Z2F k + 1)%float = Z2F (k + 1)).
  { change 1%float with (Z2F 1). apply Number_add_exact; lia. }
  rewrite E1.
  assert (R : forall (r : float) (k' : Z), 0 <= k' <= 255 -> r = Z2F k' ->
            isIntegerIn 0 255
              (if (r =? 0)%float
               then if (SF2Prim (S754_finite false m e) <? 0)%float
                       || is_neg_zero (SF2Prim (S754_finite false m e))
                    then neg_zero else 0%float
               else r)).
  { intros r0 k' Hk' Hr. rewrite Hr. clear - Hk'.
    destruct (Z2F k' =? 0)%float.
    - destruct (_ || _); [left; split; [reflexivity | lia]|].
      right. exists 0. split; [lia | reflexivity].
    - right. exists k'. split; [exact Hk' | reflexivity]. }
  destruct (Z.eq_dec k 255) as [E255|N255].
  - subst k. rewrite Hnot. apply (R _ 255); [lia | reflexivity].
  - destruct (Z.eq_dec k 256) as [E256|N256].
    + exfalso. assert (Zpos m / 2 ^ (- e) = 255) by lia.
      destruct He as [L|[E Hle]].
      * assert (2 ^ 46 <= 2 ^ (- e)) by (apply Z.pow_le_mono_r; lia).
        assert (Zpos m / 2 ^ (- e) < 128); [|lia].
        apply Z.div_lt_upper_bound; [lia|].
        change (2 ^ 53) with (128 * 2 ^ 46) in Hm. nia.
      * subst e. change (- -45) with 45 in *.
        assert (Hge : 255 * 2 ^ 45 <= Zpos m).
        { pose proof (Z.div_mod (Zpos m) (2 ^ 45) ltac:(lia)).
          pose proof (Z.mod_pos_bound (Zpos m) (2 ^ 45) ltac:(lia)). lia. }
        assert (Em : Zpos m = Zpos m255) by lia.
        injection Em as Em. subst m. subst m255.
        destruct Hk as [Hk|Hk]; [lia|].
        (* the value is 255 itself: nothing is rounded *)
        clear -Hn E256. subst k. revert Hn. vm_compute. intros Hn. discriminate Hn.
    + destruct (SF2Prim (S754_finite false m e) - Z2F k =? 0.5)%float.
      * apply (R _ (k + 1)); [lia | reflexivity].
      * apply (R _ k); [lia | reflexivity].
Qed.

Lemma padded_byte (k : Z) :
  isByte k ->
  (let hex := Number_toString16 (Z2F k) in
   if (String.length hex =? 1)%nat then "0" ++ hex else hex) = byteText k.
Proof.
  intros Hk.
  assert (Hall : forallb (fun n =>
             ((let hex := Number_toString16 (Z2F (Z.of_nat n)) in
               if (String.length hex =? 1)%nat then "0" ++ hex else hex)
              =? byteText (Z.of_nat n))%string) (seq 0 256) = true)
    by (vm_compute; reflexivity).
  rewrite forallb_forall in Hall. unfold isByte in Hk.
  specialize (Hall (Z.to_nat k) ltac:(apply in_seq; lia)).
  rewrite Z2Nat.id in Hall by lia. now apply String.eqb_eq.
Qed.

Lemma toHex_any (x : float) :
  is_nan x = false -> exists k, isByte k /\ toHex x = byteText k.
Proof.
  intros H. unfold toHex.
  destruct (Math_min_255 x H) as [E|[E C]]; rewrite E.
  - exists 255. split; [unfold isByte; lia | vm_compute; reflexivity].
  - destruct (Math_max_0 x H) as [E0|[E0 C0]]; rewrite E0.
    + exists 0. split; [unfold isByte; lia | vm_compute; reflexivity].
    + pose proof (Prim2SF_valid x) as V.
      rewrite <- (SF2Prim_Prim2SF x).
      change (Prim2SF 0) with (S754_zero false) in C0.
      destruct (Prim2SF x) as [sx|sx| |sx m e] eqn:Ex; try discriminate.
      * exfalso. destruct sx; [discriminate|].
        rewrite Prim2SF_255 in C. destruct C; discriminate.
      * destruct sx; [discriminate|].
        destruct (Math_round_byte m e V C) as [[-> _]|(k & Hk & ->)].
        -- exists 0. split; [unfold isByte; lia | vm_compute; reflexivity].
        -- exists k. split; [exact Hk | apply padded_byte; exact Hk].
Qed.

(** X26.  [rgbToHex] is well formed on all Numbers: whenever none
    of the three channels is NaN (fractions, negative values and the
    infinities included), the text is [#] followed by six hexadecimal
    digits, two per channel; a NaN red channel prints as the letters [NaN],
    and the text is then not of that form. *)
Theorem rgbToHex_is_well_formed :
  forall r0 g0 b0 : float,
    is_nan r0 = false -> is_nan g0 = false -> is_nan b0 = false ->
    (exists R G B : Z,
        isByte R /\ isByte G /\ isByte B
        /\ rgbToHex r0 g0 b0 = "#" ++ byteText R ++ byteText G ++ byteText B)
    /\ hexOk (rgbToHex r0 g0 b0) = true
    /\ hexOk (rgbToHex nan g0 b0) = false.
Proof.
  intros r0 g0 b0 Hr Hg Hb.
  destruct (toHex_any r0 Hr) as (R & HR & ER).
  destruct (toHex_any g0 Hg) as (G & HG & EG).
  destruct (toHex_any b0 Hb) as (B & HB & EB).
  assert (E : rgbToHex r0 g0 b0 = "#" ++ byteText R ++ byteText G ++ byteText B).
  { unfold rgbToHex. rewrite ER, EG, EB. reflexivity. }
  split; [|split].
  - exists R, G, B. split; [exact HR|]. split; [exact HG|]. split; [exact HB | exact E].
  - rewrite E. apply byteText_hexOk; assumption.
  - unfold rgbToHex. change (toHex nan) with "NaN". unfold hexOk, sixHexDigits.
    cbn [append]. apply andb_false_iff. right. apply andb_false_iff. right. reflexivity.
Qed.

Lemma rgbToHex_is_well_formed_witness :
  (exists R G B : Z,
      isByte R /\ isByte G /\ isByte B
      /\ rgbToHex 12.5 (-3) infinity = "#" ++ byteText R ++ byteText G ++ byteText B)
  /\ hexOk (rgbToHex 12.5 (-3) infinity) = true
  /\ hexOk (rgbToHex nan (-3) infinity) = false.
Proof. apply (rgbToHex_is_well_formed 12.5 (-3) infinity); reflexivity. Defined.

(* ================================================================== *)
(** * [Math.floor] of a Number below an integer *)
(* ================================================================== *)

Lemma valid_finite (s : bool) (m : positive) (e : Z) :
  valid_binary (S754_finite s m e) = true ->
  Zpos m < 2 ^ 53 /\ -1074 <= e <= 971
  /\ (e = -1074 \/ Zpos (digits2_pos m) = 53).
Proof.
  intros V. cbn [SpecFloat.valid_binary] in V. unfold bounded, canonical_mantissa in V.
  apply andb_prop in V. destruct V as [V1 V2]. apply Z.eqb_eq in V1. apply Z.leb_le in V2.
  rewrite fexp_eq in V1. change (emax - prec) with 971 in V2.
  pose proof (digits_bounds m) as [_ Um].
  assert (2 ^ Zpos (digits2_pos m) <= 2 ^ 53) by (apply Z.pow_le_mono_r; lia).
  lia.
Qed.

(** The order between a Number with a fraction part and an integer is the
    order of the mantissa and the integer moved to the same exponent. *)
Lemma compare_with_integer (m : positive) (e K : Z) :
  valid_binary (S754_finite false m e) = true ->
  e <= 0 -> 0 < K < 2 ^ 53 ->
  SFcompare (S754_finite false m e) (canonical K) = Some (Zpos m ?= K * 2 ^ (- e)).
Proof.
  intros V He HK.
  destruct (valid_finite _ _ _ V) as (Hm & Hr & Hn).
  destruct (canonical_pos_neg K ltac:(lia)) as (v & Hv & ->).
  replace (K <? 0) with false by (symmetry; apply Z.ltb_ge; lia).
  rewrite Z.abs_eq in Hv by lia. subst K.
  pose proof (digits_bounds v) as [Lv Uv]. pose proof (digits_bounds m) as [Lm Um].
  pose proof (digits_le_53 v ltac:(lia)) as Dv.
  set (d := Zpos (digits2_pos v)) in *.
  set (dm := Zpos (digits2_pos m)) in *.
  assert (Hd : 1 <= d) by (unfold d; lia).
  assert (Hpow : 0 < 2 ^ (- e)) by (apply Z.pow_pos_nonneg; lia).
  cbn [SFcompare]. f_equal.
  change (Pos.compare_cont Eq m (shl v (53 - d))) with (Zpos m ?= Zpos (shl v (53 - d))).
  rewrite shl_Z by lia.
  destruct (Z.compare_spec e (d - 53)) as [E|L|G].
  - subst e. replace (- (d - 53)) with (53 - d) by lia. reflexivity.
  - symmetry. apply Z.compare_lt_iff.
    assert (H2 : 2 ^ (d - 1) * 2 ^ (- e) = 2 ^ 53 * 2 ^ (d - 54 - e)).
    { rewrite <- !Z.pow_add_r by lia. f_equal. lia. }
    assert (0 < 2 ^ (d - 54 - e)) by (apply Z.pow_pos_nonneg; lia).
    assert (0 < 2 ^ 53) by reflexivity.
    nia.
  - symmetry. apply Z.compare_gt_iff.
    assert (Hdm : dm = 53) by (destruct Hn as [Hn|Hn]; [lia | exact Hn]).
    rewrite Hdm in Lm. change (2 ^ (53 - 1)) with (2 ^ 52) in Lm.
    assert (H2 : 2 ^ 52 = 2 ^ d * 2 ^ (- e) * 2 ^ (52 - d + e)).
    { rewrite <- !Z.pow_add_r by lia. f_equal. lia. }
    assert (0 < 2 ^ (52 - d + e)) by (apply Z.pow_pos_nonneg; lia).
    assert (0 < 2 ^ d) by (apply Z.pow_pos_nonneg; lia).
    assert (1 <= 2 ^ (52 - d + e)) by lia.
    assert (HA : Zpos v * 2 ^ (- e) < 2 ^ d * 2 ^ (- e)) by (apply Z.mul_lt_mono_pos_r; lia).
    assert (HB : 2 ^ d * 2 ^ (- e) <= 2 ^ d * 2 ^ (- e) * 2 ^ (52 - d + e)) by nia.
    lia.
Qed.

Lemma compare_with_any_integer (m : positive) (e K : Z) :
  valid_binary (S754_finite false m e) = true ->
  e <= 0 -> 0 <= K < 2 ^ 53 ->
  SFcompare (S754_finite false m e) (canonical K) = Some (Zpos m ?= K * 2 ^ (- e)).
Proof.
  intros V He HK. destruct (Z.eq_dec K 0) as [->|Hnz].
  - reflexivity.
  - apply compare_with_integer; [exact V | exact He | lia].
Qed.

Lemma SFcompare_Eq_finite (m m' : positive) (e e' : Z) :
  SFcompare (S754_finite false m e) (S754_finite false m' e') = Some Eq ->
  S754_finite false m e = S754_finite false m' e'.
Proof.
  cbn [SFcompare]. intros H.
  destruct (Z.compare_spec e e') as [E|L|G]; try discriminate.
  change (Pos.compare_cont Eq m m') with (m ?= m')%positive in H.
  destruct (Pos.compare_spec m m') as [E'|L'|G']; try discriminate.
  now subst.
Qed.

Lemma below_integer (m : positive) (e C : Z) :
  valid_binary (S754_finite false m e) = true ->
  0 < C < 2 ^ 52 ->
  SFcompare (S754_finite false m e) (canonical C) = Some Lt ->
  e < 0 /\ Zpos m < C * 2 ^ (- e).
Proof.
  intros V HC H.
  assert (P : 2 ^ 52 < 2 ^ 53) by reflexivity.
  assert (He : e < 0).
  { destruct (canonical_pos_neg C ltac:(lia)) as (v & Hv & Ecan).
    rewrite Ecan in H. replace (C <? 0) with false in H by (symmetry; apply Z.ltb_ge; lia).
    assert (Hd : Zpos (digits2_pos v) <= 52).
    { pose proof (digits_bounds v) as [Lv _].
      assert (Zpos (digits2_pos v) - 1 < 52); [|lia].
      apply (Z.pow_lt_mono_r_iff 2); lia. }
    cbn [SFcompare] in H.
    destruct (Z.compare_spec e (Zpos (digits2_pos v) - 53)) as [E|L|G]; try lia.
    discriminate. }
  split; [exact He|].
  rewrite compare_with_integer in H by (try assumption; lia).
  injection H as H. now apply Z.compare_lt_iff.
Qed.

(** [Math.floor] of a Number from 0 up to, but not including, the integer
    [C] is an integer from 0 to [C - 1]. *)
Lemma Math_floor_below (x : float) (C : Z) :
  0 < C < 2 ^ 52 ->
  (0 <=? x)%float = true -> (x <? Z2F C)%float = true ->
  isIntegerIn 0 (C - 1) (Math_floor x).
Proof.
  intros HC H0 H1.
  assert (P : 2 ^ 52 < 2 ^ 53) by reflexivity.
  pose proof (Prim2SF_valid x) as V.
  rewrite leb_spec in H0. rewrite ltb_spec, Prim2SF_Z2F in H1 by lia.
  change (Prim2SF 0) with (S754_zero false) in H0.
  rewrite <- (SF2Prim_Prim2SF x).
  destruct (Prim2SF x) as [sx|sx| |sx m e]; try discriminate.
  - destruct sx.
    + left. split; [vm_compute; reflexivity | lia].
    + right. exists 0. split; [lia | vm_compute; reflexivity].
  - exfalso. destruct sx; [discriminate|].
    unfold SFltb in H1.
    destruct (canonical_pos_neg C ltac:(lia)) as (v & _ & Ecan). rewrite Ecan in H1.
    discriminate.
  - destruct sx; [discriminate|]. clear H0.
    unfold SFltb in H1.
    destruct (SFcompare (S754_finite false m e) (canonical C)) as [[| |]|] eqn:Cmp;
      try discriminate. clear H1.
    destruct (below_integer m e C V HC Cmp) as (He & Hlt).
    destruct (valid_finite _ _ _ V) as (Hm & _ & _).
    assert (Ex : Prim2SF (SF2Prim (S754_finite false m e)) = S754_finite false m e)
      by (apply Prim2SF_SF2Prim; exact V).
    assert (Hsmall : (abs (SF2Prim (S754_finite false m e)) <? two52)%float = true).
    { rewrite ltb_spec, abs_spec, Ex.
      change (Prim2SF two52) with (S754_finite false 4503599627370496 0).
      unfold SFltb, SFabs, SFcompare.
      replace (e ?= 0) with Lt by (symmetry; apply Z.compare_lt_iff; lia). reflexivity. }
    destruct (nearest_even_finite false m e He Hm V) as (k & Hk & Hq & Hn).
    assert (Hpow : 0 < 2 ^ (- e)) by (apply Z.pow_pos_nonneg; lia).
    assert (HqC : Zpos m / 2 ^ (- e) < C) by (apply Z.div_lt_upper_bound; lia).
    assert (Hk0 : 0 <= k < 2 ^ 53) by lia.
    pose proof (compare_with_any_integer m e k V ltac:(lia) Hk0) as Ck.
    unfold Math_floor. rewrite Hsmall, Hn. cbv zeta.
    rewrite eqb_spec, ltb_spec, Ex, Prim2SF_Z2F by lia.
    unfold SFeqb, SFltb. rewrite (SFcompare_antisym (canonical k)), Ck.
    cbn [option_map].
    pose proof (Z.div_mod (Zpos m) (2 ^ (- e)) ltac:(lia)) as Dm.
    pose proof (Z.mod_pos_bound (Zpos m) (2 ^ (- e)) Hpow) as Bm.
    destruct (Z.compare_spec (Zpos m) (k * 2 ^ (- e))) as [E|L|G]; cbn [CompOpp].
    + (* the Number is the integer k itself *)
      right. exists k. split; [nia|].
      rewrite Z2F_canonical by lia. f_equal.
      destruct (Z.eq_dec k 0) as [->|Hnz]; [lia|].
      destruct (canonical_pos_neg k Hnz) as (v & Hv & Ecan).
      replace (k <? 0) with false in Ecan by (symmetry; apply Z.ltb_ge; lia).
      rewrite Ecan in Ck |- *. apply SFcompare_Eq_finite. exact Ck.
    + right. exists (k - 1). split; [nia|].
      change 1%float with (Z2F 1). apply Number_sub_exact; lia.
    + right. exists k. split; [nia | reflexivity].
Qed.

(* ================================================================== *)
(** * A product with a Number below 1 *)
(* ================================================================== *)

Lemma shr_nonpos (mrs : shr_record) (e n : Z) : n <= 0 -> shr mrs e n = (mrs, e).
Proof. intros H. unfold shr. destruct n; try reflexivity. lia. Qed.

Lemma shr_1_r (r : shr_record) : 0 <= shr_m r -> shr_r (shr_1 r) = Z.odd (shr_m r).
Proof.
  destruct r as [m r s]. cbn [shr_m shr_1]. intros Hm.
  destruct m as [|[p|p|]|p]; try lia; reflexivity.
Qed.

(** The bit below the last one kept decides whether the shift is at or
    above the half. *)
Lemma shr_iter_r (p : positive) (M : Z) :
  0 <= M -> M mod 2 ^ Zpos p < 2 ^ (Zpos p - 1) ->
  shr_r (iter_pos shr_1 p {| shr_m := M; shr_r := false; shr_s := false |}) = false.
Proof.
  intros HM HR. rewrite iter_pos_nat.
  destruct (Pos.to_nat p) as [|n] eqn:En; [lia|].
  change (Nat.iter (S n) shr_1 ?r) with (shr_1 (Nat.iter n shr_1 r)).
  assert (Hn : Z.of_nat n = Zpos p - 1) by lia.
  assert (Hpow : 0 < 2 ^ (Zpos p - 1)) by (apply Z.pow_pos_nonneg; lia).
  assert (Hm : shr_m (Nat.iter n shr_1 {| shr_m := M; shr_r := false; shr_s := false |})
               = M / 2 ^ (Zpos p - 1)).
  { rewrite shr_iter_m by (cbn [shr_m]; exact HM). cbn [shr_m]. now rewrite Hn. }
  rewrite shr_1_r by (rewrite Hm; apply Z.div_pos; lia).
  rewrite Hm.
  pose proof (Z.div_mod M (2 ^ Zpos p) ltac:(apply Z.pow_nonzero; lia)) as Dm.
  pose proof (Z.mod_pos_bound M (2 ^ Zpos p) ltac:(apply Z.pow_pos_nonneg; lia)) as Bm.
  assert (E2 : 2 ^ Zpos p = 2 * 2 ^ (Zpos p - 1)).
  { rewrite <- Z.pow_succ_r by lia. f_equal. lia. }
  assert (Eq : M / 2 ^ (Zpos p - 1) = 2 * (M / 2 ^ Zpos p)).
  { symmetry. apply Z.div_unique with (r := M mod 2 ^ Zpos p); [lia|].
    rewrite Dm at 1. rewrite E2 at 1. lia. }
  rewrite Eq. rewrite Z.odd_mul. reflexivity.
Qed.

Lemma round_keeps (mrs : shr_record) :
  shr_r mrs = false -> round_nearest_even (shr_m mrs) (loc_of_shr_record mrs) = shr_m mrs.
Proof. destruct mrs as [m r s]. cbn [shr_r shr_m]. intros ->. now destruct s. Qed.

Lemma round_at_most_next (m : Z) (l : location) :
  round_nearest_even m l = m \/ round_nearest_even m l = m + 1.
Proof.
  unfold round_nearest_even. destruct l as [|[| |]]; try destruct (IntDef.Z.even m); auto.
Qed.

(** Rounding the product of a mantissa below 1 and the mantissa of [C]
    gives a Number from 0 up to, but not including, [C]. *)
Lemma round_product_below (mu mC : positive) (eu eC : Z) :
  Zpos mu < 2 ^ 53 -> Zpos mu < 2 ^ (- eu) -> -1074 <= eu <= -53 ->
  (eu = -1074 \/ Zpos (digits2_pos mu) = 53) ->
  2 ^ 52 < Zpos mC < 2 ^ 53 -> -52 <= eC <= -1 ->
  SFleb (S754_zero false)
    (binary_round_aux prec emax false (Zpos (mu * mC)) (eu + eC) loc_Exact) = true
  /\ SFltb (binary_round_aux prec emax false (Zpos (mu * mC)) (eu + eC) loc_Exact)
       (S754_finite false mC eC) = true.
Proof.
  intros Hmu Hu1 Heu Hcan HmC HeC.
  cut (exists y, binary_round_aux prec emax false (Zpos (mu * mC)) (eu + eC) loc_Exact = y
                 /\ SFleb (S754_zero false) y = true
                 /\ SFltb y (S754_finite false mC eC) = true).
  { intros (y & Ey & Hy). rewrite Ey. exact Hy. }
  set (M := (mu * mC)%positive).
  assert (HM : Zpos M = Zpos mu * Zpos mC) by (unfold M; apply Pos2Z.inj_mul).
  set (E := eu + eC).
  pose proof (digits_bounds M) as [LD UD]. set (D := Zpos (digits2_pos M)) in *.
  assert (Hpn : 0 < 2 ^ (- eu)) by (apply Z.pow_pos_nonneg; lia).
  assert (HMlo : 2 ^ 52 < Zpos M) by nia.
  assert (HMhi : Zpos M < 2 ^ (- eu) * 2 ^ 53) by nia.
  assert (HD53 : 53 <= D).
  { assert (52 < D); [|lia]. apply (Z.pow_lt_mono_r_iff 2); lia. }
  assert (HDup : D <= 53 - eu).
  { assert (D - 1 < 53 - eu); [|lia]. apply (Z.pow_lt_mono_r_iff 2); [lia | lia|].
    replace (53 - eu) with (- eu + 53) by lia. rewrite Z.pow_add_r by lia. lia. }
  set (e1 := Z.max (D + E - 53) (-1074)).
  assert (He1 : e1 <= eC) by (unfold e1, E; lia).
  assert (Hn1 : 0 < e1 - E).
  { destruct Hcan as [Hc|Hc]; [unfold e1, E; lia|].
    pose proof (digits_bounds mu) as [Lmu _]. rewrite Hc in Lmu.
    change (2 ^ (53 - 1)) with (2 ^ 52) in Lmu.
    assert (2 ^ 104 < Zpos M) by (change (2 ^ 104) with (2 ^ 52 * 2 ^ 52); nia).
    assert (104 < D) by (apply (Z.pow_lt_mono_r_iff 2); lia).
    unfold e1, E. lia. }
  assert (Hn1D : D - 53 <= e1 - E) by (unfold e1; lia).
  destruct (e1 - E) as [|p|p] eqn:Ep; try lia.
  unfold binary_round_aux. unfold shr_fexp at 1. cbn [Zdigits2 shr_record_of_loc].
  fold M. fold E. fold D. rewrite fexp_eq. fold e1. rewrite Ep. cbn [shr].
  replace (E + Zpos p) with e1 by lia.
  set (rec' := iter_pos shr_1 p {| shr_m := Zpos M; shr_r := false; shr_s := false |}).
  assert (Hpp : 0 < 2 ^ Zpos p) by (apply Z.pow_pos_nonneg; lia).
  assert (Hm1 : shr_m rec' = Zpos M / 2 ^ Zpos p).
  { unfold rec'. rewrite iter_pos_nat, shr_iter_m by (cbn [shr_m]; lia).
    cbn [shr_m]. now rewrite positive_nat_Z. }
  assert (Hm1r : 0 <= shr_m rec' < 2 ^ 53).
  { rewrite Hm1. split; [apply Z.div_pos; lia|].
    apply Z.div_lt_upper_bound; [lia|].
    assert (2 ^ D <= 2 ^ (Zpos p + 53)) by (apply Z.pow_le_mono_r; lia).
    rewrite Z.pow_add_r in * by lia. lia. }
  set (m2 := round_nearest_even (shr_m rec') (loc_of_shr_record rec')).
  assert (Hm2 : m2 = shr_m rec' \/ m2 = shr_m rec' + 1) by apply round_at_most_next.
  (* at the exponent of C the mantissa stays below the one of C *)
  assert (Hkey : e1 = eC -> m2 < Zpos mC).
  { intros Ee. assert (Hp : Zpos p = - eu) by (unfold E in Ep; lia).
    rewrite Hp in *.
    pose proof (Z.div_mod (Zpos M) (2 ^ (- eu)) ltac:(lia)) as Dm.
    pose proof (Z.mod_pos_bound (Zpos M) (2 ^ (- eu)) Hpn) as Bm.
    assert (Hlt : shr_m rec' < Zpos mC).
    { rewrite Hm1. apply Z.div_lt_upper_bound; [lia | nia]. }
    destruct (Z.eq_dec (- eu) 53) as [E53|N53].
    - destruct (Z_lt_le_dec (shr_m rec') (Zpos mC - 1)) as [Hless|Hmost]; [lia|].
      assert (Hr : shr_r rec' = false).
      { unfold rec'. apply shr_iter_r; [lia|]. rewrite Hp, E53.
        change (2 ^ (53 - 1)) with (2 ^ 52). rewrite E53 in *.
        rewrite Hm1 in Hmost, Hlt.
        assert (Zpos M / 2 ^ 53 = Zpos mC - 1) by lia.
        assert (Zpos mu <= 2 ^ 53 - 1) by lia. nia. }
      unfold m2. rewrite round_keeps by exact Hr. exact Hlt.
    - assert (H54 : 2 * 2 ^ 53 <= 2 ^ (- eu)).
      { change (2 * 2 ^ 53) with (2 ^ 54). apply Z.pow_le_mono_r; lia. }
      assert (2 * shr_m rec' < Zpos mC).
      { rewrite Hm1.
        assert (2 ^ (- eu) * (2 * (Zpos M / 2 ^ (- eu))) < 2 ^ (- eu) * Zpos mC); [|nia].
        nia. }
      lia. }
  assert (Hfexp : forall dg, dg <= 53 -> Z.max (dg + e1 - 53) (-1074) - e1 <= 0)
    by (intros dg Hdg; unfold e1; lia).
  unfold shr_fexp. rewrite fexp_eq. fold m2.
  assert (Hm2r : 0 <= m2 <= 2 ^ 53) by lia.
  destruct m2 as [|p2|p2] eqn:Em2; try lia.
  - cbn [Zdigits2 shr_record_of_loc]. rewrite shr_nonpos by (apply (Hfexp 0); lia).
    cbn [shr_m]. eexists. split; [reflexivity|]. split; reflexivity.
  - cbn [Zdigits2 shr_record_of_loc].
    destruct (Z.eq_dec (Zpos p2) (2 ^ 53)) as [E53|N53].
    + assert (Hd2 : Zpos (digits2_pos p2) = 54).
      { apply digits_unique; [|lia]. rewrite E53. change (2 ^ (54 - 1)) with (2 ^ 53).
        change (2 ^ 54) with (2 * 2 ^ 53). lia. }
      assert (He1lt : e1 < eC).
      { destruct (Z.eq_dec e1 eC) as [Ee|Ne]; [|lia]. specialize (Hkey Ee). lia. }
      rewrite Hd2. replace (Z.max (54 + e1 - 53) (-1074) - e1) with 1 by (unfold e1; lia).
      cbn [shr iter_pos].
      destruct p2 as [p'|p'|]; try (exfalso; change (2 ^ 53) with (2 * 2 ^ 52) in E53; lia).
      cbn [shr_1 shr_m orb].
      assert (Hp' : Zpos p' = 2 ^ 52) by (change (2 ^ 53) with (2 * 2 ^ 52) in E53; lia).
      replace (e1 + 1 <=? emax - prec) with true
        by (symmetry; apply Z.leb_le; change (emax - prec) with 971; lia).
      eexists. split; [reflexivity|]. split; [reflexivity|].
      unfold SFltb. cbn [SFcompare].
      destruct (Z.compare_spec (e1 + 1) eC) as [Heq|Hlt|Hgt]; try reflexivity; try lia.
      change (Pos.compare_cont Eq p' mC) with (Zpos p' ?= Zpos mC).
      replace (Zpos p' ?= Zpos mC) with Lt by (symmetry; apply Z.compare_lt_iff; lia).
      reflexivity.
    + assert (Hd2 : Zpos (digits2_pos p2) <= 53) by (apply digits_le_53; lia).
      rewrite shr_nonpos by (apply Hfexp; exact Hd2).
      cbn [shr_m].
      replace (e1 <=? emax - prec) with true
        by (symmetry; apply Z.leb_le; change (emax - prec) with 971; lia).
      eexists. split; [reflexivity|]. split; [reflexivity|].
      unfold SFltb. cbn [SFcompare].
      destruct (Z.compare_spec e1 eC) as [Heq|Hlt|Hgt]; try reflexivity; try lia.
      change (Pos.compare_cont Eq p2 mC) with (Zpos p2 ?= Zpos mC).
      specialize (Hkey Heq).
      replace (Zpos p2 ?= Zpos mC) with Lt by (symmetry; apply Z.compare_lt_iff; lia).
      reflexivity.
Qed.

(** [u * C] for a Number [u] from 0 up to, but not including, 1, and an
    integer [C] that is no power of two: the product, once rounded, is
    still below [C]. *)
Lemma mul_below (u : float) (C d : Z) :
  2 ^ (d - 1) < C < 2 ^ d -> 1 <= d <= 52 ->
  (0 <=? u)%float = true -> (u <? 1)%float = true ->
  (0 <=? u * Z2F C)%float = true /\ (u * Z2F C <? Z2F C)%float = true.
Proof.
  intros HC Hd H0 H1.
  assert (P : 2 ^ d <= 2 ^ 52) by (apply Z.pow_le_mono_r; lia).
  assert (P' : 2 ^ 52 < 2 ^ 53) by reflexivity.
  assert (Hpd : 0 < 2 ^ (d - 1)) by (apply Z.pow_pos_nonneg; lia).
  pose proof (Prim2SF_valid u) as V.
  rewrite leb_spec in H0 |- *. rewrite ltb_spec in H1 |- *.
  rewrite mul_spec, Prim2SF_Z2F by lia.
  change (Prim2SF 0) with (S754_zero false) in *.
  change (Prim2SF 1) with (canonical 1) in H1.
  destruct (canonical_pos_neg C ltac:(lia)) as (vC & HvC & Ecan).
  replace (C <? 0) with false in Ecan by (symmetry; apply Z.ltb_ge; lia).
  rewrite Z.abs_eq in HvC by lia.
  assert (HdC : Zpos (digits2_pos vC) = d) by (apply digits_unique; lia).
  rewrite HdC in Ecan. rewrite Ecan.
  assert (HmC : 2 ^ 52 < Zpos (shl vC (53 - d)) < 2 ^ 53).
  { rewrite shl_Z by lia. rewrite <- HvC.
    assert (E52 : 2 ^ 52 = 2 ^ (d - 1) * 2 ^ (53 - d)).
    { rewrite <- Z.pow_add_r by lia. f_equal. lia. }
    assert (E53 : 2 ^ 53 = 2 ^ d * 2 ^ (53 - d)).
    { rewrite <- Z.pow_add_r by lia. f_equal. lia. }
    assert (0 < 2 ^ (53 - d)) by (apply Z.pow_pos_nonneg; lia).
    rewrite E52, E53. split; apply Z.mul_lt_mono_pos_r; lia. }
  destruct (Prim2SF u) as [su|su| |su mu eu].
  - split; reflexivity.
  - destruct su; discriminate.
  - discriminate.
  - destruct su; [discriminate|].
    unfold SFltb in H1.
    destruct (SFcompare (S754_finite false mu eu) (canonical 1)) as [[| |]|] eqn:Cmp;
      try discriminate.
    destruct (below_integer mu eu 1 V ltac:(split; reflexivity) Cmp) as (Heu & Hlt).
    rewrite Z.mul_1_l in Hlt.
    destruct (valid_finite _ _ _ V) as (Hmu & Hr & Hn).
    assert (Heu53 : eu <= -53).
    { destruct (Z_le_gt_dec eu (-53)) as [L|G]; [exact L | exfalso].
      destruct Hn as [Hn|Hn]; [lia|].
      pose proof (digits_bounds mu) as [Lmu _]. rewrite Hn in Lmu.
      change (2 ^ (53 - 1)) with (2 ^ 52) in Lmu.
      assert (2 ^ (- eu) <= 2 ^ 52) by (apply Z.pow_le_mono_r; lia). lia. }
    unfold SF64mul, SFmul. cbn [xorb].
    apply round_product_below; try assumption; lia.
Qed.

Lemma integer_weaken (lo hi lo' hi' : Z) (x : float) :
  isIntegerIn lo hi x -> lo' <= lo -> hi <= hi' -> isIntegerIn lo' hi' x.
Proof.
  intros [[-> H]|(k & Hk & ->)] Hlo Hhi.
  - left. split; [reflexivity | lia].
  - right. exists k. split; [lia | reflexivity].
Qed.

(** [Math.floor(u * C)] for a read [u] of [Math.random()]. *)
Lemma floor_of_scaled (u : float) (C d : Z) :
  2 ^ (d - 1) < C < 2 ^ d -> 1 <= d <= 52 ->
  (0 <=? u)%float = true -> (u <? 1)%float = true ->
  isIntegerIn 0 (C - 1) (Math_floor (u * Z2F C)).
Proof.
  intros HC Hd H0 H1.
  destruct (mul_below u C d HC Hd H0 H1) as [L R].
  assert (0 < 2 ^ (d - 1)) by (apply Z.pow_pos_nonneg; lia).
  assert (2 ^ d <= 2 ^ 51 \/ d = 52) as [Hp | ->].
  { destruct (Z.eq_dec d 52); [now right | left; apply Z.pow_le_mono_r; lia]. }
  - apply Math_floor_below; [|exact L|exact R].
    assert (2 ^ 51 < 2 ^ 52) by reflexivity. lia.
  - apply Math_floor_below; [|exact L|exact R]. lia.
Qed.

Lemma randomHsl_eq random (n : nat) :
  randomHsl random n =
    ({| h := Math_floor (random n * Z2F 360);
        s := (Math_floor (random (S n) * Z2F 40) + Z2F 50)%float;
        l := (Math_floor (random (S (S n)) * Z2F 30) + Z2F 35)%float |}, S (S (S n))).
Proof. reflexivity. Qed.

Lemma randomHsl_ranges random (n : nat) :
  unitOracle random ->
  isIntegerIn 0 359 (h (fst (randomHsl random n)))
  /\ isIntegerIn 50 89 (s (fst (randomHsl random n)))
  /\ isIntegerIn 35 64 (l (fst (randomHsl random n))).
Proof.
  intros U. rewrite randomHsl_eq. cbn [fst h s l].
  destruct (U n) as [A1 B1]. destruct (U (S n)) as [A2 B2].
  destruct (U (S (S n))) as [A3 B3].
  assert (P : 2 ^ 51 = 2251799813685248) by reflexivity.
  split; [|split].
  - apply (floor_of_scaled _ 360 9); try assumption; [split; reflexivity | lia].
  - pose proof (floor_of_scaled _ 40 6 ltac:(split; reflexivity) ltac:(lia) A2 B2) as F.
    destruct (integer_add 0 (40 - 1) _ 50 F) as (k & Hk & ->); try (rewrite P; simpl; lia).
    right. exists (k + 50). split; [lia | reflexivity].
  - pose proof (floor_of_scaled _ 30 5 ltac:(split; reflexivity) ltac:(lia) A3 B3) as F.
    destruct (integer_add 0 (30 - 1) _ 35 F) as (k & Hk & ->); try (rewrite P; simpl; lia).
    right. exists (k + 35). split; [lia | reflexivity].
Qed.

Lemma randomHsl_whole random (n : nat) :
  unitOracle random -> wholeHsl (fst (randomHsl random n)).
Proof.
  intros U. destruct (randomHsl_ranges random n U) as (Hh & Hs & Hl).
  repeat split.
  - apply (integer_weaken _ _ _ _ _ Hh); lia.
  - apply (integer_weaken _ _ _ _ _ Hs); lia.
  - apply (integer_weaken _ _ _ _ _ Hl); lia.
Qed.

Lemma push_random_whole random (k : nat) :
  unitOracle random ->
  forall (cs : list Hsl) (n : nat),
    Forall wholeHsl cs -> Forall wholeHsl (fst (push_random random k cs n)).
Proof.
  intros U. induction k as [|k IH]; intros cs n Hcs.
  - exact Hcs.
  - change (push_random random (S k) cs n)
      with (push_random random k (cs ++ [fst (randomHsl random n)])%list (S (S (S n)))).
    apply IH. apply Forall_app. split; [exact Hcs|].
    constructor; [|constructor]. now apply randomHsl_whole.
Qed.

Lemma dispatch_always_whole random (name : string) (baseHsl : Hsl) (cc : Z) (angle : float)
    (n : nat) :
  unitOracle random ->
  0 <= cc <= 6 ->
  (name = "custom" -> exists a : Z, Z.abs a < 2 ^ 40 /\ angle = Z2F a) ->
  wholeHsl baseHsl ->
  Forall wholeHsl (fst (dispatch random name baseHsl cc angle n)).
Proof.
  intros U Hcc Hangle Hb.
  destruct (existsb (String.eqb name) HARMONY_TYPES) eqn:E.
  - destruct (name =? "random")%string eqn:R.
    + apply String.eqb_eq in R. subst name. rewrite dispatch_random.
      apply push_random_whole; [exact U|]. now constructor.
    + apply dispatch_whole; try assumption. rewrite E, R; reflexivity.
  - rewrite dispatch_unrecognized by exact E.
    apply push_random_whole; [exact U|]. now constructor.
Qed.

(** X9.  When every read of [Math.random()] is a Number from 0
    up to, but not including, 1, [randomHsl] returns integers: a hue from 0
    to 359, a saturation from 50 to 89 and a lightness from 35 to 64; it
    reads [Math.random()] three times. *)
Theorem randomHsl_is_in_range :
  forall (random : nat -> float) (n : nat),
    unitOracle random ->
    isIntegerIn 0 359 (h (fst (randomHsl random n)))
    /\ isIntegerIn 50 89 (s (fst (randomHsl random n)))
    /\ isIntegerIn 35 64 (l (fst (randomHsl random n)))
    /\ snd (randomHsl random n) = (n + 3)%nat.
Proof.
  intros random n U. destruct (randomHsl_ranges random n U) as (Hh & Hs & Hl).
  repeat split; try assumption.
  rewrite randomHsl_eq. cbn [snd]. lia.
Qed.

Lemma randomHsl_is_in_range_witness :
  isIntegerIn 0 359 (h (fst (randomHsl half 0%nat)))
  /\ isIntegerIn 50 89 (s (fst (randomHsl half 0%nat)))
  /\ isIntegerIn 35 64 (l (fst (randomHsl half 0%nat)))
  /\ snd (randomHsl half 0%nat) = 3%nat.
Proof.
  apply (randomHsl_is_in_range half 0%nat).
  intros i. split; reflexivity.
Defined.

(** X28.  When every read of [Math.random()] is a Number from 0
    up to, but not including, 1, every call of [generatePalette] returns a
    palette (whatever the harmony, the count and the base colour; for the
    custom harmony with the default or an integer angle), and every
    colour of the palette is well formed: its hue is an integer from 0 to
    360, its saturation and lightness are integers from 0 to 100, and its
    hex is [#] followed by six hexadecimal digits. *)
Theorem every_palette_is_well_formed :
  forall (random : nat -> float) (opts : options) (n : nat),
    unitOracle random ->
    (forall name, o_harmony opts = Some name -> toLowerCase name = "custom" ->
                  integerAngle (o_angle opts)) ->
    exists p n',
      generatePalette random opts n = (Some p, n')
      /\ Forall (fun c => wholeHsl (hsl c) /\ hexOk (hex c) = true) (colors p).
Proof.
  intros random opts n U Hangle.
  set (name := toLowerCase (match o_harmony opts with Some x => x | None => "random" end)).
  set (angle := match o_angle opts with Some a => a | None => 45%float end).
  set (cc := colorCount (o_count opts)).
  pose proof (colorCount_range (o_count opts)) as Hcc. fold cc in Hcc.
  destruct (baseHslOf random opts n) as [baseHsl n1] eqn:Hb.
  assert (Hbase : wholeHsl baseHsl).
  { unfold baseHslOf in Hb. destruct (truthy (o_baseColor opts)) as [color|].
    - injection Hb as <- _. unfold hexToHsl.
      destruct (hexToRgb_bytes color) as (R & G & B & -> & HR & HG & HB). cbn [r g b].
      exact (rgbToHsl_bytes_whole R G B HR HG HB).
    - replace baseHsl with (fst (randomHsl random n)) by now rewrite Hb.
      now apply randomHsl_whole. }
  assert (Ha : name = "custom" -> exists a : Z, Z.abs a < 2 ^ 40 /\ angle = Z2F a).
  { unfold name, angle. destruct (o_harmony opts) as [x|].
    - intros E. destruct (Hangle x eq_refl E) as [Hnone|(a & Ha & Hsome)].
      + rewrite Hnone. exists 45. split; reflexivity.
      + rewrite Hsome. now exists a.
    - intros E. discriminate E. }
  pose proof (dispatch_always_whole random name baseHsl cc angle n1 U ltac:(lia) Ha Hbase)
    as Hw.
  assert (Hlen : List.length (fst (dispatch random name baseHsl cc angle n1)) = Z.to_nat cc).
  { apply dispatch_length. lia. }
  destruct (dispatch random name baseHsl cc angle n1) as [cs n2] eqn:Hd.
  cbn [fst] in Hw, Hlen.
  rewrite (generatePalette_unfold random opts n _ _ cs n2 Hb Hd).
  destruct (toColors 0 cs) as [|first rest] eqn:Hc.
  - apply (f_equal (@List.length Color)) in Hc. rewrite toColors_length, Hlen in Hc.
    cbn [List.length] in Hc. lia.
  - eexists. exists n2. split; [reflexivity|]. cbn [colors]. rewrite <- Hc.
    clear -Hw. generalize 0%nat. induction Hw as [|c cs Hc Hcs IH]; intros i; cbn [toColors].
    + constructor.
    + constructor; [|apply IH]. cbn [hsl hex]. split; [exact Hc|].
      destruct (hslToHex_whole c Hc) as (R & G & B & HR & HG & HB & ->).
      now apply byteText_hexOk.
Qed.

Lemma every_palette_is_well_formed_witness :
  exists p n',
    generatePalette half (mkOptions None (CountNumber 4) None None) 0%nat = (Some p, n')
    /\ Forall (fun c => wholeHsl (hsl c) /\ hexOk (hex c) = true) (colors p).
Proof.
  apply (every_palette_is_well_formed half (mkOptions None (CountNumber 4) None None) 0%nat).
  - intros i. split; reflexivity.
  - intros name E. discriminate E.
Defined.

(* ================================================================== *)
(** * [randomHex] *)
(* ================================================================== *)

Lemma F2Z_Z2F (k : Z) : 0 <= k < 2 ^ 53 -> F2Z (Z2F k) = k.
Proof.
  intros Hk. unfold F2Z. rewrite Prim2SF_Z2F by lia.
  destruct k as [|v|v]; [reflexivity| |lia].
  cbn [canonical].
  pose proof (digits_bounds v) as [Lo Hi].
  set (d := Zpos (digits2_pos v)) in *.
  assert (Hd : 0 < d <= 53).
  { split; [unfold d; lia|].
    destruct (Z_le_gt_dec d 53) as [L|G]; [exact L | exfalso].
    assert (2 ^ 53 <= 2 ^ (d - 1)) by (apply Z.pow_le_mono_r; lia). lia. }
  rewrite shl_Z by lia.
  destruct (0 <=? d - 53) eqn:E.
  - apply Z.leb_le in E. replace (d - 53) with 0 by lia. replace (53 - d) with 0 by lia.
    rewrite Z.shiftl_0_r. change (2 ^ 0) with 1. lia.
  - replace (- (d - 53)) with (53 - d) by lia.
    rewrite Z.shiftr_div_pow2 by lia. apply Z.div_mul.
    apply Z.pow_nonzero; lia.
Qed.

Lemma integer_is_finite (k : Z) :
  0 <= k < 2 ^ 53 -> is_nan (Z2F k) = false /\ is_infinity (Z2F k) = false.
Proof.
  intros Hk. split.
  - apply spec_not_nan. rewrite Prim2SF_Z2F by lia. clear Hk.
    destruct k; discriminate.
  - unfold is_infinity. rewrite eqb_spec, abs_spec, Prim2SF_Z2F by lia. clear Hk.
    destruct k; reflexivity.
Qed.

Lemma Number_toString16_integer (k : Z) :
  0 <= k < 2 ^ 53 -> Number_toString16 (Z2F k) = Z_toString16 k.
Proof.
  intros Hk. unfold Number_toString16.
  destruct (integer_is_finite k Hk) as [-> ->]. rewrite F2Z_Z2F by exact Hk.
  replace (k <? 0) with false by (symmetry; apply Z.ltb_ge; lia). reflexivity.
Qed.

(** The digits that [toString(16)] writes, read back. *)
Lemma toDigits16_hexRun (fuel : nat) :
  forall (n : Z) (acc : string),
    0 <= n < 16 ^ Z.of_nat fuel ->
    hexRun (toDigits16 fuel n acc) 0 = hexRun acc n.
Proof.
  induction fuel as [|fuel IH]; intros n acc Hn.
  - change (16 ^ Z.of_nat 0) with 1 in Hn. replace n with 0 by lia. reflexivity.
  - cbn [toDigits16].
    assert (Hm : 0 <= n mod 16 < 16) by (apply Z.mod_pos_bound; lia).
    destruct (hexDigit_is_hex _ Hm) as [_ Hv].
    destruct (n / 16 =? 0) eqn:E.
    + apply Z.eqb_eq in E. cbn [hexRun]. rewrite Hv. f_equal.
      pose proof (Z.div_mod n 16 ltac:(lia)). lia.
    + rewrite IH.
      * cbn [hexRun]. rewrite Hv. f_equal.
        pose proof (Z.div_mod n 16 ltac:(lia)). lia.
      * split; [apply Z.div_pos; lia|].
        apply Z.div_lt_upper_bound; [lia|].
        rewrite Nat2Z.inj_succ, Z.pow_succ_r in Hn by lia. lia.
Qed.

Lemma toDigits16_hex (fuel : nat) :
  forall (n : Z) (acc : string),
    0 <= n -> allHexDigits acc = true -> allHexDigits (toDigits16 fuel n acc) = true.
Proof.
  induction fuel as [|fuel IH]; intros n acc Hn Hacc; [exact Hacc|].
  cbn [toDigits16].
  assert (Hm : 0 <= n mod 16 < 16) by (apply Z.mod_pos_bound; lia).
  destruct (hexDigit_is_hex _ Hm) as [Hd _].
  assert (Hacc' : allHexDigits (String (hexDigit (n mod 16)) acc) = true).
  { cbn [allHexDigits]. now rewrite Hd, Hacc. }
  destruct (n / 16 =? 0); [exact Hacc'|].
  apply IH; [apply Z.div_pos; lia | exact Hacc'].
Qed.

Lemma toDigits16_length (fuel : nat) :
  forall (n : Z) (acc : string) (d : nat),
    0 <= n < 16 ^ Z.of_nat d -> (1 <= d)%nat ->
    (String.length acc + 1 <= String.length (toDigits16 (S fuel) n acc)
     <= String.length acc + d)%nat.
Proof.
  induction fuel as [|fuel IH]; intros n acc d Hn Hd.
  - cbn [toDigits16]. destruct (n / 16 =? 0); cbn [String.length]; lia.
  - change (toDigits16 (S (S fuel)) n acc)
      with (if n / 16 =? 0 then String (hexDigit (n mod 16)) acc
            else toDigits16 (S fuel) (n / 16) (String (hexDigit (n mod 16)) acc)).
    destruct (n / 16 =? 0) eqn:E; [cbn [String.length]; lia|].
    apply Z.eqb_neq in E.
    destruct d as [|[|d]]; [lia| |].
    + change (16 ^ Z.of_nat 1) with 16 in Hn.
      exfalso. apply E. apply Z.div_small. lia.
    + assert (Hq : 0 <= n / 16 < 16 ^ Z.of_nat (S d)).
      { split; [apply Z.div_pos; lia|].
        apply Z.div_lt_upper_bound; [lia|].
        rewrite (Nat2Z.inj_succ (S d)), Z.pow_succ_r in Hn by lia. lia. }
      specialize (IH (n / 16) (String (hexDigit (n mod 16)) acc) (S d) Hq ltac:(lia)).
      cbn [String.length] in IH. lia.
Qed.

Lemma padding_hex (k : nat) (t : string) :
  allHexDigits t = true ->
  allHexDigits (padding k "0" t) = true
  /\ String.length (padding k "0" t) = (k + String.length t)%nat
  /\ hexRun (padding k "0" t) 0 = hexRun t 0.
Proof.
  intros Ht. induction k as [|k (IH1 & IH2 & IH3)]; [repeat split; exact Ht|].
  cbn [padding]. repeat split.
  - cbn [allHexDigits]. now rewrite IH1.
  - cbn [String.length]. now rewrite IH2.
  - cbn [hexRun]. exact IH3.
Qed.

(** [k.toString(16).padStart(6, '0')] for an integer [k] of at most six
    hexadecimal digits: six digits that denote [k]. *)
Lemma padded_integer (k : Z) :
  0 <= k < 16 ^ 6 ->
  sixHexDigits (padStart 6 "0" (Z_toString16 k)) = true
  /\ hexRun (padStart 6 "0" (Z_toString16 k)) 0 = k.
Proof.
  intros Hk. unfold Z_toString16.
  set (fuel := Z.to_nat (Z.log2 k)).
  pose proof (toDigits16_length fuel k EmptyString 6 Hk ltac:(lia)) as L.
  cbn [String.length] in L.
  pose proof (toDigits16_hex (S fuel) k EmptyString ltac:(lia) eq_refl) as H.
  assert (V : hexRun (toDigits16 (S fuel) k EmptyString) 0 = k).
  { rewrite toDigits16_hexRun; [reflexivity|]. split; [lia|].
    destruct (Z.eq_dec k 0) as [->|Hnz]; [reflexivity|].
    pose proof (Z.log2_spec k ltac:(lia)) as [_ Hl].
    unfold fuel. rewrite Nat2Z.inj_succ, Z2Nat.id by apply Z.log2_nonneg.
    apply Z.lt_le_trans with (1 := Hl).
    apply Z.pow_le_mono_l. lia. }
  set (t := toDigits16 (S fuel) k EmptyString) in *.
  unfold padStart. destruct (padding_hex (6 - String.length t) t H) as (P1 & P2 & P3).
  split; [|now rewrite P3].
  unfold sixHexDigits. rewrite P1, P2.
  replace (6 - String.length t + String.length t)%nat with 6%nat by lia. reflexivity.
Qed.

Lemma randomHex_eq random (n : nat) :
  randomHex random n
  = ("#" ++ padStart 6 "0" (Number_toString16 (Math_floor (random n * Z2F 16777215))), S n).
Proof. reflexivity. Qed.

Lemma randomHex_digits random (n : nat) :
  unitOracle random ->
  exists k : Z,
    0 <= k <= 16777214
    /\ fst (randomHex random n) = "#" ++ padStart 6 "0" (Z_toString16 k).
Proof.
  intros U. destruct (U n) as [A B]. rewrite randomHex_eq. cbn [fst].
  pose proof (floor_of_scaled _ 16777215 24 ltac:(split; reflexivity) ltac:(lia) A B) as F.
  assert (P : 2 ^ 53 = 9007199254740992) by reflexivity.
  destruct F as [[-> _]|(k & Hk & ->)].
  - exists 0. split; [lia | reflexivity].
  - exists k. split; [lia|]. rewrite Number_toString16_integer by lia. reflexivity.
Qed.

(** X27.  When every read of [Math.random()] is a Number from 0
    up to, but not including, 1, [randomHex] returns [#] followed by six
    hexadecimal digits, whatever the number drawn (short numbers are padded
    with zeros); the digits denote an integer from 0 to 16777214, so the
    colour is never [#ffffff]; [Math.random()] is read once. *)
Theorem randomHex_is_well_formed_and_never_white :
  forall (random : nat -> float) (n : nat),
    unitOracle random ->
    hexOk (fst (randomHex random n)) = true
    /\ 0 <= hexRun (stripHash (fst (randomHex random n))) 0 <= 16777214
    /\ fst (randomHex random n) <> "#ffffff"
    /\ snd (randomHex random n) = S n.
Proof.
  intros random n U.
  destruct (randomHex_digits random n U) as (k & Hk & E).
  assert (Hk6 : 0 <= k < 16 ^ 6) by (change (16 ^ 6) with 16777216; lia).
  destruct (padded_integer k Hk6) as [S6 V].
  rewrite E.
  change (stripHash ("#" ++ padStart 6 "0" (Z_toString16 k)))
    with (padStart 6 "0" (Z_toString16 k)).
  rewrite V. repeat split; try lia.
  - change (hexOk ("#" ++ padStart 6 "0" (Z_toString16 k)))
      with (sixHexDigits (padStart 6 "0" (Z_toString16 k))). exact S6.
  - intros W. injection W as W. rewrite W in V.
    change (hexRun "ffffff" 0) with 16777215 in V. lia.
Qed.

Lemma randomHex_is_well_formed_and_never_white_witness :
  hexOk (fst (randomHex half 0%nat)) = true
  /\ 0 <= hexRun (stripHash (fst (randomHex half 0%nat))) 0 <= 16777214
  /\ fst (randomHex half 0%nat) <> "#ffffff"
  /\ snd (randomHex half 0%nat) = 1%nat.
Proof.
  apply (randomHex_is_well_formed_and_never_white half 0%nat).
  intros i. split; reflexivity.
Defined.

(* ================================================================== *)
(** * [normalizeHue] on every Number *)
(* ================================================================== *)

(** A mantissa in canonical form is already rounded. *)
Lemma round_aux_canonical (sx : bool) (m : positive) (e : Z) :
  bounded prec emax m e = true ->
  binary_round_aux prec emax sx (Zpos m) e loc_Exact = S754_finite sx m e.
Proof.
  intros B. unfold bounded, canonical_mantissa in B.
  apply andb_prop in B. destruct B as [Hc He]. apply Z.eqb_eq in Hc.
  unfold binary_round_aux, shr_fexp. cbn [Zdigits2 shr_record_of_loc].
  rewrite Hc, Z.sub_diag.
  cbn [shr shr_m loc_of_shr_record round_nearest_even Zdigits2 shr_record_of_loc].
  rewrite Hc, Z.sub_diag. cbn [shr shr_m]. now rewrite He.
Qed.

(** A mantissa of at most 53 digits is not rounded: it is moved up until
    it has 53 digits or the exponent is the least one. *)
Lemma binary_round_short (sx : bool) (p : positive) (e : Z) :
  Zpos p < 2 ^ 53 -> -1074 <= e <= 971 ->
  exists (m' : positive) (e' : Z),
    binary_round prec emax sx p e = S754_finite sx m' e'
    /\ -1074 <= e' <= e
    /\ Zpos m' = Zpos p * 2 ^ (e - e')
    /\ bounded prec emax m' e' = true.
Proof.
  intros Hp He. pose proof (digits_le_53 p Hp) as Hd.
  set (d := Zpos (digits2_pos p)) in *.
  assert (Hd1 : 1 <= d) by (unfold d; lia).
  unfold binary_round. fold d. rewrite fexp_eq.
  set (e0 := Z.max (d + e - 53) (-1074)).
  assert (He0 : -1074 <= e0 <= e) by (unfold e0; lia).
  unfold shl_align. destruct (e0 - e) as [|q|q] eqn:E.
  - assert (e0 = e) by lia.
    assert (B : bounded prec emax p e = true).
    { unfold bounded, canonical_mantissa. fold d. rewrite fexp_eq. fold e0.
      apply andb_true_intro. split; [apply Z.eqb_eq; lia | apply Z.leb_le].
      change (emax - prec) with 971. lia. }
    exists p, e. split; [now apply round_aux_canonical|].
    split; [lia|]. split; [|exact B].
    rewrite Z.sub_diag. change (2 ^ 0) with 1. lia.
  - lia.
  - change (Pos.iter xO p q) with (shl p (Zpos q)).
    assert (Hq : Zpos q = e - e0) by lia.
    assert (B : bounded prec emax (shl p (Zpos q)) e0 = true).
    { unfold bounded, canonical_mantissa. rewrite digits_shl by lia. fold d.
      rewrite fexp_eq. apply andb_true_intro. split.
      - apply Z.eqb_eq. unfold e0. lia.
      - apply Z.leb_le. change (emax - prec) with 971. lia. }
    exists (shl p (Zpos q)), e0. split; [now apply round_aux_canonical|].
    split; [lia|]. split; [|exact B].
    rewrite shl_Z by lia. now rewrite Hq.
Qed.

Lemma mantissa_360 :
  exists m360 : positive,
    Prim2SF 360 = S754_finite false m360 (-44) /\ Zpos m360 = 360 * 2 ^ 44.
Proof. eexists. split; [exact Prim2SF_360 | reflexivity]. Qed.

(** [x % 360] for a finite Number that is not a zero: a zero with the sign
    of [x], or a Number with the sign of [x] and a magnitude below 360. *)
Lemma remainder_by_360 (x : float) (sx : bool) (mx : positive) (ex : Z) :
  Prim2SF x = S754_finite sx mx ex ->
  Prim2SF (Number_rem x 360) = S754_zero sx
  \/ exists (m : positive) (e : Z),
       Prim2SF (Number_rem x 360) = S754_finite sx m e
       /\ -1074 <= e <= -44 /\ Zpos m < 360 * 2 ^ (- e).
Proof.
  intros Hx. pose proof (Prim2SF_valid x) as V. rewrite Hx in V.
  destruct (valid_finite _ _ _ V) as (Hm & Hr & _).
  destruct mantissa_360 as (m360 & E360 & H360).
  unfold Number_rem. rewrite Hx, E360.
  set (e0 := Z.min ex (-44)).
  assert (He0 : -1074 <= e0 <= -44) by (unfold e0; lia).
  rewrite !Z.shiftl_mul_pow2 by (unfold e0; lia).
  set (A := Zpos mx * 2 ^ (ex - e0)).
  set (B := Zpos m360 * 2 ^ (-44 - e0)).
  assert (PA : 0 < 2 ^ (ex - e0)) by (apply Z.pow_pos_nonneg; unfold e0; lia).
  assert (PB : 0 < 2 ^ (-44 - e0)) by (apply Z.pow_pos_nonneg; lia).
  assert (HA : 0 < A) by (unfold A; lia).
  assert (HB : 0 < B) by (unfold B; lia).
  pose proof (Z.rem_bound_pos A B ltac:(lia) HB) as [R0 R1].
  assert (R2 : Z.rem A B <= A) by (apply Z.rem_le; lia).
  destruct (Z.rem A B =? 0) eqn:Ez.
  - left. destruct sx; reflexivity.
  - right. apply Z.eqb_neq in Ez.
    destruct (Z.rem A B) as [|p|p] eqn:Er; [congruence| |lia].
    assert (Hp : Zpos p < 2 ^ 53).
    { destruct (Z_le_gt_dec ex (-44)) as [L|G].
      - assert (e0 = ex) by (unfold e0; lia).
        assert (A = Zpos mx).
        { unfold A. replace (ex - e0) with 0 by lia. change (2 ^ 0) with 1. lia. }
        lia.
      - assert (e0 = -44) by (unfold e0; lia).
        assert (B = Zpos m360).
        { unfold B. replace (-44 - e0) with 0 by lia. change (2 ^ 0) with 1. lia. }
        assert (360 * 2 ^ 44 < 2 ^ 53) by reflexivity. lia. }
    assert (En : binary_normalize prec emax (if sx then - Zpos p else Zpos p) e0 false
                 = binary_round prec emax sx p e0) by (destruct sx; reflexivity).
    rewrite En.
    destruct (binary_round_short sx p e0 Hp ltac:(lia)) as (m' & e' & -> & He' & Hm' & Bm).
    exists m', e'. split; [apply Prim2SF_SF2Prim; exact Bm|]. split; [lia|].
    rewrite Hm'.
    assert (P1 : 0 < 2 ^ (e0 - e')) by (apply Z.pow_pos_nonneg; lia).
    assert (P2 : 360 * 2 ^ (- e') = B * 2 ^ (e0 - e')).
    { unfold B. rewrite H360. rewrite <- !Z.mul_assoc, <- !Z.pow_add_r by lia.
      do 2 f_equal. lia. }
    rewrite P2. apply Z.mul_lt_mono_pos_r; lia.
Qed.

Lemma Zdigits2_below (z k : Z) : 0 <= z < 2 ^ k -> 0 <= k -> Zdigits2 z <= k.
Proof.
  intros [Hz Hk] Hk0. destruct z as [|p|p]; cbn [Zdigits2]; [lia| |lia].
  pose proof (digits_bounds p) as [Lo _].
  assert (Zpos (digits2_pos p) - 1 < k); [|lia].
  apply (Z.pow_lt_mono_r_iff 2); lia.
Qed.

Lemma shr_exponent (mrs : shr_record) (e n : Z) : snd (shr mrs e n) = e + Z.max 0 n.
Proof. unfold shr. destruct n; cbn [snd]; lia. Qed.

Lemma shr_mantissa (mrs : shr_record) (e n : Z) :
  0 <= shr_m mrs -> shr_m (fst (shr mrs e n)) = shr_m mrs / 2 ^ Z.max 0 n.
Proof.
  intros H. unfold shr. destruct n as [|p|p]; cbn [fst].
  - now rewrite Z.div_1_r.
  - rewrite iter_pos_nat, shr_iter_m by exact H. f_equal. f_equal. lia.
  - now rewrite Z.div_1_r.
Qed.

(** Rounding a mantissa whose value is below 2^1000 does not overflow. *)
Lemma binary_round_aux_finite (sx : bool) (mx : positive) (ex D : Z) :
  Zpos (digits2_pos mx) + ex <= D -> D <= 1000 -> ex <= 900 ->
  binary_round_aux prec emax sx (Zpos mx) ex loc_Exact = S754_zero sx
  \/ exists (m : positive) (e : Z),
       binary_round_aux prec emax sx (Zpos mx) ex loc_Exact = S754_finite sx m e.
Proof.
  intros HD HD' Hex. unfold binary_round_aux, shr_fexp.
  cbn [Zdigits2]. set (d := Zpos (digits2_pos mx)) in *.
  assert (Hd1 : 1 <= d) by (unfold d; lia).
  set (n1 := fexp prec emax (d + ex) - ex).
  assert (Hn1 : n1 = Z.max (d + ex - 53) (-1074) - ex) by (unfold n1; now rewrite fexp_eq).
  pose proof (shr_mantissa (shr_record_of_loc (Zpos mx) loc_Exact) ex n1) as M1.
  pose proof (shr_exponent (shr_record_of_loc (Zpos mx) loc_Exact) ex n1) as X1.
  rewrite shr_record_of_loc_m in M1. specialize (M1 ltac:(lia)).
  destruct (shr (shr_record_of_loc (Zpos mx) loc_Exact) ex n1) as [mrs' e'].
  cbn [fst snd] in M1, X1.
  pose proof (digits_bounds mx) as [_ Umx]. fold d in Umx.
  assert (P0 : 0 < 2 ^ Z.max 0 n1) by (apply Z.pow_pos_nonneg; lia).
  assert (H1 : 0 <= shr_m mrs') by (rewrite M1; apply Z.div_pos; lia).
  set (k := Z.max 0 (d - Z.max 0 n1)).
  assert (Hk : shr_m mrs' < 2 ^ k).
  { rewrite M1. unfold k. destruct (Z_le_gt_dec (Z.max 0 n1) d) as [L|G].
    - replace (Z.max 0 (d - Z.max 0 n1)) with (d - Z.max 0 n1) by lia.
      apply Z.div_lt_upper_bound; [exact P0|].
      rewrite <- Z.pow_add_r by lia. replace (Z.max 0 n1 + (d - Z.max 0 n1)) with d by lia.
      exact Umx.
    - replace (Z.max 0 (d - Z.max 0 n1)) with 0 by lia. change (2 ^ 0) with 1.
      assert (2 ^ d <= 2 ^ Z.max 0 n1) by (apply Z.pow_le_mono_r; lia).
      rewrite Z.div_small; lia. }
  set (m2 := round_nearest_even (shr_m mrs') (loc_of_shr_record mrs')).
  assert (H2 : 0 <= m2 < 2 ^ (k + 1)).
  { rewrite Z.pow_add_r by (unfold k; lia). change (2 ^ 1) with 2.
    destruct (round_at_most_next (shr_m mrs') (loc_of_shr_record mrs')) as [E|E];
      fold m2 in E; lia. }
  pose proof (Zdigits2_below m2 (k + 1) H2 ltac:(unfold k; lia)) as D2.
  set (n2 := fexp prec emax (Zdigits2 m2 + e') - e').
  assert (Hn2 : n2 = Z.max (Zdigits2 m2 + e' - 53) (-1074) - e')
    by (unfold n2; now rewrite fexp_eq).
  pose proof (shr_nonneg (shr_record_of_loc m2 loc_Exact) e' n2) as H3.
  pose proof (shr_exponent (shr_record_of_loc m2 loc_Exact) e' n2) as X2.
  rewrite shr_record_of_loc_m in H3. specialize (H3 ltac:(lia)).
  destruct (shr (shr_record_of_loc m2 loc_Exact) e' n2) as [mrs'' e''].
  cbn [fst snd] in H3, X2.
  destruct (shr_m mrs'') as [|q|q]; [now left| |lia].
  right. replace (e'' <=? emax - prec) with true; [now eexists _, _|].
  symmetry. apply Z.leb_le. change (emax - prec) with 971. unfold k in D2. lia.
Qed.

(** [r + 360] for a Number [r] of magnitude below 360: a finite Number
    that is not negative. *)
Lemma add_360_finite (r : float) (s1 : bool) (m1 : positive) (e1 : Z) :
  Prim2SF r = S754_finite s1 m1 e1 ->
  -1074 <= e1 <= -44 -> Zpos m1 < 360 * 2 ^ (- e1) ->
  Prim2SF (r + 360) = S754_zero false
  \/ exists (m : positive) (e : Z), Prim2SF (r + 360) = S754_finite false m e.
Proof.
  intros Hr He Hm.
  destruct mantissa_360 as (m360 & E360 & H360).
  rewrite add_spec, Hr, E360. unfold SF64add, SFadd.
  change (IntDef.Z.min e1 (-44)) with (Z.min e1 (-44)).
  replace (Z.min e1 (-44)) with e1 by lia.
  assert (S1 : shl_align m1 e1 e1 = (m1, e1)) by (unfold shl_align; now rewrite Z.sub_diag).
  assert (S2 : exists q : positive,
             fst (shl_align m360 (-44) e1) = q /\ Zpos q = 360 * 2 ^ (- e1)).
  { unfold shl_align. destruct (e1 - -44) as [|t|t] eqn:E; [|lia|].
    - eexists. split; [reflexivity|]. cbn [fst]. rewrite H360.
      replace (- e1) with 44 by lia. reflexivity.
    - eexists. split; [reflexivity|]. cbn [fst].
      change (Pos.iter xO m360 t) with (shl m360 (Zpos t)).
      rewrite shl_Z, H360 by lia. rewrite <- Z.mul_assoc, <- Z.pow_add_r by lia.
      do 2 f_equal. lia. }
  destruct S2 as (q & -> & Hq). rewrite S1. cbn [fst].
  assert (Pe : 0 < 2 ^ (- e1)) by (apply Z.pow_pos_nonneg; lia).
  set (z := cond_Zopp s1 (Zpos m1) + cond_Zopp false (Zpos q)).
  assert (Hz : 0 < z < 720 * 2 ^ (- e1)).
  { unfold z. cbn [cond_Zopp]. destruct s1; cbn [cond_Zopp]; lia. }
  destruct z as [|pz|pz] eqn:Ez; [lia| |lia].
  cbn [binary_normalize]. unfold binary_round.
  set (ez := fexp prec emax (Zpos (digits2_pos pz) + e1)).
  assert (Hdz : Zpos (digits2_pos pz) + e1 <= 10).
  { assert (Zpos pz < 2 ^ (10 - e1)).
    { replace (10 - e1) with (10 + - e1) by lia. rewrite Z.pow_add_r by lia.
      change (2 ^ 10) with 1024. lia. }
    pose proof (Zdigits2_below (Zpos pz) (10 - e1) ltac:(lia) ltac:(lia)) as Hb.
    cbn [Zdigits2] in Hb. lia. }
  assert (Hez : ez <= e1 \/ ez <= -43).
  { unfold ez. rewrite fexp_eq. lia. }
  destruct (shl_align pz e1 ez) as [mz ez'] eqn:Es.
  assert (Hs : Zpos (digits2_pos mz) + ez' = Zpos (digits2_pos pz) + e1 /\ ez' <= e1).
  { unfold shl_align in Es. destruct (ez - e1) as [|t|t] eqn:E.
    - injection Es as <- <-. lia.
    - injection Es as <- <-. lia.
    - injection Es as <- <-.
      change (Pos.iter xO pz t) with (shl pz (Zpos t)). rewrite digits_shl by lia. lia. }
  destruct (binary_round_aux_finite false mz ez' 10 ltac:(lia) ltac:(lia) ltac:(lia))
    as [E|(m & e & E)]; rewrite E; [now left | right; now eexists _, _].
Qed.

(** [Number.isFinite(x)]: [x] is a zero or has a mantissa. *)
Lemma finite_spec (x : float) :
  is_finite x = true ->
  (exists s, Prim2SF x = S754_zero s) \/ exists s m e, Prim2SF x = S754_finite s m e.
Proof.
  unfold is_finite, is_nan, is_infinity. rewrite !eqb_spec, abs_spec.
  change (Prim2SF infinity) with (S754_infinity false).
  destruct (Prim2SF x) as [s|s| |s m e]; intros H.
  - left. now exists s.
  - destruct s; discriminate.
  - discriminate.
  - right. now exists s, m, e.
Qed.

Lemma not_finite_spec (x : float) :
  is_finite x = false ->
  Prim2SF x = S754_nan \/ exists s, Prim2SF x = S754_infinity s.
Proof.
  unfold is_finite, is_nan, is_infinity. rewrite !eqb_spec, abs_spec.
  change (Prim2SF infinity) with (S754_infinity false).
  destruct (Prim2SF x) as [s|s| |s m e] eqn:E; intros H.
  - destruct s; discriminate.
  - right. now exists s.
  - now left.
  - unfold SFeqb in H. rewrite SFcompare_refl in H by discriminate.
    cbn [SFabs SFcompare] in H. discriminate.
Qed.

Lemma Number_rem_zero (x : float) (s : bool) :
  Prim2SF x = S754_zero s -> Number_rem x 360 = x.
Proof. intros H. unfold Number_rem. rewrite H, Prim2SF_360. reflexivity. Qed.

Lemma Number_rem_not_finite (x : float) : is_finite x = false -> Number_rem x 360 = nan.
Proof.
  intros H. unfold Number_rem. rewrite Prim2SF_360.
  destruct (not_finite_spec x H) as [->|[s ->]]; reflexivity.
Qed.

Lemma add_nan_l (x : float) : (nan + x)%float = nan.
Proof.
  rewrite <- (SF2Prim_Prim2SF (nan + x)), add_spec.
  change (Prim2SF nan) with S754_nan. reflexivity.
Qed.

(** [s % 360] for a finite Number [s] that is not negative lies in
    [0, 360). *)
Lemma rem_360_range (y : float) :
  Prim2SF y = S754_zero false \/ (exists m e, Prim2SF y = S754_finite false m e) ->
  (0 <=? Number_rem y 360)%float = true /\ (Number_rem y 360 <? 360)%float = true.
Proof.
  intros H. rewrite leb_spec, ltb_spec.
  change (Prim2SF 0) with (S754_zero false).
  change (Prim2SF 360) with (canonical 360).
  assert (Z : forall t, Prim2SF t = S754_zero false ->
                        SFleb (S754_zero false) (Prim2SF t) = true
                        /\ SFltb (Prim2SF t) (canonical 360) = true).
  { intros t ->. split; reflexivity. }
  destruct H as [H|(m & e & H)].
  - rewrite (Number_rem_zero y false H). now apply Z.
  - destruct (remainder_by_360 y false m e H) as [E|(m' & e' & E & He & Hm)];
      [now apply Z|].
    pose proof (Prim2SF_valid (Number_rem y 360)) as V. rewrite E in V |- *.
    split; [reflexivity|].
    unfold SFltb. rewrite (compare_with_integer m' e' 360 V ltac:(lia) ltac:(split; reflexivity)).
    apply Z.compare_lt_iff in Hm. now rewrite Hm.
Qed.

Lemma inner_sum_finite (x : float) :
  is_finite x = true ->
  Prim2SF (Number_rem x 360 + 360) = S754_zero false
  \/ exists m e, Prim2SF (Number_rem x 360 + 360) = S754_finite false m e.
Proof.
  intros F.
  assert (Z : forall t s, Prim2SF t = S754_zero s ->
                          exists m e, Prim2SF (t + 360) = S754_finite false m e).
  { intros t s Ht. rewrite add_spec, Ht, Prim2SF_360. now eexists _, _. }
  destruct (finite_spec x F) as [[s H]|(s & m & e & H)].
  - right. rewrite (Number_rem_zero x s H). now apply (Z x s).
  - destruct (remainder_by_360 x s m e H) as [E|(m' & e' & E & He & Hm)].
    + right. now apply (Z _ s).
    + now apply (add_360_finite _ s m' e').
Qed.

(** [normalizeHue] brings every finite Number into [0, 360). *)
Lemma normalizeHue_range (x : float) :
  is_finite x = true ->
  (0 <=? normalizeHue x)%float = true /\ (normalizeHue x <? 360)%float = true.
Proof.
  intros F. unfold normalizeHue. apply rem_360_range. now apply inner_sum_finite.
Qed.

Lemma normalizeHue_not_finite (x : float) : is_finite x = false -> normalizeHue x = nan.
Proof.
  intros F. unfold normalizeHue. rewrite (Number_rem_not_finite x F), add_nan_l.
  reflexivity.
Qed.


(** C7 (as the code has it).  [normalizeHue] brings every finite Number,
    integer or not, into [0, 360); of NaN and the infinities it makes NaN.
    For every integer [z] below 2^52 in absolute value, [normalizeHue(z)]
    is the Number [z mod 360] and [normalizeHue(z + 360)] is the same
    Number. *)
Theorem normalizeHue_range_and_period :
  (forall x : float,
      is_finite x = true ->
      Number_le 0 (normalizeHue x) /\ Number_lt (normalizeHue x) 360)
  /\ (forall x : float, is_finite x = false -> normalizeHue x = nan)
  /\ (forall z : Z,
        Z.abs z < 2 ^ 52 ->
        normalizeHue (Z2F z) = Z2F (z mod 360)
        /\ 0 <= z mod 360 < 360
        /\ normalizeHue (Z2F z + 360)%float = normalizeHue (Z2F z)
        /\ Number_eq (normalizeHue (Z2F z)) (normalizeHue (Z2F z + 360)%float)).
Proof.
  split; [exact normalizeHue_range|]. split; [exact normalizeHue_not_finite|].
  intros z Hz.
  assert (Hm : 0 <= z mod 360 < 360) by (apply Z.mod_pos_bound; lia).
  assert (E1 : normalizeHue (Z2F z) = Z2F (z mod 360)) by (apply normalizeHue_integer; lia).
  assert (E2 : normalizeHue (Z2F z + 360)%float = Z2F (z mod 360)).
  { rewrite Number_add_360 by exact Hz. rewrite normalizeHue_integer by lia.
    apply (f_equal Z2F). rewrite <- (Z.mul_1_l 360) at 1. apply Z.mod_add. lia. }
  destruct (degree_range (z mod 360) Hm) as (Hle & Hlt & Heq).
  rewrite E2, E1. repeat split; try assumption; lia.
Qed.

Lemma normalizeHue_range_and_period_witness :
  (Number_le 0 (normalizeHue (-0.7)) /\ Number_lt (normalizeHue (-0.7)) 360)
  /\ normalizeHue infinity = nan
  /\ normalizeHue (Z2F (-30)) = Z2F (-30 mod 360)
  /\ 0 <= -30 mod 360 < 360
  /\ normalizeHue (Z2F (-30) + 360)%float = normalizeHue (Z2F (-30))
  /\ Number_eq (normalizeHue (Z2F (-30))) (normalizeHue (Z2F (-30) + 360)%float).
Proof.
  destruct normalizeHue_range_and_period as (Hrange & Hnan & Hint).
  split; [apply (Hrange (-0.7)%float); reflexivity|].
  split; [apply (Hnan infinity); reflexivity|].
  apply (Hint (-30)). reflexivity.
Defined.

(* ================================================================== *)
(** * The hues of a palette *)
(* ================================================================== *)




















